(** * Minesweeper rule engine (components.py): model and verification

    The Board class of [components.py] is embedded as pure functions over
    an immutable record.  Methods that mutate [self] become functions
    [Board -> result Board]; the exceptions Python could raise on the way
    (an [IndexError] from list indexing or from [random.choice]) are the
    [Err] outcomes of a small error monad, and the module-level random
    generator is an explicit stream of draws handed to the call.  The
    [while stack:] loop of [reveal] runs on a bound of iterations that is
    proved never to be reached.

    The file has five parts: the model, the vocabulary of the statements,
    the lemmas (closed forms of the loops, the flood fill, the invariant of
    reachable boards), the properties C1 to C10, and further properties
    X1 to X21 of the constructor, the coordinate utilities, the flags, the
    first click, hints, and the win and loss conditions. *)

From stdpp Require Import base numbers list gmap fin_sets.

Local Open Scope Z_scope.

(** ** Outcomes of a call *)

Inductive error : Type :=
  | IndexError   (* raised by list indexing and by random.choice *)
  | Diverged.    (* the bounded rendering of a while loop ran out of steps *)

Inductive result (A : Type) : Type :=
  | Ok (a : A)
  | Err (e : error).
Arguments Ok {A} a.
Arguments Err {A} e.

#[global] Instance result_ret : MRet result := λ A a, Ok a.
#[global] Instance result_bind : MBind result := λ A B f m,
  match m with
  | Ok a => f a
  | Err e => Err e
  end.

(** [for x in l: body] over a threaded state. *)
Fixpoint for_each {A S : Type} (body : A → S → result S) (l : list A) (s : S)
  : result S :=
  match l with
  | [] => Ok s
  | x :: l' => s' ← body x s; for_each body l' s'
  end.

(** ** The fragments of Python's built-ins that the module uses *)

Module Py.

(** [range(n)]: empty when [n <= 0]. *)
Definition range (n : Z) : list Z := seqZ 0 n.

(** Index normalisation of [l[i]]: negative indices count from the end,
    anything outside [-len, len) raises. *)
Definition norm_index {A : Type} (l : list A) (i : Z) : result nat :=
  let n := Z.of_nat (length l) in
  if bool_decide (0 ≤ i < n) then Ok (Z.to_nat i)
  else if bool_decide (- n ≤ i < 0) then Ok (Z.to_nat (n + i))
  else Err IndexError.

Definition getitem {A : Type} (l : list A) (i : Z) : result A :=
  k ← norm_index l i;
  match l !! k with
  | Some x => Ok x
  | None => Err IndexError
  end.

(** [l[:stop]]: a negative [stop] is taken from the end and clamped. *)
Definition slice_to {A : Type} (l : list A) (stop : Z) : list A :=
  let n := Z.of_nat (length l) in
  let stop' := if bool_decide (stop < 0) then Z.max 0 (stop + n) else stop in
  take (Z.to_nat stop') l.

End Py.

(** ** Python's [random] module, driven by an explicit stream of draws *)

Module Random.

(** The raw draws still to be consumed; an exhausted stream yields 0. *)
Definition Rng : Type := list nat.

Definition randbelow (n : nat) (g : Rng) : nat * Rng :=
  match g with
  | [] => (0%nat, [])
  | x :: g' => ((x `mod` n)%nat, g')
  end.

(** [x[i], x[j] = x[j], x[i]] *)
Definition swap {A : Type} (i j : nat) (x : list A) : list A :=
  match x !! i, x !! j with
  | Some a, Some b => <[j:=a]> (<[i:=b]> x)
  | _, _ => x
  end.

(** [for i in reversed(range(1, len(x))): j = randbelow(i + 1); swap]:
    the argument counts [i] down from [len(x) - 1] to 1. *)
Fixpoint shuffle_from {A : Type} (i : nat) (x : list A) (g : Rng)
  : list A * Rng :=
  match i with
  | O => (x, g)
  | S i' =>
      let '(j, g') := randbelow (S i) g in
      shuffle_from i' (swap i j x) g'
  end.

Definition shuffle {A : Type} (x : list A) (g : Rng) : list A * Rng :=
  shuffle_from (length x - 1)%nat x g.

(** [random.choice(seq)] raises [IndexError] on an empty sequence. *)
Definition choice {A : Type} (seq : list A) (g : Rng) : result (A * Rng) :=
  match seq with
  | [] => Err IndexError
  | _ =>
      let '(k, g') := randbelow (length seq) g in
      match seq !! k with
      | Some x => Ok (x, g')
      | None => Err IndexError
      end
  end.

End Random.

(** ** Data model *)

Record CellState : Type := mkCellState {
  is_mine : bool;
  is_revealed : bool;
  is_flagged : bool;
  adjacent : Z
}.

Record Cell : Type := mkCell {
  col : Z;
  row : Z;
  state : CellState
}.

Record Board : Type := mkBoard {
  cols : Z;
  rows : Z;
  num_mines : Z;
  cells : list Cell;
  _mines_placed : bool;
  revealed_count : Z;
  game_over : bool;
  win : bool
}.

(** A grid position [(col, row)]. *)
Abbreviation pos := (Z * Z)%type.

(** Attribute assignments. *)
Definition set_is_mine (v : bool) (c : Cell) : Cell :=
  mkCell (col c) (row c)
    (mkCellState v (is_revealed (state c)) (is_flagged (state c)) (adjacent (state c))).
Definition set_is_revealed (v : bool) (c : Cell) : Cell :=
  mkCell (col c) (row c)
    (mkCellState (is_mine (state c)) v (is_flagged (state c)) (adjacent (state c))).
Definition set_is_flagged (v : bool) (c : Cell) : Cell :=
  mkCell (col c) (row c)
    (mkCellState (is_mine (state c)) (is_revealed (state c)) v (adjacent (state c))).
Definition set_adjacent (v : Z) (c : Cell) : Cell :=
  mkCell (col c) (row c)
    (mkCellState (is_mine (state c)) (is_revealed (state c)) (is_flagged (state c)) v).

Definition set_cells (l : list Cell) (b : Board) : Board :=
  mkBoard (cols b) (rows b) (num_mines b) l (_mines_placed b)
    (revealed_count b) (game_over b) (win b).
Definition set_mines_placed (v : bool) (b : Board) : Board :=
  mkBoard (cols b) (rows b) (num_mines b) (cells b) v
    (revealed_count b) (game_over b) (win b).
Definition set_revealed_count (v : Z) (b : Board) : Board :=
  mkBoard (cols b) (rows b) (num_mines b) (cells b) (_mines_placed b)
    v (game_over b) (win b).
Definition set_game_over (v : bool) (b : Board) : Board :=
  mkBoard (cols b) (rows b) (num_mines b) (cells b) (_mines_placed b)
    (revealed_count b) v (win b).
Definition set_win (v : bool) (b : Board) : Board :=
  mkBoard (cols b) (rows b) (num_mines b) (cells b) (_mines_placed b)
    (revealed_count b) (game_over b) v.

(** [self.cells[i].state.<attr> = ...]: the cell object is reached through
    the list, so the assignment shows in the list. *)
Definition mutate_cell (i : Z) (f : Cell → Cell) (b : Board) : result Board :=
  k ← Py.norm_index (cells b) i;
  Ok (set_cells (alter f k (cells b)) b).

(** ** Board *)

(** [Board.__init__] *)
Definition new (cols rows mines : Z) : Board :=
  mkBoard cols rows mines
    (r ← Py.range rows;
     (λ c, mkCell c r (mkCellState false false false 0)) <$> Py.range cols)
    false 0 false false.

(** [Board.index]: the flat list index of [(col, row)]. *)
Definition index (b : Board) (col row : Z) : Z := row * cols b + col.

(** [Board.is_inbounds] *)
Definition is_inbounds (b : Board) (col row : Z) : bool :=
  bool_decide (0 ≤ col < cols b ∧ 0 ≤ row < rows b).

(** [Board.neighbors]: the eight offsets in the order of the source, and
    the in-bounds positions they lead to. *)
Definition deltas : list (Z * Z) :=
  [ (-1, -1); (0, -1); (1, -1);
    (-1, 0);           (1, 0);
    (-1, 1);  (0, 1);  (1, 1) ].

Definition neighbors (b : Board) (col row : Z) : list pos :=
  '(dc, dr) ← deltas;
  let nc := col + dc in
  let nr := row + dr in
  if is_inbounds b nc nr then [(nc, nr)] else [].

(** *** Mine placement *)

(** [forbidden = {(safe_col, safe_row)} | set(self.neighbors(...))] *)
Definition forbidden_zone (b : Board) (safe_col safe_row : Z) : gset pos :=
  {[ (safe_col, safe_row) ]} ∪ list_to_set (neighbors b safe_col safe_row).

(** [all_positions = [(c, r) for r in range(rows) for c in range(cols)]] *)
Definition all_positions (b : Board) : list pos :=
  r ← Py.range (rows b); (λ c, (c, r)) <$> Py.range (cols b).

(** [pool = [p for p in all_positions if p not in forbidden]] *)
Definition candidate_pool (b : Board) (safe_col safe_row : Z) : list pos :=
  filter (λ p, p ∉ forbidden_zone b safe_col safe_row) (all_positions b).

(** [for (c, r) in mine_positions: self.cells[idx].state.is_mine = True] *)
Definition lay_mines (mine_positions : gset pos) (b : Board) : result Board :=
  for_each (λ '(c, r) b, mutate_cell (index b c r) (set_is_mine true) b)
    (elements mine_positions) b.

(** The inner counting loop of the adjacency pass. *)
Definition count_step (b : Board) (p : pos) (count : Z) : result Z :=
  ncell ← Py.getitem (cells b) (index b p.1 p.2);
  Ok (if is_mine (state ncell) then count + 1 else count).

(** The body of the adjacency pass for the cell at [(c, r)]. *)
Definition adjacency_body (c r : Z) (b : Board) : result Board :=
  cell ← Py.getitem (cells b) (index b c r);
  if is_mine (state cell) then Ok b
  else
    count ← for_each (count_step b) (neighbors b c r) 0;
    mutate_cell (index b c r) (set_adjacent count) b.

(** [for r in range(rows): for c in range(cols): ...] *)
Definition compute_adjacency (b : Board) : result Board :=
  for_each (λ r b,
      for_each (λ c b, adjacency_body c r b) (Py.range (cols b)) b)
    (Py.range (rows b)) b.

(** [Board.place_mines]; the set [mine_positions] is walked in the order
    of [elements], the writes do not depend on the order. *)
Definition place_mines (g : Random.Rng) (safe_col safe_row : Z) (b : Board)
  : result Board :=
  let pool := candidate_pool b safe_col safe_row in
  let pool := (Random.shuffle pool g).1 in
  let mine_positions : gset pos := list_to_set (Py.slice_to pool (num_mines b)) in
  b ← lay_mines mine_positions b;
  b ← compute_adjacency b;
  Ok (set_mines_placed true b).

(** *** Reveal *)

(** [Board._reveal_all_mines] *)
Definition _reveal_all_mines (b : Board) : Board :=
  set_cells
    ((λ cell, if is_mine (state cell) then set_is_revealed true cell else cell)
       <$> cells b) b.

(** [Board._check_win] *)
Definition _check_win (b : Board) : Board :=
  let total_cells := cols b * rows b in
  if bool_decide (revealed_count b = total_cells - num_mines b)
     && negb (game_over b)
  then
    let b := set_win true b in
    set_cells
      ((λ cell,
          if negb (is_revealed (state cell)) && negb (is_mine (state cell))
          then set_is_revealed true cell else cell) <$> cells b) b
  else b.

(** The stack of the flood fill is kept with its top at the head:
    [stack.append] is a cons and [stack.pop()] takes the head. *)
Fixpoint push_neighbors (b : Board) (ns : list pos) (stack : list pos)
  : result (list pos) :=
  match ns with
  | [] => Ok stack
  | (nc, nr) :: ns' =>
      ncell ← Py.getitem (cells b) (index b nc nr);
      if negb (is_revealed (state ncell)) && negb (is_flagged (state ncell))
      then push_neighbors b ns' ((nc, nr) :: stack)
      else push_neighbors b ns' stack
  end.

(** One iteration of [while stack:] after [c, r = stack.pop()]. *)
Definition flood_step (c r : Z) (stack : list pos) (b : Board)
  : result (list pos * Board) :=
  curr ← Py.getitem (cells b) (index b c r);
  if is_revealed (state curr) || is_flagged (state curr) then Ok (stack, b)
  else
    b ← mutate_cell (index b c r) (set_is_revealed true) b;
    let b := set_revealed_count (revealed_count b + 1) b in
    if bool_decide (adjacent (state curr) = 0) then
      stack ← push_neighbors b (neighbors b c r) stack;
      Ok (stack, b)
    else Ok (stack, b).

(** [while stack:] on at most [fuel] iterations. *)
Fixpoint flood (fuel : nat) (stack : list pos) (b : Board) : result Board :=
  match stack with
  | [] => Ok b
  | (c, r) :: stack' =>
      match fuel with
      | O => Err Diverged
      | S fuel' =>
          '(stack'', b') ← flood_step c r stack' b;
          flood fuel' stack'' b'
      end
  end.

(** Enough iterations for any flood fill on [b]: every iteration either
    reveals a cell (and pushes at most 8) or only pops. *)
Definition flood_fuel (b : Board) : nat := (9 * length (cells b) + 2)%nat.

(** [Board.reveal] *)
Definition reveal (g : Random.Rng) (col row : Z) (b : Board) : result Board :=
  if negb (is_inbounds b col row) then Ok b
  else
    b ← (if negb (_mines_placed b) then place_mines g col row b else Ok b);
    cell ← Py.getitem (cells b) (index b col row);
    if is_revealed (state cell) || is_flagged (state cell) then Ok b
    else if is_mine (state cell) then
      b ← mutate_cell (index b col row) (set_is_revealed true) b;
      let b := set_game_over true b in
      Ok (_reveal_all_mines b)
    else
      b ← flood (flood_fuel b) [(col, row)] b;
      Ok (_check_win b).

(** *** Flags and hints *)

(** [Board.toggle_flag] *)
Definition toggle_flag (col row : Z) (b : Board) : result Board :=
  if negb (is_inbounds b col row) then Ok b
  else
    cell ← Py.getitem (cells b) (index b col row);
    if is_revealed (state cell) then Ok b
    else
      mutate_cell (index b col row)
        (set_is_flagged (negb (is_flagged (state cell)))) b.

(** [Board.flagged_count] *)
Definition flagged_count (b : Board) : Z :=
  Z.of_nat (length (filter (λ cell, is_flagged (state cell) = true) (cells b))).

(** [Board.hint_reveal] *)
Definition hint_reveal (g : Random.Rng) (b : Board) : result Board :=
  if negb (_mines_placed b) || game_over b || win b then Ok b
  else
    let safe_unrevealed :=
      filter (λ cell, is_mine (state cell) = false
                      ∧ is_revealed (state cell) = false
                      ∧ is_flagged (state cell) = false) (cells b) in
    match safe_unrevealed with
    | [] => Ok b
    | _ =>
        '(hint_cell, g') ← Random.choice safe_unrevealed g;
        reveal g' (col hint_cell) (row hint_cell) b
    end.

(** ** Runs of the public operations *)

(** A call of a public operation, with the draws it may consume. *)
Inductive op : Type :=
  | Reveal (g : Random.Rng) (col row : Z)
  | ToggleFlag (col row : Z)
  | HintReveal (g : Random.Rng).

Definition step (o : op) (b : Board) : result Board :=
  match o with
  | Reveal g c r => reveal g c r b
  | ToggleFlag c r => toggle_flag c r b
  | HintReveal g => hint_reveal g b
  end.

Definition run (os : list op) (b : Board) : result Board := for_each step os b.

(** A board is reachable when some run of the public operations, none of
    which raised, leads to it from a freshly constructed board. *)
Inductive Reachable : Board → Prop :=
  | reach_new cols rows mines : Reachable (new cols rows mines)
  | reach_step b o b' : Reachable b → step o b = Ok b' → Reachable b'.

(** The board a run ends in; a run that raised leaves the board it
    started from. *)
Definition play (os : list op) (b : Board) : Board :=
  match run os b with
  | Ok b' => b'
  | Err _ => b
  end.

(** * Specification vocabulary *)

(** The notions the statements below are written in: positional views of
    the cell list, the closed forms of the loops, and the invariant. *)

(** ** The grid *)

(** The row-major comprehension [[f(c, r) for r in range(rows) for c in
    range(cols)]] shared by the constructor and [place_mines]. *)
Definition grid {A : Type} (f : Z → Z → A) (rows cols : Z) : list A :=
  r ← Py.range rows; (λ c, f c r) <$> Py.range cols.

Definition coords (cell : Cell) : pos := (col cell, row cell).

(** The cell list is the row-major grid of the constructor: the cell
    stored at flat index [i] carries the coordinates of position [i]. *)
Definition wf (b : Board) : Prop := coords <$> cells b = all_positions b.

(** The cell stored at the flat index of [(c, r)]. *)
Definition cell_at (b : Board) (c r : Z) : option Cell :=
  cells b !! Z.to_nat (index b c r).

Definition keeps_coords (f : Cell → Cell) : Prop := ∀ c, coords (f c) = coords c.

(** ** Mine placement in closed form *)

Definition is_mine_at (b : Board) (p : pos) : bool :=
  match cell_at b p.1 p.2 with
  | Some cell => is_mine (state cell)
  | None => false
  end.

(** Number of mines among the neighbours of [(c, r)]. *)
Definition mine_neighbors (b : Board) (c r : Z) : Z :=
  Z.of_nat (length (filter (λ p, is_mine_at b p = true) (neighbors b c r))).

(** The mine-laying loop, cell by cell. *)
Definition mark_mines (M : gset pos) (cell : Cell) : Cell :=
  if decide (coords cell ∈ M) then set_is_mine true cell else cell.

(** The adjacency pass after the positions in [D] have been visited. *)
Definition mark_adjacent (b : Board) (D : list pos) (cell : Cell) : Cell :=
  if is_mine (state cell) then cell
  else if decide (coords cell ∈ D)
       then set_adjacent (mine_neighbors b (col cell) (row cell)) cell
       else cell.

(** The adjacency pass as a whole. *)
Definition set_adjacency (b : Board) (cell : Cell) : Cell :=
  if is_mine (state cell) then cell
  else set_adjacent (mine_neighbors b (col cell) (row cell)) cell.

(** The set of mines laid by [place_mines]. *)
Definition mine_positions (g : Random.Rng) (safe_col safe_row : Z) (b : Board)
  : gset pos :=
  list_to_set
    (Py.slice_to (Random.shuffle (candidate_pool b safe_col safe_row) g).1
       (num_mines b)).

Definition with_mines (M : gset pos) (b : Board) : Board :=
  set_cells (mark_mines M <$> cells b) b.

Definition with_adjacency (b : Board) : Board :=
  set_cells (set_adjacency b <$> cells b) b.

Definition count_mines (b : Board) : Z :=
  Z.of_nat (length (filter (λ cell, is_mine (state cell) = true) (cells b))).

Definition no_mines (b : Board) : Prop :=
  ∀ cell, cell ∈ cells b → is_mine (state cell) = false.

(** ** The flood fill *)

(** Neither revealed nor flagged: what the fill pushes and reveals. *)
Definition is_open (b : Board) (p : pos) : bool :=
  match cell_at b p.1 p.2 with
  | Some cell => negb (is_revealed (state cell)) && negb (is_flagged (state cell))
  | None => false
  end.

(** The board after [curr.state.is_revealed = True; self.revealed_count += 1]
    for the cell at [(c, r)]. *)
Definition reveal_at (b : Board) (c r : Z) : Board :=
  set_revealed_count (revealed_count b + 1)
    (set_cells (alter (set_is_revealed true) (Z.to_nat (index b c r)) (cells b)) b).

(** Number of unrevealed cells, the variant of the fill. *)
Definition hidden (b : Board) : nat :=
  length (filter (λ cell, is_revealed (state cell) = false) (cells b)).

Definition is_revealed_at (b : Board) (p : pos) : bool :=
  match cell_at b p.1 p.2 with
  | Some cell => is_revealed (state cell)
  | None => false
  end.

Definition zero_at (b : Board) (p : pos) : bool :=
  match cell_at b p.1 p.2 with
  | Some cell => bool_decide (adjacent (state cell) = 0)
  | None => false
  end.

(** The cells the flood fill started at [s] gets to: [s] itself when it is
    neither revealed nor flagged, and every unrevealed, unflagged neighbour
    of a cell it gets to whose adjacency count is zero. *)
Inductive Reach (b : Board) (s : pos) : pos → Prop :=
  | Reach_start :
      is_inbounds b s.1 s.2 = true → is_open b s = true → Reach b s s
  | Reach_next p q :
      Reach b s p → zero_at b p = true →
      q ∈ neighbors b p.1 p.2 → is_open b q = true → Reach b s q.

(** A board that differs from [b0] in its cell list and counter only. *)
Definition flood_state (b0 : Board) (l : list Cell) (n : Z) : Board :=
  set_revealed_count n (set_cells l b0).

(** Every cell of [l] is the cell of [b0] at the same position, possibly
    revealed by the fill, which only happens to reached cells. *)
Definition tracks (b0 : Board) (s : pos) (l : list Cell) : Prop :=
  ∀ c r cell0,
    is_inbounds b0 c r = true → cell_at b0 c r = Some cell0 →
    l !! Z.to_nat (index b0 c r) = Some cell0
    ∨ (l !! Z.to_nat (index b0 c r) = Some (set_is_revealed true cell0)
       ∧ is_revealed (state cell0) = false
       ∧ is_flagged (state cell0) = false
       ∧ Reach b0 s (c, r)).

(** The loop invariant of the flood fill started at [s] on [b0]. *)
Definition flood_inv (b0 : Board) (s : pos) (stack : list pos) (b : Board) : Prop :=
  ∃ l n,
    b = flood_state b0 l n
    ∧ n + Z.of_nat (hidden b) = revealed_count b0 + Z.of_nat (hidden b0)
    ∧ tracks b0 s l
    ∧ (∀ p, p ∈ stack → is_open b0 p = true → Reach b0 s p)
    ∧ (is_inbounds b0 s.1 s.2 = true → is_open b0 s = true →
       is_revealed_at b s = true ∨ s ∈ stack)
    ∧ (∀ p q,
         is_inbounds b0 p.1 p.2 = true → is_open b0 p = true →
         zero_at b0 p = true → is_revealed_at b p = true →
         q ∈ neighbors b0 p.1 p.2 → is_open b0 q = true →
         is_revealed_at b q = true ∨ q ∈ stack).

(** ** The invariant of reachable boards *)

Definition safe_revealed (cell : Cell) : Prop :=
  is_revealed (state cell) = true ∧ is_mine (state cell) = false.

(** Number of revealed cells that are not mines. *)
Definition count_safe_revealed (b : Board) : Z :=
  Z.of_nat (length (filter safe_revealed (cells b))).

(** Number of revealed cells. *)
Definition count_revealed (b : Board) : Z :=
  Z.of_nat (length (filter (λ cell, is_revealed (state cell) = true) (cells b))).

(** Every cell that is not a mine carries the number of mines around it. *)
Definition adj_ok (b : Board) : Prop :=
  ∀ cell, cell ∈ cells b → is_mine (state cell) = false →
    adjacent (state cell) = mine_neighbors b (col cell) (row cell).

(** What holds of every cell: a mine is revealed exactly on a lost board;
    a cell is revealed and flagged only as a mine on a lost board or as a
    safe cell on a won board; before placement there are no mines and
    nothing is revealed; on a won board every safe cell is revealed. *)
Definition cell_ok (b : Board) (cell : Cell) : Prop :=
  (is_mine (state cell) = true → is_revealed (state cell) = true →
   game_over b = true)
  ∧ (is_mine (state cell) = true → game_over b = true →
     is_revealed (state cell) = true)
  ∧ (is_revealed (state cell) = true → is_flagged (state cell) = true →
     if is_mine (state cell) then game_over b = true else win b = true)
  ∧ (_mines_placed b = false →
     is_mine (state cell) = false ∧ is_revealed (state cell) = false)
  ∧ (win b = true → is_mine (state cell) = false →
     is_revealed (state cell) = true).

Record Inv (b : Board) : Prop := {
  inv_wf : wf b;
  inv_adj : _mines_placed b = true → adj_ok b;
  inv_cells : Forall (cell_ok b) (cells b);
  inv_count : win b = false → revealed_count b = count_safe_revealed b;
  inv_fresh : _mines_placed b = false →
              revealed_count b = 0 ∧ game_over b = false ∧ win b = false
}.

(** The part of a cell that only mine placement writes. *)
Definition static (cell : Cell) : pos * bool * Z :=
  (coords cell, is_mine (state cell), adjacent (state cell)).

(** ** The operations in closed form *)

(** The board after [place_mines]. *)
Definition placed (g : Random.Rng) (c r : Z) (b : Board) : Board :=
  set_mines_placed true
    (with_adjacency (with_mines (mine_positions g c r b) b)).

(** [_reveal_all_mines], cell by cell. *)
Definition sweep_mines (cell : Cell) : Cell :=
  if is_mine (state cell) then set_is_revealed true cell else cell.

(** The board after an unflagged, unrevealed mine was hit. *)
Definition lost (b : Board) : Board :=
  set_cells (sweep_mines <$> cells b) (set_game_over true b).

(** How the flood fill may change a cell: not at all, or by revealing a
    cell that was unrevealed, unflagged and not a mine. *)
Definition flood_rel (cell0 cell : Cell) : Prop :=
  cell = cell0
  ∨ (cell = set_is_revealed true cell0
     ∧ is_revealed (state cell0) = false
     ∧ is_flagged (state cell0) = false
     ∧ is_mine (state cell0) = false).

(** The sweep of [_check_win], cell by cell. *)
Definition sweep_safe (cell : Cell) : Cell :=
  if negb (is_revealed (state cell)) && negb (is_mine (state cell))
  then set_is_revealed true cell else cell.

(** The board after [_check_win] found the game won. *)
Definition won (b : Board) : Board :=
  set_cells (sweep_safe <$> cells b) (set_win true b).

(** The test of [_check_win]. *)
Definition wins (b : Board) : bool :=
  bool_decide (revealed_count b = cols b * rows b - num_mines b)
  && negb (game_over b).

(** The board after the placement step of [reveal]. *)
Definition after_placement (g : Random.Rng) (c r : Z) (b : Board) : Board :=
  if _mines_placed b then b else placed g c r b.

(** The four ways a call [reveal(c, r)] on [b] ends in [b'], where [b1]
    is [b] after the mine placement that a first click triggers. *)
Inductive reveal_outcome (g : Random.Rng) (c r : Z) (b b' : Board) : Prop :=
  | reveal_outside :
      is_inbounds b c r = false → b' = b → reveal_outcome g c r b b'
  | reveal_ignored cell :
      let b1 := after_placement g c r b in
      is_inbounds b c r = true → cell_at b1 c r = Some cell →
      is_revealed (state cell) || is_flagged (state cell) = true →
      b' = b1 → reveal_outcome g c r b b'
  | reveal_mine cell :
      let b1 := after_placement g c r b in
      is_inbounds b c r = true → cell_at b1 c r = Some cell →
      is_revealed (state cell) = false → is_flagged (state cell) = false →
      is_mine (state cell) = true →
      b' = lost b1 → reveal_outcome g c r b b'
  | reveal_flood cell l n :
      let b1 := after_placement g c r b in
      is_inbounds b c r = true → cell_at b1 c r = Some cell →
      is_revealed (state cell) = false → is_flagged (state cell) = false →
      is_mine (state cell) = false →
      wf (flood_state b1 l n) →
      n + Z.of_nat (hidden (flood_state b1 l n))
      = revealed_count b1 + Z.of_nat (hidden b1) →
      tracks b1 (c, r) l →
      (∀ p, Reach b1 (c, r) p → is_revealed_at (flood_state b1 l n) p = true) →
      b' = _check_win (flood_state b1 l n) → reveal_outcome g c r b b'.

(** The cells a hint may pick. *)
Definition hint_candidates (b : Board) : list Cell :=
  filter (λ cell, is_mine (state cell) = false
                  ∧ is_revealed (state cell) = false
                  ∧ is_flagged (state cell) = false) (cells b).

(** ** Notions of the claims *)

(** The grid positions other than [(c, r)] whose column and row are both
    within one of [c] and [r]. *)
Definition moore (b : Board) (c r : Z) : list pos :=
  filter (λ p, p ≠ (c, r) ∧ (c - 1 ≤ p.1 ≤ c + 1) ∧ (r - 1 ≤ p.2 ≤ r + 1))
    (all_positions b).

(** Number of mine cells in the Moore neighbourhood of [(c, r)]. *)
Definition moore_mines (b : Board) (c r : Z) : Z :=
  Z.of_nat (length (filter (λ p, is_mine_at b p = true) (moore b c r))).

(** Relation between a cell before and after a call of [reveal] that
    takes [b] to [b']: coordinates and flag are kept, a revealed cell stays
    revealed, mines and counts are only written by the placement of a first
    click, and a mine only becomes revealed by the call that loses. *)
Definition reveal_rel (b b' : Board) (cell cell' : Cell) : Prop :=
  coords cell' = coords cell
  ∧ is_flagged (state cell') = is_flagged (state cell)
  ∧ (is_revealed (state cell) = true → is_revealed (state cell') = true)
  ∧ (_mines_placed b = true → static cell' = static cell)
  ∧ (is_mine (state cell') = true → is_revealed (state cell') = true →
     is_revealed (state cell) = false →
     game_over b = false ∧ game_over b' = true).


(** ** Notions of the further properties *)

(** The cell that the constructor allocates at [(c, r)]. *)
Definition fresh_cell (c r : Z) : Cell :=
  mkCell c r (mkCellState false false false 0).

(** Number of the columns [x - 1], [x], [x + 1] that lie in [[0, n)],
    for [x] itself in that range. *)
Definition span (x n : Z) : Z := Z.min (x + 1) (n - 1) - Z.max (x - 1) 0 + 1.

(** What a call keeps of a cell: its coordinates, that it is revealed and,
    once the mines are placed, what the placement wrote. *)
Definition cell_kept (b : Board) (cell cell' : Cell) : Prop :=
  coords cell' = coords cell
  ∧ (is_revealed (state cell) = true → is_revealed (state cell') = true)
  ∧ (_mines_placed b = true → static cell' = static cell).

(** What a call keeps of the board. *)
Record kept (b b' : Board) : Prop := {
  kept_cols : cols b' = cols b;
  kept_rows : rows b' = rows b;
  kept_num_mines : num_mines b' = num_mines b;
  kept_latch : _mines_placed b = true → _mines_placed b' = true;
  kept_count : revealed_count b ≤ revealed_count b';
  kept_cells : Forall2 (cell_kept b) (cells b) (cells b')
}.

(** The cells that are not mines. *)
Definition count_safe (b : Board) : Z :=
  Z.of_nat (length (filter (λ cell, is_mine (state cell) = false) (cells b))).

(** Every cell that is not a mine is revealed. *)
Definition all_safe_revealed (b : Board) : Prop :=
  ∀ cell, cell ∈ cells b → is_mine (state cell) = false →
    is_revealed (state cell) = true.

(** What the win check leaves true of the counter: a won board has
    the winning count, and a board in progress has it only before
    anything was revealed. *)
Record win_inv (b : Board) : Prop := {
  wi_won : win b = true → revealed_count b = cols b * rows b - num_mines b;
  wi_pending :
    game_over b = false → win b = false →
    revealed_count b = cols b * rows b - num_mines b → revealed_count b = 0
}.

(** What mine placement leaves true of a board: it has cells, one of them
    is not a mine, and it has as many mines as asked for, up to the room
    that the safe zone leaves. *)
Record placement_ok (b : Board) : Prop := {
  po_cols : 0 < cols b;
  po_rows : 0 < rows b;
  po_safe : ∃ cell, cell ∈ cells b ∧ is_mine (state cell) = false;
  po_count :
    0 ≤ num_mines b →
    Z.min (num_mines b) (cols b * rows b - 9) ≤ count_mines b ≤ num_mines b
}.

(** ** Example boards *)

(** A 3x3 board with one mine after a first click at [(0, 0)] with every
    draw 0: the mine is at [(2, 1)], six cells are revealed. *)
Definition opened_3x3 : Board := play [Reveal [] 0 0] (new 3 3 1).

(** The same board after the mine was hit. *)
Definition lost_3x3 : Board := play [Reveal [] 0 0; Reveal [] 2 1] (new 3 3 1).

(** A 4x1 board with one mine, won by the first click; the mine is at
    [(3, 0)]. *)
Definition won_4x1 : Board := play [Reveal [] 0 0] (new 4 1 1).

(** A 3x1 board without mines on which [(1, 0)] was flagged before the
    first click at [(0, 0)]: [(2, 0)] is still unrevealed. *)
Definition fenced_3x1 : Board := play [ToggleFlag 1 0; Reveal [] 0 0] (new 3 1 0).

(** A 4x4 board with mines at [(3, 0)] and [(2, 1)], the first of them
    flagged. *)
Definition flagged_4x4 : Board :=
  play [Reveal [3; 4; 5; 6]%nat 0 0; ToggleFlag 3 0] (new 4 4 2).

(** A 3x1 board asked for two mines, with both ends flagged before the
    first click in the middle: the safe zone covers the board, no mine is
    placed, and the one counted cell wins the game. *)
Definition underplaced_3x1 : Board :=
  play [ToggleFlag 0 0; ToggleFlag 2 0; Reveal [] 1 0] (new 3 1 2).

(** * Verification *)

#[local] Arguments Py.getitem : simpl never.
#[local] Arguments Py.norm_index : simpl never.
#[local] Arguments Py.slice_to : simpl never.
#[local] Arguments Py.range : simpl never.
#[local] Arguments Random.shuffle : simpl never.
#[local] Arguments Random.choice : simpl never.
#[local] Arguments mutate_cell : simpl never.
#[local] Arguments index : simpl never.
#[local] Arguments is_inbounds : simpl never.
#[local] Arguments neighbors : simpl never.
#[local] Arguments flood_step : simpl never.
#[local] Arguments place_mines : simpl never.
#[local] Arguments lay_mines : simpl never.
#[local] Arguments compute_adjacency : simpl never.
#[local] Arguments adjacency_body : simpl never.
#[local] Arguments count_step : simpl never.
#[local] Arguments _check_win : simpl never.
#[local] Arguments _reveal_all_mines : simpl never.

(** ** Loops *)

(** A loop invariant rule for [for_each]: the invariant says which prefix
    of the list has been consumed. *)
Lemma for_each_inv {A S : Type} (body : A → S → result S)
    (I : list A → S → Prop) (l : list A) (s : S) :
  I [] s →
  (∀ done x s, I done s → x ∈ l →
     ∃ s', body x s = Ok s' ∧ I (done ++ [x]) s') →
  ∃ s', for_each body l s = Ok s' ∧ I l s'.
Proof.
  intros H0 Hstep.
  assert (∀ todo done s, I done s → done ++ todo = l →
    ∃ s', for_each body todo s = Ok s' ∧ I l s') as Hgen.
  { induction todo as [|x todo IH]; intros done s1 HI Heq; simpl.
    - rewrite app_nil_r in Heq. subst. eauto.
    - destruct (Hstep done x s1 HI) as (s2 & -> & HI2).
      { rewrite <- Heq. set_solver. }
      simpl. apply (IH (done ++ [x])); [done|].
      by rewrite <- app_assoc. }
  by apply (Hgen l []).
Qed.

(** ** Indexing *)

Lemma norm_index_inrange {A : Type} (l : list A) (i : Z) :
  0 ≤ i < Z.of_nat (length l) → Py.norm_index l i = Ok (Z.to_nat i).
Proof. intros H. unfold Py.norm_index. by rewrite bool_decide_eq_true_2. Qed.

Lemma getitem_inrange {A : Type} (l : list A) (i : Z) :
  0 ≤ i < Z.of_nat (length l) →
  ∃ x, l !! Z.to_nat i = Some x ∧ Py.getitem l i = Ok x.
Proof.
  intros H. unfold Py.getitem. rewrite norm_index_inrange by done. simpl.
  destruct (lookup_lt_is_Some_2 l (Z.to_nat i)) as [x Hx]; [lia|].
  exists x. by rewrite Hx.
Qed.

(** ** Row-major grids *)

Lemma bind_const_length {A B : Type} (g : A → list B) (n : nat) (rs : list A) :
  (∀ r, length (g r) = n) → length (rs ≫= g) = (length rs * n)%nat.
Proof.
  intros Hg. induction rs as [|r rs IH]; [done|].
  rewrite bind_cons, length_app, IH, Hg. simpl. lia.
Qed.

Lemma bind_const_lookup {A B : Type} (g : A → list B) (n : nat) (rs : list A) i x :
  (∀ r, length (g r) = n) →
  (rs ≫= g) !! i = Some x →
  ∃ k j r, rs !! k = Some r ∧ g r !! j = Some x ∧ i = (k * n + j)%nat.
Proof.
  intros Hg. revert i. induction rs as [|r rs IH]; intros i; [done|].
  rewrite bind_cons. intros Hi. apply lookup_app_Some in Hi as [Hi | [Hge Hi]].
  - exists 0%nat, i, r. split_and!; [done | done | lia].
  - apply IH in Hi as (k & j & r' & Hk & Hj & Heq).
    exists (S k), j, r'. split_and!; [done | done |].
    rewrite Hg in Hge, Heq. lia.
Qed.

Lemma grid_length {A : Type} (f : Z → Z → A) rows cols :
  length (grid f rows cols) = (Z.to_nat rows * Z.to_nat cols)%nat.
Proof.
  unfold grid. rewrite (bind_const_length _ (Z.to_nat cols)).
  - unfold Py.range. by rewrite length_seqZ.
  - intros r. unfold Py.range. by rewrite length_fmap, length_seqZ.
Qed.

Lemma grid_lookup {A : Type} (f : Z → Z → A) rows cols i x :
  grid f rows cols !! i = Some x →
  ∃ c r, (0 ≤ c < cols ∧ 0 ≤ r < rows) ∧ x = f c r ∧ Z.of_nat i = r * cols + c.
Proof.
  unfold grid. intros Hi.
  apply (bind_const_lookup _ (Z.to_nat cols)) in Hi as (k & j & r & Hk & Hj & ->).
  - unfold Py.range in *. apply lookup_seqZ in Hk as [-> Hk].
    rewrite list_lookup_fmap in Hj.
    destruct (seqZ 0 cols !! j) as [c|] eqn:Hc; simplify_eq/=.
    apply lookup_seqZ in Hc as [-> Hc].
    exists (0 + Z.of_nat j), (0 + Z.of_nat k). split_and!; try lia. done.
  - intros r. unfold Py.range. by rewrite length_fmap, length_seqZ.
Qed.

Lemma grid_fmap {A B : Type} (h : A → B) (f : Z → Z → A) rows cols :
  h <$> grid f rows cols = grid (λ c r, h (f c r)) rows cols.
Proof.
  unfold grid. generalize (Py.range rows) as rs.
  induction rs as [|r rs IH]; [done|].
  rewrite !bind_cons, fmap_app, IH. f_equal. by rewrite <- list_fmap_compose.
Qed.

(** ** Well-formed boards *)

Lemma is_inbounds_true b c r :
  is_inbounds b c r = true ↔ 0 ≤ c < cols b ∧ 0 ≤ r < rows b.
Proof. unfold is_inbounds. by rewrite bool_decide_eq_true. Qed.

Lemma all_positions_grid b : all_positions b = grid pair (rows b) (cols b).
Proof. done. Qed.

Lemma wf_length b :
  wf b → length (cells b) = (Z.to_nat (rows b) * Z.to_nat (cols b))%nat.
Proof.
  intros Hwf. rewrite <- (length_fmap coords), Hwf, all_positions_grid.
  apply grid_length.
Qed.

Lemma wf_coords b i cell :
  wf b → cells b !! i = Some cell →
  is_inbounds b (col cell) (row cell) = true
  ∧ index b (col cell) (row cell) = Z.of_nat i.
Proof.
  intros Hwf Hi.
  assert (all_positions b !! i = Some (coords cell)) as Hp.
  { by rewrite <- Hwf, list_lookup_fmap, Hi. }
  rewrite all_positions_grid in Hp.
  apply grid_lookup in Hp as (c & r & Hin & Heq & Hidx).
  unfold coords in Heq. simplify_eq.
  split; [by apply is_inbounds_true | by unfold index].
Qed.

Lemma index_range b c r :
  wf b → is_inbounds b c r = true →
  0 ≤ index b c r < Z.of_nat (length (cells b)).
Proof.
  intros Hlen%wf_length Hin%is_inbounds_true. rewrite Hlen. unfold index. nia.
Qed.

Lemma index_inj b c1 r1 c2 r2 :
  is_inbounds b c1 r1 = true → is_inbounds b c2 r2 = true →
  index b c1 r1 = index b c2 r2 → c1 = c2 ∧ r1 = r2.
Proof.
  intros H1%is_inbounds_true H2%is_inbounds_true. unfold index. intros Heq.
  assert (r1 = r2) by nia. subst. lia.
Qed.

Lemma wf_new cols rows mines : wf (new cols rows mines).
Proof.
  unfold wf. simpl.
  apply (grid_fmap coords (λ c r, mkCell c r (mkCellState false false false 0))).
Qed.

(** In-bounds positions address exactly one cell, the one carrying their
    coordinates; indexing and attribute assignment succeed there. *)
Lemma cell_at_inbounds b c r :
  wf b → is_inbounds b c r = true →
  ∃ cell, cell_at b c r = Some cell ∧ coords cell = (c, r).
Proof.
  intros Hwf Hin. pose proof (index_range b c r Hwf Hin) as Hr.
  destruct (lookup_lt_is_Some_2 (cells b) (Z.to_nat (index b c r))) as [cell Hc];
    [lia|].
  exists cell. split; [done|].
  destruct (wf_coords b _ cell Hwf Hc) as [Hin' Hidx].
  destruct (index_inj b _ _ c r Hin' Hin); [lia|]. unfold coords. congruence.
Qed.

Lemma cell_at_coords b c r cell :
  wf b → is_inbounds b c r = true → cell_at b c r = Some cell →
  coords cell = (c, r).
Proof.
  intros Hwf Hin Hc. destruct (cell_at_inbounds b c r Hwf Hin) as (? & ? & ?).
  congruence.
Qed.

Lemma lookup_cell_at b i cell :
  wf b → cells b !! i = Some cell →
  is_inbounds b (col cell) (row cell) = true
  ∧ cell_at b (col cell) (row cell) = Some cell
  ∧ i = Z.to_nat (index b (col cell) (row cell)).
Proof.
  intros Hwf Hi. destruct (wf_coords b i cell Hwf Hi) as [Hin Hidx].
  unfold cell_at. rewrite Hidx, Nat2Z.id. done.
Qed.

Lemma getitem_cell b c r :
  wf b → is_inbounds b c r = true →
  ∃ cell, cell_at b c r = Some cell
          ∧ Py.getitem (cells b) (index b c r) = Ok cell.
Proof. intros Hwf Hin. apply getitem_inrange, index_range; done. Qed.

Lemma mutate_cell_inbounds b c r f :
  wf b → is_inbounds b c r = true →
  mutate_cell (index b c r) f b
  = Ok (set_cells (alter f (Z.to_nat (index b c r)) (cells b)) b).
Proof.
  intros Hwf Hin. unfold mutate_cell.
  rewrite norm_index_inrange by (by apply index_range). done.
Qed.

Lemma fmap_alter_keep {B : Type} (h : Cell → B) (f : Cell → Cell) k (l : list Cell) :
  (∀ c, h (f c) = h c) → h <$> alter f k l = h <$> l.
Proof.
  intros Hf. apply list_eq. intros i. rewrite !list_lookup_fmap.
  destruct (decide (k = i)) as [->|Hne].
  - rewrite list_lookup_alter_eq. destruct (l !! i); simpl; by rewrite ?Hf.
  - by rewrite list_lookup_alter_ne.
Qed.

Lemma fmap_fmap_keep {B : Type} (h : Cell → B) (f : Cell → Cell) (l : list Cell) :
  (∀ c, h (f c) = h c) → h <$> (f <$> l) = h <$> l.
Proof.
  intros Hf. rewrite <- list_fmap_compose. apply list_fmap_ext.
  intros ? c ?. apply Hf.
Qed.

Lemma wf_alter b f k :
  keeps_coords f → wf b → wf (set_cells (alter f k (cells b)) b).
Proof. intros Hf Hwf. unfold wf. simpl. by rewrite fmap_alter_keep. Qed.

Lemma wf_fmap b f :
  keeps_coords f → wf b → wf (set_cells (f <$> cells b) b).
Proof. intros Hf Hwf. unfold wf. simpl. by rewrite fmap_fmap_keep. Qed.

Lemma keeps_coords_mine v : keeps_coords (set_is_mine v).
Proof. done. Qed.
Lemma keeps_coords_revealed v : keeps_coords (set_is_revealed v).
Proof. done. Qed.
Lemma keeps_coords_flagged v : keeps_coords (set_is_flagged v).
Proof. done. Qed.
Lemma keeps_coords_adjacent v : keeps_coords (set_adjacent v).
Proof. done. Qed.

(** ** Neighbourhoods *)

Lemma deltas_NoDup : NoDup deltas.
Proof. compute_done. Qed.

Lemma deltas_spec dc dr :
  -1 ≤ dc ≤ 1 → -1 ≤ dr ≤ 1 → ¬ (dc = 0 ∧ dr = 0) → (dc, dr) ∈ deltas.
Proof.
  intros Hdc Hdr Hz.
  assert (dc = -1 ∨ dc = 0 ∨ dc = 1) as Hc by lia.
  assert (dr = -1 ∨ dr = 0 ∨ dr = 1) as Hr by lia.
  unfold deltas.
  destruct Hc as [?|[?|?]], Hr as [?|[?|?]]; subst;
    first [by destruct Hz | compute_done].
Qed.

(** [neighbors] is the in-bounds Moore neighbourhood. *)
Lemma neighbors_spec b c r nc nr :
  (nc, nr) ∈ neighbors b c r ↔
  is_inbounds b nc nr = true ∧ (nc, nr) ≠ (c, r)
  ∧ c - 1 ≤ nc ≤ c + 1 ∧ r - 1 ≤ nr ≤ r + 1.
Proof.
  unfold neighbors. rewrite list_elem_of_bind. split.
  - intros ([dc dr] & Hp & Hd).
    destruct (is_inbounds b (c + dc) (r + dr)) eqn:Hin;
      [|by apply elem_of_nil in Hp].
    apply list_elem_of_singleton in Hp. simplify_eq.
    unfold deltas in Hd.
    repeat (apply elem_of_cons in Hd as [Hd|Hd]; [simplify_eq;
      (split; [done|]); (split; [intros [=]; lia | lia])|]).
    by apply elem_of_nil in Hd.
  - intros (Hin & Hne & Hc & Hr).
    exists (nc - c, nr - r). simpl.
    replace (c + (nc - c)) with nc by lia. replace (r + (nr - r)) with nr by lia.
    rewrite Hin. split; [apply list_elem_of_singleton; done|].
    apply deltas_spec; [lia | lia |].
    intros [? ?]. apply Hne. f_equal; lia.
Qed.

Lemma neighbors_inbounds b c r p :
  p ∈ neighbors b c r → is_inbounds b p.1 p.2 = true.
Proof. destruct p as [nc nr]. by intros (? & _)%neighbors_spec. Qed.

Lemma neighbors_Forall b c r :
  Forall (λ p, is_inbounds b p.1 p.2 = true) (neighbors b c r).
Proof. apply Forall_forall. intros p. apply neighbors_inbounds. Qed.

Lemma bind_short_length {A B : Type} (f : A → list B) (l : list A) :
  (∀ x, (length (f x) ≤ 1)%nat) → (length (l ≫= f) ≤ length l)%nat.
Proof.
  intros Hf. induction l as [|x l IH]; [done|].
  rewrite bind_cons, length_app. specialize (Hf x). simpl. lia.
Qed.

Lemma neighbors_length b c r : (length (neighbors b c r) ≤ 8)%nat.
Proof.
  unfold neighbors. change 8%nat with (length deltas).
  apply bind_short_length. intros [dc dr]. case_match; simpl; lia.
Qed.

Lemma neighbors_NoDup b c r : NoDup (neighbors b c r).
Proof.
  unfold neighbors. apply NoDup_bind; [| |apply deltas_NoDup].
  - intros [dc1 dr1] [dc2 dr2] y _ _ H1 H2.
    simpl in H1, H2.
    destruct (is_inbounds b (c + dc1) (r + dr1)); [|by apply elem_of_nil in H1].
    destruct (is_inbounds b (c + dc2) (r + dr2)); [|by apply elem_of_nil in H2].
    apply list_elem_of_singleton in H1, H2. simplify_eq. f_equal; lia.
  - intros [dc dr] _. case_match; [apply NoDup_singleton | apply NoDup_nil_2].
Qed.

(** ** The shuffle is a permutation *)

Lemma swap_Permutation {A : Type} (i j : nat) (x : list A) :
  Random.swap i j x ≡ₚ x.
Proof.
  unfold Random.swap.
  destruct (x !! i) as [a|] eqn:Hi; [|done].
  destruct (x !! j) as [b|] eqn:Hj; [|done].
  by apply Permutation_insert_swap.
Qed.

Lemma shuffle_from_Permutation {A : Type} (i : nat) (x : list A) g :
  (Random.shuffle_from i x g).1 ≡ₚ x.
Proof.
  revert x g. induction i as [|i IH]; intros x g; [done|].
  cbn [Random.shuffle_from]. destruct (Random.randbelow (S (S i)) g) as [j g'].
  rewrite IH. apply swap_Permutation.
Qed.

Lemma shuffle_Permutation {A : Type} (x : list A) g :
  (Random.shuffle x g).1 ≡ₚ x.
Proof. apply shuffle_from_Permutation. Qed.

(** ** Updating one cell of the grid *)

Lemma set_cells_id b : set_cells (cells b) b = b.
Proof. by destruct b. Qed.

Lemma set_cells_set_cells l l' b : set_cells l (set_cells l' b) = set_cells l b.
Proof. done. Qed.

Lemma set_cells_ext l l' b : l = l' → set_cells l b = set_cells l' b.
Proof. by intros ->. Qed.

(** An in-place update at the index of [(c, r)] agrees with a map over
    the whole list that acts on that cell only. *)
Lemma alter_fmap_at b c r (f g g' : Cell → Cell) :
  wf b → is_inbounds b c r = true →
  (∀ cell, cell_at b c r = Some cell → f (g cell) = g' cell) →
  (∀ i cell, cells b !! i = Some cell → coords cell ≠ (c, r) → g cell = g' cell) →
  alter f (Z.to_nat (index b c r)) (g <$> cells b) = g' <$> cells b.
Proof.
  intros Hwf Hin Hat Hother. apply list_eq. intros i.
  destruct (decide (Z.to_nat (index b c r) = i)) as [<-|Hne].
  - rewrite list_lookup_alter_eq, !list_lookup_fmap.
    destruct (cells b !! Z.to_nat (index b c r)) as [cell|] eqn:Hc; [|done].
    simpl. f_equal. by apply Hat.
  - rewrite list_lookup_alter_ne, !list_lookup_fmap by done.
    destruct (cells b !! i) as [cell|] eqn:Hc; [|done].
    simpl. f_equal. apply (Hother i); [done|].
    intros Heq. apply Hne.
    destruct (lookup_cell_at b i cell Hwf Hc) as (_ & _ & ->).
    unfold coords in Heq. by simplify_eq.
Qed.

Lemma mutate_fmap_at b c r (f g g' : Cell → Cell) :
  wf b → is_inbounds b c r = true → keeps_coords g →
  (∀ cell, cell_at b c r = Some cell → f (g cell) = g' cell) →
  (∀ i cell, cells b !! i = Some cell → coords cell ≠ (c, r) → g cell = g' cell) →
  mutate_cell (index b c r) f (set_cells (g <$> cells b) b)
  = Ok (set_cells (g' <$> cells b) b).
Proof.
  intros Hwf Hin Hg Hat Hother.
  rewrite (mutate_cell_inbounds (set_cells (g <$> cells b) b) c r)
    by (done || by apply wf_fmap).
  rewrite set_cells_set_cells. f_equal. apply set_cells_ext.
  by apply (alter_fmap_at b c r).
Qed.

Lemma alter_as_fmap b c r (f : Cell → Cell) :
  wf b → is_inbounds b c r = true →
  alter f (Z.to_nat (index b c r)) (cells b)
  = (λ cell, if decide (coords cell = (c, r)) then f cell else cell) <$> cells b.
Proof.
  intros Hwf Hin. rewrite <- (list_fmap_id (cells b)) at 1.
  apply alter_fmap_at; [done | done | |].
  - intros cell Hc. rewrite (cell_at_coords b c r cell) by done.
    by rewrite decide_True.
  - intros i cell _ Hne. by rewrite decide_False.
Qed.

(** ** Mine placement *)

Lemma lay_mines_spec (M : gset pos) b :
  wf b → (∀ p, p ∈ M → is_inbounds b p.1 p.2 = true) →
  lay_mines M b = Ok (set_cells (mark_mines M <$> cells b) b).
Proof.
  intros Hwf HM. unfold lay_mines.
  pose (mark (done : list pos) (cell : Cell) :=
    if decide (coords cell ∈ done) then set_is_mine true cell else cell).
  destruct (for_each_inv
      (λ '(c, r) b, mutate_cell (index b c r) (set_is_mine true) b)
      (λ done s, s = set_cells (mark done <$> cells b) b)
      (elements M) b) as (s' & -> & ->).
  - rewrite <- (set_cells_id b) at 1. f_equal.
    rewrite <- (list_fmap_id (cells b)) at 1. apply list_fmap_ext.
    intros i cell _. unfold mark. rewrite decide_False; [done|].
    apply not_elem_of_nil.
  - intros done [c r] s -> Hx. apply elem_of_elements, HM in Hx. simpl in Hx.
    eexists. split; [|done].
    apply (mutate_fmap_at b c r); [done | done | | |].
    + intros cell. unfold mark. by case_decide.
    + intros cell Hc. unfold mark.
      rewrite (cell_at_coords b c r cell) by done.
      rewrite (decide_True (P := (c, r) ∈ done ++ [(c, r)]))
        by (apply elem_of_app; right; by apply list_elem_of_singleton).
      by case_decide.
    + intros i cell _ Hne. unfold mark. apply decide_ext.
      rewrite elem_of_app, list_elem_of_singleton.
      split; [by left | by intros [?|?]].
  - do 2 f_equal. apply list_fmap_ext. intros i cell _.
    unfold mark, mark_mines. apply decide_ext. apply elem_of_elements.
Qed.

Lemma cell_at_fmap b g c r :
  cell_at (set_cells (g <$> cells b) b) c r = g <$> cell_at b c r.
Proof. unfold cell_at. simpl. by rewrite list_lookup_fmap. Qed.

Lemma is_mine_at_fmap b g p :
  (∀ cell, is_mine (state (g cell)) = is_mine (state cell)) →
  is_mine_at (set_cells (g <$> cells b) b) p = is_mine_at b p.
Proof.
  intros Hg. unfold is_mine_at. rewrite cell_at_fmap.
  destruct (cell_at b p.1 p.2); simpl; [apply Hg | done].
Qed.

Lemma count_loop b ns n :
  wf b → Forall (λ p, is_inbounds b p.1 p.2 = true) ns →
  for_each (count_step b) ns n
  = Ok (n + Z.of_nat (length (filter (λ p, is_mine_at b p = true) ns))).
Proof.
  intros Hwf Hns. revert n.
  induction Hns as [|p ns Hp Hns IH]; intros n; simpl.
  - f_equal. lia.
  - unfold count_step.
    destruct (getitem_cell b p.1 p.2 Hwf Hp) as (cell & Hat & ->). simpl.
    assert (is_mine_at b p = is_mine (state cell)) as Hm
      by (unfold is_mine_at; by rewrite Hat).
    rewrite IH, filter_cons.
    destruct (decide (is_mine_at b p = true)) as [Ht|Hf]; rewrite Hm in *;
      destruct (is_mine (state cell)); try done; simpl; f_equal; lia.
Qed.

Lemma mark_adjacent_is_mine b D cell :
  is_mine (state (mark_adjacent b D cell)) = is_mine (state cell).
Proof.
  unfold mark_adjacent. destruct (is_mine (state cell)) eqn:Hm; [done|].
  by case_decide.
Qed.

Lemma mark_adjacent_coords b D : keeps_coords (mark_adjacent b D).
Proof. intros cell. unfold mark_adjacent. by repeat case_match. Qed.

Lemma adjacency_body_spec b D c r :
  wf b → is_inbounds b c r = true →
  adjacency_body c r (set_cells (mark_adjacent b D <$> cells b) b)
  = Ok (set_cells (mark_adjacent b (D ++ [(c, r)]) <$> cells b) b).
Proof.
  intros Hwf Hin.
  set (s := set_cells (mark_adjacent b D <$> cells b) b).
  assert (wf s) as Hwfs by (apply wf_fmap; [apply mark_adjacent_coords | done]).
  unfold adjacency_body.
  destruct (getitem_cell s c r Hwfs Hin) as (cell' & Hat' & ->). simpl.
  unfold s in Hat'. rewrite cell_at_fmap in Hat'.
  destruct (cell_at b c r) as [cell|] eqn:Hat; [|done]. simplify_eq/=.
  rewrite mark_adjacent_is_mine.
  destruct (is_mine (state cell)) eqn:Hmine.
  - f_equal. apply set_cells_ext, list_fmap_ext. intros i x Hx.
    unfold mark_adjacent. destruct (is_mine (state x)) eqn:Hmx; [done|].
    apply decide_ext. rewrite elem_of_app, list_elem_of_singleton.
    split; [by left | intros [?|Heq]; [done|]].
    destruct (lookup_cell_at b i x Hwf Hx) as (_ & Hatx & _).
    unfold coords in Heq. simplify_eq. congruence.
  - rewrite count_loop by (done || apply neighbors_Forall). simpl.
    apply (mutate_fmap_at b c r); [done | done | | |].
    + apply mark_adjacent_coords.
    + intros x Hx. assert (x = cell) as -> by congruence.
      pose proof (cell_at_coords b c r cell Hwf Hin Hat) as Hco.
      unfold mark_adjacent. rewrite Hmine, Hco.
      rewrite (decide_True (P := (c, r) ∈ D ++ [(c, r)]))
        by (apply elem_of_app; right; by apply list_elem_of_singleton).
      injection Hco as -> ->.
      assert (mine_neighbors b c r
              = 0 + Z.of_nat (length (filter (λ p, is_mine_at s p = true)
                                        (neighbors s c r))))
        as <-.
      { unfold mine_neighbors. rewrite Z.add_0_l. do 2 f_equal.
        apply list_filter_iff. intros p. unfold s.
        by rewrite is_mine_at_fmap by apply mark_adjacent_is_mine. }
      by case_decide.
    + intros i x _ Hne. unfold mark_adjacent.
      destruct (is_mine (state x)); [done|]. apply decide_ext.
      rewrite elem_of_app, list_elem_of_singleton.
      split; [by left | by intros [?|?]].
Qed.

Lemma range_inbounds b c r :
  c ∈ Py.range (cols b) → r ∈ Py.range (rows b) → is_inbounds b c r = true.
Proof.
  unfold Py.range. rewrite !elem_of_seqZ. intros Hc Hr.
  apply is_inbounds_true. lia.
Qed.

Lemma compute_adjacency_spec b :
  wf b → compute_adjacency b = Ok (set_cells (set_adjacency b <$> cells b) b).
Proof.
  intros Hwf. unfold compute_adjacency.
  pose (row_positions (r : Z) := (λ c, (c, r)) <$> Py.range (cols b)).
  destruct (for_each_inv
      (λ r b, for_each (λ c b, adjacency_body c r b) (Py.range (cols b)) b)
      (λ done s,
         s = set_cells (mark_adjacent b (done ≫= row_positions) <$> cells b) b)
      (Py.range (rows b)) b) as (s' & -> & ->).
  - rewrite <- (set_cells_id b) at 1. apply set_cells_ext.
    rewrite <- (list_fmap_id (cells b)) at 1. apply list_fmap_ext.
    intros i cell _. unfold mark_adjacent.
    destruct (is_mine (state cell)); [done|].
    case_decide as Hd; [by apply elem_of_nil in Hd | done].
  - intros done r s -> Hr.
    change (cols (set_cells _ b)) with (cols b).
    destruct (for_each_inv (λ c b, adjacency_body c r b)
      (λ done_c s,
         s = set_cells (mark_adjacent b
               ((done ≫= row_positions) ++ ((λ c, (c, r)) <$> done_c))
             <$> cells b) b)
      (Py.range (cols b))
      (set_cells (mark_adjacent b (done ≫= row_positions) <$> cells b) b))
      as (s' & -> & ->).
    + by rewrite app_nil_r.
    + intros done_c c s -> Hc.
      rewrite adjacency_body_spec by (done || by apply range_inbounds).
      eexists. split; [done|]. by rewrite fmap_app, app_assoc.
    + eexists. split; [done|]. by rewrite bind_app, bind_singleton.
  - f_equal. apply set_cells_ext, list_fmap_ext. intros i cell Hi.
    unfold mark_adjacent, set_adjacency.
    destruct (is_mine (state cell)); [done|].
    rewrite decide_True; [done|].
    change (Py.range (rows b) ≫= row_positions) with (all_positions b).
    rewrite <- Hwf. apply list_elem_of_fmap. exists cell.
    split; [done | by eapply list_elem_of_lookup_2].
Qed.

Lemma mark_mines_coords M : keeps_coords (mark_mines M).
Proof. intros cell. unfold mark_mines. by case_decide. Qed.

Lemma set_adjacency_coords b : keeps_coords (set_adjacency b).
Proof. intros cell. unfold set_adjacency. by case_match. Qed.

Lemma slice_to_subseteq {A : Type} (l : list A) n : Py.slice_to l n ⊆ l.
Proof. unfold Py.slice_to. apply subseteq_take. Qed.

Lemma candidate_pool_spec b sc sr p :
  p ∈ candidate_pool b sc sr ↔
  p ∈ all_positions b ∧ p ∉ forbidden_zone b sc sr.
Proof. unfold candidate_pool. rewrite list_elem_of_filter. tauto. Qed.

Lemma all_positions_spec b c r :
  (c, r) ∈ all_positions b ↔ is_inbounds b c r = true.
Proof.
  rewrite is_inbounds_true. unfold all_positions, Py.range.
  rewrite list_elem_of_bind. split.
  - intros (r' & Hc & Hr). apply list_elem_of_fmap in Hc as (c' & [= -> ->] & Hc).
    apply elem_of_seqZ in Hc, Hr. lia.
  - intros [Hc Hr]. exists r. split.
    + apply list_elem_of_fmap. exists c. split; [done|]. apply elem_of_seqZ. lia.
    + apply elem_of_seqZ. lia.
Qed.

Lemma mine_positions_spec g sc sr b p :
  p ∈ mine_positions g sc sr b →
  is_inbounds b p.1 p.2 = true ∧ p ∉ forbidden_zone b sc sr.
Proof.
  unfold mine_positions. rewrite elem_of_list_to_set.
  intros Hp%slice_to_subseteq. rewrite shuffle_Permutation in Hp.
  apply candidate_pool_spec in Hp as [Hp ?]. destruct p as [c r].
  by apply all_positions_spec in Hp.
Qed.

Lemma place_mines_spec g sc sr b :
  wf b →
  place_mines g sc sr b
  = Ok (set_mines_placed true
          (with_adjacency (with_mines (mine_positions g sc sr b) b))).
Proof.
  intros Hwf. unfold place_mines.
  fold (mine_positions g sc sr b).
  rewrite lay_mines_spec; [|done|by intros p []%mine_positions_spec].
  simpl. fold (with_mines (mine_positions g sc sr b) b).
  rewrite compute_adjacency_spec; [done|].
  apply wf_fmap; [apply mark_mines_coords | done].
Qed.

(** *** Counting the mines *)

Lemma all_positions_NoDup b : NoDup (all_positions b).
Proof.
  unfold all_positions, Py.range. apply NoDup_bind.
  - intros r1 r2 [c r] _ _ H1 H2.
    apply list_elem_of_fmap in H1 as (c1 & [= -> ->] & _).
    by apply list_elem_of_fmap in H2 as (c2 & [= -> ->] & _).
  - intros r _. apply NoDup_fmap_2; [|apply NoDup_seqZ].
    by intros c1 c2 [= ->].
  - apply NoDup_seqZ.
Qed.

Lemma filter_fmap_length {A B : Type} (f : A → B) (P : B → Prop)
    `{!∀ y, Decision (P y)} (l : list A) :
  length (filter P (f <$> l)) = length (filter (λ x, P (f x)) l).
Proof.
  induction l as [|x l IH]; [done|].
  rewrite fmap_cons, !filter_cons. case_decide; simpl; by rewrite IH.
Qed.

Lemma list_filter_iff_in {A : Type} (P Q : A → Prop)
    `{!∀ x, Decision (P x), !∀ x, Decision (Q x)} (l : list A) :
  (∀ x, x ∈ l → P x ↔ Q x) → filter P l = filter Q l.
Proof.
  induction l as [|x l IH]; intros HPQ; [done|].
  rewrite !filter_cons, IH.
  - apply decide_ext, HPQ, list_elem_of_here.
  - intros y Hy. apply HPQ. by apply list_elem_of_further.
Qed.

Lemma filter_set_length (M : gset pos) (l : list pos) :
  NoDup l → (∀ p, p ∈ M → p ∈ l) →
  length (filter (λ p, p ∈ M) l) = size M.
Proof.
  intros Hl HM. unfold size, set_size. simpl. apply Permutation_length.
  apply NoDup_Permutation; [by apply NoDup_filter | apply NoDup_elements |].
  intros p. rewrite list_elem_of_filter, elem_of_elements.
  split; [by intros [? _] | by auto].
Qed.

Lemma slice_to_length {A : Type} (l : list A) (n : Z) :
  0 ≤ n → Z.of_nat (length (Py.slice_to l n)) = Z.min n (Z.of_nat (length l)).
Proof.
  intros Hn. unfold Py.slice_to.
  rewrite bool_decide_eq_false_2 by lia. rewrite length_take. lia.
Qed.

Lemma mine_positions_size g sc sr b :
  0 ≤ num_mines b →
  Z.of_nat (size (mine_positions g sc sr b))
  = Z.min (num_mines b) (Z.of_nat (length (candidate_pool b sc sr))).
Proof.
  intros Hn. unfold mine_positions.
  assert (NoDup (Random.shuffle (candidate_pool b sc sr) g).1) as Hnd.
  { rewrite shuffle_Permutation. apply NoDup_filter, all_positions_NoDup. }
  rewrite size_list_to_set.
  - rewrite slice_to_length by done.
    by rewrite (Permutation_length (shuffle_Permutation _ g)).
  - unfold Py.slice_to. eapply sublist_NoDup; [done | apply sublist_take].
Qed.

Lemma with_mines_count M b :
  wf b → no_mines b → (∀ p, p ∈ M → is_inbounds b p.1 p.2 = true) →
  count_mines (with_adjacency (with_mines M b)) = Z.of_nat (size M).
Proof.
  intros Hwf Hno HM. unfold count_mines, with_adjacency, with_mines. simpl.
  f_equal. rewrite <- list_fmap_compose, filter_fmap_length.
  rewrite <- (filter_set_length M (all_positions b)).
  - rewrite <- Hwf, filter_fmap_length.
    f_equal. apply list_filter_iff_in.
    intros cell Hcell. simpl. unfold set_adjacency, mark_mines.
    specialize (Hno cell Hcell).
    case_decide; simpl; [done|]. rewrite Hno. simpl. rewrite Hno.
    split; [done | done].
  - apply all_positions_NoDup.
  - intros [c r] Hp. apply all_positions_spec. by apply (HM (c, r)).
Qed.

(** ** The flood fill *)

Lemma wf_reveal_at b c r : wf b → wf (reveal_at b c r).
Proof. intros Hwf. apply (wf_alter b); [apply keeps_coords_revealed | done]. Qed.

Lemma push_neighbors_spec b ns stack :
  wf b → Forall (λ p, is_inbounds b p.1 p.2 = true) ns →
  push_neighbors b ns stack
  = Ok (reverse (filter (λ p, is_open b p = true) ns) ++ stack).
Proof.
  intros Hwf Hns. revert stack.
  induction Hns as [|[nc nr] ns Hp Hns IH]; intros stack; [done|].
  cbn [push_neighbors].
  destruct (getitem_cell b nc nr Hwf Hp) as (ncell & Hat & ->).
  cbn [mbind result_bind].
  assert (is_open b (nc, nr)
          = negb (is_revealed (state ncell)) && negb (is_flagged (state ncell)))
    as Hopen by (unfold is_open; simpl; by rewrite Hat).
  rewrite filter_cons, IH.
  destruct (decide (is_open b (nc, nr) = true)) as [Ht|Hf]; rewrite Hopen in *.
  - rewrite Ht, reverse_cons, <- app_assoc. done.
  - by apply not_true_is_false in Hf as ->.
Qed.

Lemma flood_step_spec b c r stack :
  wf b → is_inbounds b c r = true →
  ∃ curr, cell_at b c r = Some curr ∧
    flood_step c r stack b
    = Ok (if is_revealed (state curr) || is_flagged (state curr)
          then (stack, b)
          else ((if bool_decide (adjacent (state curr) = 0)
                 then reverse (filter (λ p, is_open (reveal_at b c r) p = true)
                                 (neighbors b c r))
                 else []) ++ stack,
                reveal_at b c r)).
Proof.
  intros Hwf Hin. unfold flood_step.
  destruct (getitem_cell b c r Hwf Hin) as (curr & Hat & ->).
  exists curr. split; [done|]. cbn [mbind result_bind].
  destruct (is_revealed (state curr) || is_flagged (state curr)); [done|].
  rewrite mutate_cell_inbounds by done. cbn [mbind result_bind].
  change (set_revealed_count _ (set_cells _ b)) with (reveal_at b c r).
  destruct (bool_decide (adjacent (state curr) = 0)); [|done].
  change (neighbors (reveal_at b c r) c r) with (neighbors b c r).
  rewrite push_neighbors_spec; [done | by apply wf_reveal_at |].
  apply (neighbors_Forall b).
Qed.

Lemma filter_alter_length {A : Type} (P : A → Prop) `{!∀ x, Decision (P x)}
    (f : A → A) (k : nat) (l : list A) (x : A) :
  l !! k = Some x →
  (length (filter P (alter f k l)) + (if decide (P x) then 1 else 0)
   = length (filter P l) + (if decide (P (f x)) then 1 else 0))%nat.
Proof.
  revert k. induction l as [|y l IH]; intros [|k] Hk; simplify_eq/=.
  - rewrite !filter_cons. repeat case_decide; simpl; lia.
  - rewrite !filter_cons. specialize (IH k Hk).
    destruct (decide (P y)); simpl; lia.
Qed.

Lemma hidden_reveal_at b c r curr :
  cell_at b c r = Some curr → is_revealed (state curr) = false →
  (hidden (reveal_at b c r) + 1 = hidden b)%nat.
Proof.
  intros Hat Hrev. unfold hidden, reveal_at. simpl.
  pose proof (filter_alter_length (λ cell, is_revealed (state cell) = false)
                (set_is_revealed true) _ _ _ Hat) as Hlen.
  rewrite decide_True in Hlen by done.
  rewrite decide_False in Hlen by done. lia.
Qed.

(** Invariant rule for the [while stack:] loop.  The loop is given more
    iterations than [9 * hidden + len(stack)], which every iteration
    decreases; it then finishes normally and the invariant holds of the
    final board. *)
Lemma flood_rule (J : list pos → Board → Prop) :
  (∀ c r stack b,
     wf b → Forall (λ p, is_inbounds b p.1 p.2 = true) ((c, r) :: stack) →
     J ((c, r) :: stack) b →
     ∀ stack' b', flood_step c r stack b = Ok (stack', b') → J stack' b') →
  ∀ fuel stack b,
    wf b → Forall (λ p, is_inbounds b p.1 p.2 = true) stack →
    J stack b → (9 * hidden b + length stack < fuel)%nat →
    ∃ b', flood fuel stack b = Ok b' ∧ wf b' ∧ J [] b'.
Proof.
  intros Hstep. induction fuel as [|fuel IH]; intros stack b Hwf Hst HJ Hm.
  { lia. }
  destruct stack as [|[c r] stack]; [by exists b|].
  cbn [flood].
  pose proof (Forall_inv Hst) as Hin. simpl in Hin.
  pose proof (Forall_inv_tail Hst) as Hst'.
  destruct (flood_step_spec b c r stack Hwf Hin) as (curr & Hat & Hfs).
  destruct (is_revealed (state curr) || is_flagged (state curr)) eqn:Hskip;
    rewrite Hfs; cbn [mbind result_bind].
  - apply IH; [done | done | by apply (Hstep c r stack b) |].
    cbn [length] in Hm. lia.
  - apply orb_false_iff in Hskip as [Hrev Hflag].
    apply IH; [by apply wf_reveal_at | | by apply (Hstep c r stack b) |].
    + apply Forall_app. split; [|done].
      destruct (bool_decide (adjacent (state curr) = 0)); [|done].
      apply Forall_forall. intros p Hp.
      apply elem_of_reverse, list_elem_of_filter in Hp as [_ Hp].
      by apply neighbors_inbounds in Hp.
    + pose proof (hidden_reveal_at b c r curr Hat Hrev).
      rewrite length_app. cbn [length] in Hm.
      assert (length (if bool_decide (adjacent (state curr) = 0%Z)
                then reverse (filter (λ p, is_open (reveal_at b c r) p = true)
                                (neighbors b c r))
                else []) ≤ 8)%nat; [|lia].
      destruct (bool_decide (adjacent (state curr) = 0)); [|simpl; lia].
      rewrite length_reverse.
      etrans; [apply length_filter | apply neighbors_length].
Qed.

(** *** What the flood fill reveals *)

Lemma Reach_inbounds b s p : Reach b s p → is_inbounds b p.1 p.2 = true.
Proof. destruct 1; [done | by eapply neighbors_inbounds]. Qed.

Lemma Reach_open b s p : Reach b s p → is_open b p = true.
Proof. by destruct 1. Qed.

Section tracking.
Context (b0 : Board) (s : pos) (l : list Cell) (n : Z).
Context (Hwf0 : wf b0) (Htr : tracks b0 s l).

Let b := flood_state b0 l n.

Lemma tracks_cell p :
  is_inbounds b0 p.1 p.2 = true →
  ∃ cell0 cell,
    cell_at b0 p.1 p.2 = Some cell0 ∧ cell_at b p.1 p.2 = Some cell
    ∧ (cell = cell0
       ∨ (cell = set_is_revealed true cell0
          ∧ is_revealed (state cell0) = false
          ∧ is_flagged (state cell0) = false
          ∧ Reach b0 s p)).
Proof.
  destruct p as [c r]. simpl. intros Hin.
  destruct (cell_at_inbounds b0 c r Hwf0 Hin) as (cell0 & Hat0 & _).
  destruct (Htr c r cell0 Hin Hat0) as [Hl | (Hl & ? & ? & ?)].
  - exists cell0, cell0. split_and!; [done | exact Hl | by left].
  - exists cell0, (set_is_revealed true cell0).
    split_and!; [done | exact Hl | by right].
Qed.

Lemma tracks_closed p :
  is_inbounds b0 p.1 p.2 = true →
  is_open b0 p = true → is_open b p = false → is_revealed_at b p = true.
Proof.
  intros Hin. destruct (tracks_cell p Hin) as (cell0 & cell & H0 & H1 & Hrel).
  unfold is_open, is_revealed_at. rewrite H0, H1.
  destruct Hrel as [->|(-> & _)]; [|done].
  intros ->. done.
Qed.


End tracking.

Lemma reveal_at_flood_state b0 l n c r :
  reveal_at (flood_state b0 l n) c r
  = flood_state b0 (alter (set_is_revealed true) (Z.to_nat (index b0 c r)) l)
      (n + 1).
Proof. done. Qed.

Lemma cell_at_reveal_at b c r c' r' :
  is_inbounds b c r = true → is_inbounds b c' r' = true →
  cell_at (reveal_at b c r) c' r'
  = if decide ((c', r') = (c, r))
    then set_is_revealed true <$> cell_at b c r
    else cell_at b c' r'.
Proof.
  intros Hin Hin'. unfold cell_at, reveal_at. simpl.
  change (index (set_revealed_count _ _) c' r') with (index b c' r').
  case_decide as Heq.
  - injection Heq as -> ->. apply list_lookup_alter_eq.
  - apply list_lookup_alter_ne. intros Hk. apply Heq.
    pose proof (is_inbounds_true b c r) as [Hr _].
    pose proof (is_inbounds_true b c' r') as [Hr' _].
    specialize (Hr Hin). specialize (Hr' Hin').
    assert (0 ≤ index b c r ∧ 0 ≤ index b c' r') as [? ?]
      by (unfold index; nia).
    destruct (index_inj b c r c' r' Hin Hin'); [lia|]. by subst.
Qed.

Lemma is_revealed_at_reveal_at b c r p :
  wf b → is_inbounds b c r = true → is_inbounds b p.1 p.2 = true →
  is_revealed_at (reveal_at b c r) p
  = if decide (p = (c, r)) then true else is_revealed_at b p.
Proof.
  intros Hwf Hin Hp. destruct p as [c' r']. unfold is_revealed_at. simpl.
  rewrite cell_at_reveal_at by done.
  case_decide; [|done].
  by destruct (cell_at_inbounds b c r Hwf Hin) as (cell & -> & _).
Qed.

Lemma flood_inv_step b0 s c r stack b stack' b' :
  wf b0 → wf b →
  Forall (λ p, is_inbounds b p.1 p.2 = true) ((c, r) :: stack) →
  flood_inv b0 s ((c, r) :: stack) b →
  flood_step c r stack b = Ok (stack', b') →
  flood_inv b0 s stack' b'.
Proof.
  intros Hwf0 Hwf Hst (l & n & -> & Hcnt & Htr & Hs & Ht & Hf) Hfs.
  pose proof (Forall_inv Hst) as Hin. simpl in Hin.
  change (is_inbounds b0 c r = true) in Hin.
  destruct (flood_step_spec _ c r stack Hwf Hin) as (curr & Hat & Heq).
  rewrite Heq in Hfs. clear Heq.
  destruct (tracks_cell b0 s l n Hwf0 Htr (c, r) Hin)
    as (cell0 & cell & H0 & H1 & Hrel).
  simpl in H0, H1. rewrite Hat in H1. injection H1 as <-.
  destruct (is_revealed (state curr) || is_flagged (state curr)) eqn:Hskip;
    injection Hfs as <- <-.
  - (* the popped cell is skipped *)
    assert (is_open b0 (c, r) = true →
            is_revealed_at (flood_state b0 l n) (c, r) = true) as Hpop.
    { unfold is_open, is_revealed_at. simpl. rewrite H0, Hat. intros Hop.
      destruct Hrel as [->|(-> & _)]; [|done].
      apply andb_true_iff in Hop as [Hr Hfl].
      apply negb_true_iff in Hr, Hfl. by rewrite Hr, Hfl in Hskip. }
    exists l, n. split_and!; [done | done | done | | |].
    + intros p Hp. apply Hs. by right.
    + intros Hins Hop. destruct (Ht Hins Hop) as [?|Hmem]; [by left|].
      apply elem_of_cons in Hmem as [->|?]; [left; by apply Hpop | by right].
    + intros p q Hp Hop Hz Hrev Hq Hoq.
      destruct (Hf p q Hp Hop Hz Hrev Hq Hoq) as [?|Hmem]; [by left|].
      apply elem_of_cons in Hmem as [->|?]; [left; by apply Hpop | by right].
  - (* the popped cell is revealed *)
    apply orb_false_iff in Hskip as [Hrev Hflag].
    assert (curr = cell0) as ->.
    { destruct Hrel as [->|(-> & _)]; [done|]. by simpl in Hrev. }
    clear Hrel.
    assert (is_open b0 (c, r) = true) as Hopen0.
    { unfold is_open. simpl. by rewrite H0, Hrev, Hflag. }
    assert (Reach b0 s (c, r)) as Hreach.
    { apply Hs; [by left | done]. }
    set (l' := alter (set_is_revealed true) (Z.to_nat (index b0 c r)) l).
    assert (tracks b0 s l') as Htr'.
    { intros c' r' cell' Hin' Hat'. unfold l'.
      destruct (decide (Z.to_nat (index b0 c r) = Z.to_nat (index b0 c' r')))
        as [Hk|Hk].
      - rewrite <- Hk, list_lookup_alter_eq.
        change (l !! Z.to_nat (index b0 c r))
          with (cell_at (flood_state b0 l n) c r).
        rewrite Hat. simpl.
        assert ((c, r) = (c', r')) as [= <- <-].
        { pose proof (index_range b0 c r Hwf0 Hin).
          pose proof (index_range b0 c' r' Hwf0 Hin').
          destruct (index_inj b0 c r c' r' Hin Hin'); [lia|]. by subst. }
        right. assert (cell' = cell0) as -> by congruence. done.
      - rewrite list_lookup_alter_ne by done. by apply Htr. }
    rewrite reveal_at_flood_state. fold l'.
    exists l', (n + 1). split_and!; [done | | done | | |].
    + change (flood_state b0 l' (n + 1))
        with (reveal_at (flood_state b0 l n) c r).
      pose proof (hidden_reveal_at _ c r cell0 Hat Hrev). lia.
    + intros p Hp Hop. apply elem_of_app in Hp as [Hp|Hp].
      * destruct (bool_decide (adjacent (state cell0) = 0)) eqn:Hadj;
          [|by apply elem_of_nil in Hp].
        apply elem_of_reverse, list_elem_of_filter in Hp as [_ Hp].
        apply (Reach_next b0 s (c, r) p); [done | | done | done].
        unfold zero_at. simpl. by rewrite H0.
      * apply Hs; [by right | done].
    + intros Hins Hop.
      change (flood_state b0 l' (n + 1))
        with (reveal_at (flood_state b0 l n) c r).
      rewrite is_revealed_at_reveal_at by done.
      case_decide; [by left|].
      destruct (Ht Hins Hop) as [?|Hmem]; [by left|].
      apply elem_of_cons in Hmem as [?|?]; [done|].
      right. apply elem_of_app. by right.
    + intros p q Hp Hop Hz Hrevp Hq Hoq.
      pose proof (neighbors_inbounds _ _ _ _ Hq) as Hinq.
      change (flood_state b0 l' (n + 1))
        with (reveal_at (flood_state b0 l n) c r) in Hrevp |- *.
      rewrite is_revealed_at_reveal_at in Hrevp |- * by done.
      destruct (decide (q = (c, r))) as [Hqe|Hqn]; [by left|].
      destruct (decide (p = (c, r))) as [->|Hpn].
      * simpl in Hq. unfold zero_at in Hz. simpl in Hz. rewrite H0 in Hz.
        rewrite Hz.
        destruct (is_open (reveal_at (flood_state b0 l n) c r) q) eqn:Hoq'.
        -- right. apply elem_of_app. left.
           apply elem_of_reverse, list_elem_of_filter. done.
        -- left.
           pose proof (tracks_closed b0 s l' (n + 1) Hwf0 Htr' q Hinq Hoq Hoq')
             as Hcl.
           change (flood_state b0 l' (n + 1))
             with (reveal_at (flood_state b0 l n) c r) in Hcl.
           rewrite is_revealed_at_reveal_at in Hcl by done.
           by rewrite decide_False in Hcl.
      * destruct (Hf p q Hp Hop Hz Hrevp Hq Hoq) as [?|Hmem]; [by left|].
        apply elem_of_cons in Hmem as [?|?]; [done|].
        right. apply elem_of_app. by right.
Qed.

Lemma flood_state_id b : flood_state b (cells b) (revealed_count b) = b.
Proof. by destruct b. Qed.

Lemma hidden_le b : (hidden b ≤ length (cells b))%nat.
Proof. apply length_filter. Qed.

(** The flood fill from an in-bounds start finishes, changes nothing but
    [is_revealed] flags and the counter, counts every cell it reveals, and
    reveals exactly the cells of [Reach]. *)
Lemma flood_spec b0 c r :
  wf b0 → is_inbounds b0 c r = true →
  ∃ l n,
    flood (flood_fuel b0) [(c, r)] b0 = Ok (flood_state b0 l n)
    ∧ wf (flood_state b0 l n)
    ∧ n + Z.of_nat (hidden (flood_state b0 l n))
      = revealed_count b0 + Z.of_nat (hidden b0)
    ∧ tracks b0 (c, r) l
    ∧ ∀ p, Reach b0 (c, r) p → is_revealed_at (flood_state b0 l n) p = true.
Proof.
  intros Hwf Hin.
  destruct (flood_rule (flood_inv b0 (c, r))) with
    (fuel := flood_fuel b0) (stack := [(c, r)]) (b := b0)
    as (b' & Hfl & Hwf' & (l & n & -> & Hcnt & Htr & _ & Ht & Hf)).
  - intros c1 r1 stack b Hwfb Hst HJ stack' b' Hfs.
    by eapply flood_inv_step.
  - done.
  - by apply Forall_singleton.
  - exists (cells b0), (revealed_count b0). rewrite flood_state_id.
    split_and!; [done | done | | | |].
    + intros c1 r1 cell0 _ Hat. by left.
    + intros p ->%list_elem_of_singleton Hop. by apply Reach_start.
    + intros _ _. right. by apply list_elem_of_singleton.
    + intros p q _ Hop _ Hrev _ _. exfalso.
      unfold is_open, is_revealed_at in *.
      destruct (cell_at b0 p.1 p.2); [|done]. by rewrite Hrev in Hop.
  - pose proof (hidden_le b0). unfold flood_fuel. simpl. lia.
  - exists l, n. split_and!; [done | done | done | done |].
    intros p Hp. induction Hp as [Hs Hop|p q Hp IH Hz Hq Hoq].
    + destruct (Ht Hs Hop) as [?|Hmem]; [done | by apply elem_of_nil in Hmem].
    + destruct (Hf p q (Reach_inbounds _ _ _ Hp) (Reach_open _ _ _ Hp)
                  Hz IH Hq Hoq) as [?|Hmem];
        [done | by apply elem_of_nil in Hmem].
Qed.

(** ** The invariant of reachable boards *)

Lemma static_lookup (l l' : list Cell) i cell' :
  static <$> l' = static <$> l → l' !! i = Some cell' →
  ∃ cell, l !! i = Some cell ∧ static cell' = static cell.
Proof.
  intros Heq Hi.
  assert ((static <$> l) !! i = Some (static cell')) as Hs
    by (by rewrite <- Heq, list_lookup_fmap, Hi).
  rewrite list_lookup_fmap in Hs.
  destruct (l !! i) as [cell|]; [|done].
  exists cell. split; [done|]. simpl in Hs. congruence.
Qed.

Lemma is_mine_at_static b b' p :
  cols b' = cols b → static <$> cells b' = static <$> cells b →
  is_mine_at b' p = is_mine_at b p.
Proof.
  intros Hc Hs. unfold is_mine_at, cell_at, index. rewrite Hc.
  destruct (cells b' !! _) as [cell'|] eqn:H'.
  - destruct (static_lookup _ _ _ _ Hs H') as (cell & -> & [= _ _ ? _]). done.
  - destruct (cells b !! _) as [cell|] eqn:H; [|done].
    symmetry in Hs.
    destruct (static_lookup _ _ _ _ Hs H) as (cell' & ? & _). congruence.
Qed.

Lemma neighbors_dims b b' c r :
  cols b' = cols b → rows b' = rows b → neighbors b' c r = neighbors b c r.
Proof. intros Hc Hr. unfold neighbors, is_inbounds. by rewrite Hc, Hr. Qed.

Lemma mine_neighbors_static b b' c r :
  cols b' = cols b → rows b' = rows b →
  static <$> cells b' = static <$> cells b →
  mine_neighbors b' c r = mine_neighbors b c r.
Proof.
  intros Hc Hr Hs. unfold mine_neighbors.
  rewrite (neighbors_dims b b') by done. do 2 f_equal.
  apply list_filter_iff. intros p. by rewrite (is_mine_at_static b b').
Qed.

Lemma adj_ok_static b b' :
  cols b' = cols b → rows b' = rows b →
  static <$> cells b' = static <$> cells b →
  adj_ok b → adj_ok b'.
Proof.
  intros Hc Hr Hs Hadj cell' [i Hi]%list_elem_of_lookup Hm.
  destruct (static_lookup _ _ _ _ Hs Hi) as (cell & Hcell & Heq).
  unfold static, coords in Heq. simplify_eq.
  rewrite (mine_neighbors_static b b') by done.
  replace (adjacent (state cell')) with (adjacent (state cell)) by done.
  replace (col cell') with (col cell) by done.
  replace (row cell') with (row cell) by done.
  apply Hadj; [by eapply list_elem_of_lookup_2 | congruence].
Qed.

Lemma wf_static b b' :
  cols b' = cols b → rows b' = rows b →
  static <$> cells b' = static <$> cells b →
  wf b → wf b'.
Proof.
  intros Hc Hr Hs Hwf. unfold wf, all_positions in *. rewrite Hc, Hr, <- Hwf.
  apply (f_equal (fmap (λ x : pos * bool * Z, x.1.1))) in Hs.
  by rewrite <- !list_fmap_compose in Hs.
Qed.

Lemma filter_none {A : Type} (P : A → Prop) `{!∀ x, Decision (P x)} (l : list A) :
  (∀ x, x ∈ l → ¬ P x) → filter P l = [].
Proof.
  induction l as [|x l IH]; intros HP; [done|].
  rewrite filter_cons_False by (apply HP, list_elem_of_here).
  apply IH. intros y Hy. apply HP. by apply list_elem_of_further.
Qed.

Lemma grid_Forall {A : Type} (P : A → Prop) (f : Z → Z → A) rows cols :
  (∀ c r, P (f c r)) → Forall P (grid f rows cols).
Proof.
  intros HP. apply Forall_lookup. intros i x Hi.
  by apply grid_lookup in Hi as (c & r & _ & -> & _).
Qed.

Lemma Inv_new cols rows mines : Inv (new cols rows mines).
Proof.
  assert (Forall (λ cell, state cell = mkCellState false false false 0)
            (cells (new cols rows mines))) as Hfresh.
  { apply (grid_Forall _ (λ c r, mkCell c r (mkCellState false false false 0))).
    done. }
  split.
  - apply wf_new.
  - done.
  - eapply Forall_impl; [exact Hfresh|]. intros cell Hst.
    unfold cell_ok. rewrite Hst. simpl. by repeat split.
  - intros _. unfold count_safe_revealed. rewrite filter_none; [done|].
    intros cell Hcell [Hrev _].
    rewrite Forall_forall in Hfresh. rewrite (Hfresh cell Hcell) in Hrev. done.
  - done.
Qed.

(** *** Flag toggling *)

Lemma toggle_flag_cases col row b :
  wf b →
  (is_inbounds b col row = false ∧ toggle_flag col row b = Ok b)
  ∨ ∃ cell, is_inbounds b col row = true ∧ cell_at b col row = Some cell
      ∧ ((is_revealed (state cell) = true ∧ toggle_flag col row b = Ok b)
         ∨ (is_revealed (state cell) = false
            ∧ toggle_flag col row b
              = Ok (set_cells
                      (alter (set_is_flagged (negb (is_flagged (state cell))))
                         (Z.to_nat (index b col row)) (cells b)) b))).
Proof.
  intros Hwf. unfold toggle_flag.
  destruct (is_inbounds b col row) eqn:Hin; [right | by left].
  destruct (getitem_cell b col row Hwf Hin) as (cell & Hat & ->).
  exists cell. split; [done|]. split; [done|]. simpl.
  destruct (is_revealed (state cell)); [by left | right].
  split; [done|]. by apply mutate_cell_inbounds.
Qed.

Lemma cell_at_elem b c r cell : cell_at b c r = Some cell → cell ∈ cells b.
Proof. apply list_elem_of_lookup_2. Qed.

Lemma Inv_toggle_flag col row b b' :
  Inv b → toggle_flag col row b = Ok b' → Inv b'.
Proof.
  intros HI Hop. pose proof (inv_wf b HI) as Hwf.
  destruct (toggle_flag_cases col row b Hwf)
    as [[_ Heq] | (cell & Hin & Hat & [[_ Heq] | [Hrev Heq]])];
    rewrite Heq in Hop; injection Hop as <-; [done | done |].
  set (f := set_is_flagged (negb (is_flagged (state cell)))).
  assert (static <$> alter f (Z.to_nat (index b col row)) (cells b)
          = static <$> cells b) as Hst by (by apply fmap_alter_keep).
  split.
  - by apply (wf_alter b).
  - intros Hp. apply (adj_ok_static b); [done | done | done |].
    by apply (inv_adj b HI).
  - apply Forall_alter; [apply (inv_cells b HI)|].
    intros x Hx Hok. change (cell_at b col row = Some x) in Hx.
    assert (x = cell) as -> by congruence.
    destruct Hok as (H1 & H2 & H3 & H4 & H5).
    unfold cell_ok, f. simpl. split_and!; try done.
    intros Hr. congruence.
  - intros Hw. unfold count_safe_revealed. simpl.
    rewrite (inv_count b HI Hw). unfold count_safe_revealed. f_equal.
    pose proof (filter_alter_length safe_revealed f _ _ _ Hat) as Hlen.
    destruct (decide (safe_revealed cell)) as [Hs1|Hs1],
      (decide (safe_revealed (f cell))) as [Hs2|Hs2]; try lia;
      exfalso; [apply Hs2; exact Hs1 | apply Hs1; exact Hs2].
  - apply (inv_fresh b HI).
Qed.

(** *** Mine placement on a fresh board *)

Lemma set_adjacency_is_mine b cell :
  is_mine (state (set_adjacency b cell)) = is_mine (state cell).
Proof. unfold set_adjacency. by destruct (is_mine (state cell)) eqn:Hm. Qed.

Lemma mine_neighbors_with_adjacency b c r :
  mine_neighbors (with_adjacency b) c r = mine_neighbors b c r.
Proof.
  unfold mine_neighbors. f_equal.
  change (neighbors (with_adjacency b) c r) with (neighbors b c r). f_equal.
  apply list_filter_iff. intros p. unfold with_adjacency.
  by rewrite is_mine_at_fmap by apply set_adjacency_is_mine.
Qed.

Lemma wf_with_mines M b : wf b → wf (with_mines M b).
Proof. apply wf_fmap, mark_mines_coords. Qed.

Lemma wf_with_adjacency b : wf b → wf (with_adjacency b).
Proof. apply wf_fmap, set_adjacency_coords. Qed.

Lemma adj_ok_with_adjacency b : adj_ok (with_adjacency b).
Proof.
  intros cell' Hcell' Hm. unfold with_adjacency in Hcell'. simpl in Hcell'.
  apply list_elem_of_fmap in Hcell' as (cell & -> & Hcell).
  rewrite set_adjacency_is_mine in Hm.
  rewrite mine_neighbors_with_adjacency.
  unfold set_adjacency. by rewrite Hm.
Qed.

Lemma Inv_placed g c r b :
  Inv b → _mines_placed b = false → Inv (placed g c r b).
Proof.
  intros HI Hp. pose proof (inv_wf b HI) as Hwf.
  destruct (inv_fresh b HI Hp) as (Hcount & Hgo & Hwin).
  assert (Forall (λ cell, is_revealed (state cell) = false)
            (cells (placed g c r b))) as Hhid.
  { unfold placed, with_adjacency, with_mines. simpl.
    rewrite <- list_fmap_compose. apply Forall_fmap.
    eapply Forall_impl; [apply (inv_cells b HI)|].
    intros cell (_ & _ & _ & H4 & _). destruct (H4 Hp) as [_ Hrev]. simpl.
    unfold set_adjacency, mark_mines. by repeat case_match. }
  split.
  - by apply wf_with_adjacency, wf_with_mines.
  - intros _. apply (adj_ok_with_adjacency (with_mines _ b)).
  - eapply Forall_impl; [exact Hhid|]. intros cell Hrev.
    unfold cell_ok. rewrite Hrev.
    change (game_over (placed g c r b)) with (game_over b).
    change (win (placed g c r b)) with (win b). rewrite Hgo, Hwin.
    split_and!; done.
  - intros _. change (revealed_count (placed g c r b)) with (revealed_count b).
    rewrite Hcount. unfold count_safe_revealed. rewrite filter_none; [done|].
    intros cell Hcell [Hrev _]. rewrite Forall_forall in Hhid.
    by rewrite (Hhid cell Hcell) in Hrev.
  - done.
Qed.

Lemma no_mines_fresh b : Inv b → _mines_placed b = false → no_mines b.
Proof.
  intros HI Hp cell Hcell. pose proof (inv_cells b HI) as Hc.
  rewrite Forall_forall in Hc. destruct (Hc cell Hcell) as (_ & _ & _ & H4 & _).
  by destruct (H4 Hp).
Qed.

(** *** Losing *)

Lemma reveal_all_mines_hit b c r cell :
  wf b → is_inbounds b c r = true → cell_at b c r = Some cell →
  is_mine (state cell) = true →
  _reveal_all_mines
    (set_game_over true
       (set_cells (alter (set_is_revealed true) (Z.to_nat (index b c r)) (cells b)) b))
  = lost b.
Proof.
  intros Hwf Hin Hat Hm.
  unfold _reveal_all_mines, lost, set_cells, set_game_over. simpl. f_equal.
  fold sweep_mines. rewrite alter_as_fmap by done.
  rewrite <- list_fmap_compose. apply list_fmap_ext. intros i x Hx. simpl.
  case_decide as Hco; [|done].
  assert (x = cell) as ->.
  { destruct (lookup_cell_at b i x Hwf Hx) as (_ & Hatx & _).
    unfold coords in Hco. simplify_eq. congruence. }
  unfold sweep_mines. simpl. by rewrite Hm.
Qed.

Lemma sweep_mines_static cell : static (sweep_mines cell) = static cell.
Proof. unfold sweep_mines. by case_match. Qed.

Lemma Inv_lost b : Inv b → _mines_placed b = true → Inv (lost b).
Proof.
  intros HI Hp.
  assert (static <$> cells (lost b) = static <$> cells b) as Hst.
  { unfold lost. simpl. apply fmap_fmap_keep, sweep_mines_static. }
  split.
  - apply (wf_static b); [done | done | done | apply (inv_wf b HI)].
  - intros _. apply (adj_ok_static b); [done | done | done |].
    by apply (inv_adj b HI).
  - unfold lost. simpl. apply Forall_fmap.
    eapply Forall_impl; [apply (inv_cells b HI)|].
    intros cell (H1 & H2 & H3 & H4 & H5). unfold cell_ok, sweep_mines. simpl.
    destruct (is_mine (state cell)) eqn:Hm; simpl; rewrite ?Hm;
      split_and!; try done; intros; congruence.
  - intros Hw. change (win b = false) in Hw.
    change (revealed_count (lost b)) with (revealed_count b).
    rewrite (inv_count b HI Hw). unfold count_safe_revealed, lost. simpl.
    f_equal. rewrite filter_fmap_length. f_equal. apply list_filter_iff.
    intros cell. unfold safe_revealed, sweep_mines.
    destruct (is_mine (state cell)) eqn:Hm; simpl; rewrite ?Hm; [|done].
    split; intros [_ ?]; done.
  - intros Hp'. change (_mines_placed b = false) in Hp'. congruence.
Qed.

(** *** The flood fill keeps clear of mines *)

Lemma is_mine_at_cell b c r cell :
  cell_at b c r = Some cell → is_mine_at b (c, r) = is_mine (state cell).
Proof. intros Hat. unfold is_mine_at. simpl. by rewrite Hat. Qed.

Lemma Reach_safe b s p :
  wf b → adj_ok b → is_mine_at b s = false →
  Reach b s p → is_mine_at b p = false.
Proof.
  intros Hwf Hadj Hs. induction 1 as [|p q Hp IH Hz Hq Hoq]; [done|].
  pose proof (Reach_inbounds _ _ _ Hp) as Hin. destruct p as [c r].
  simpl in *.
  destruct (cell_at_inbounds b c r Hwf Hin) as (cell & Hat & Hco).
  rewrite (is_mine_at_cell b c r cell Hat) in IH.
  unfold zero_at in Hz. simpl in Hz. rewrite Hat in Hz.
  apply bool_decide_eq_true in Hz.
  rewrite (Hadj cell (cell_at_elem _ _ _ _ Hat) IH) in Hz.
  injection Hco as Hc1 Hc2. rewrite Hc1, Hc2 in Hz. unfold mine_neighbors in Hz.
  destruct (is_mine_at b q) eqn:Hmq; [|done].
  assert (q ∈ filter (λ p, is_mine_at b p = true) (neighbors b c r))
    as Hmem by (by apply list_elem_of_filter).
  destruct (filter _ _); [by apply elem_of_nil in Hmem | done].
Qed.

Lemma tracks_Forall2 b s l n :
  wf b → wf (flood_state b l n) → adj_ok b → is_mine_at b s = false →
  tracks b s l → Forall2 flood_rel (cells b) l.
Proof.
  intros Hwf Hwf' Hadj Hs Htr. apply Forall2_same_length_lookup. split.
  - rewrite (wf_length b Hwf). symmetry. apply (wf_length _ Hwf').
  - intros i cell0 cell Hi0 Hi.
    destruct (lookup_cell_at b i cell0 Hwf Hi0) as (Hin & Hat & ->).
    destruct (Htr _ _ cell0 Hin Hat) as [Hl | (Hl & Hrev & Hfl & Hreach)].
    + left. congruence.
    + right. split_and!; [congruence | done | done |].
      apply (Reach_safe b s _ Hwf Hadj Hs) in Hreach.
      by rewrite (is_mine_at_cell _ _ _ _ Hat) in Hreach.
Qed.

Lemma flood_rel_static l0 l :
  Forall2 flood_rel l0 l → static <$> l = static <$> l0.
Proof.
  induction 1 as [|c0 c l0 l Hrel _ IH]; [done|].
  rewrite !fmap_cons, IH. f_equal. by destruct Hrel as [->|(-> & _)].
Qed.

Lemma flood_rel_count l0 l :
  Forall2 flood_rel l0 l →
  (length (filter safe_revealed l)
   + length (filter (λ cell, is_revealed (state cell) = false) l)
   = length (filter safe_revealed l0)
     + length (filter (λ cell, is_revealed (state cell) = false) l0))%nat.
Proof.
  induction 1 as [|c0 c l0 l Hrel _ IH]; [done|].
  rewrite !filter_cons.
  destruct Hrel as [->|(-> & Hrev & _ & Hm)].
  - repeat case_decide; simpl; lia.
  - rewrite (decide_True (P := safe_revealed (set_is_revealed true c0)))
      by (by split).
    rewrite (decide_False (P := is_revealed (state (set_is_revealed true c0)) = false))
      by done.
    rewrite (decide_False (P := safe_revealed c0))
      by (intros [? _]; congruence).
    rewrite (decide_True (P := is_revealed (state c0) = false)) by done.
    simpl. lia.
Qed.

Lemma Inv_flooded b s l n :
  Inv b → _mines_placed b = true → wf (flood_state b l n) →
  is_mine_at b s = false → tracks b s l →
  n + Z.of_nat (hidden (flood_state b l n))
  = revealed_count b + Z.of_nat (hidden b) →
  Inv (flood_state b l n) ∧ Forall2 flood_rel (cells b) l.
Proof.
  intros HI Hp Hwf' Hs Htr Hcnt. pose proof (inv_wf b HI) as Hwf.
  pose proof (tracks_Forall2 b s l n Hwf Hwf' (inv_adj b HI Hp) Hs Htr) as Hrel.
  split; [|done]. split.
  - done.
  - intros _. apply (adj_ok_static b); [done | done | |].
    + by apply flood_rel_static.
    + by apply (inv_adj b HI).
  - pose proof (inv_cells b HI) as Hcells. simpl.
    clear Hcnt Htr Hwf'.
    induction Hrel as [|c0 c l0 l Hr _ IH]; [done|].
    apply Forall_cons in Hcells as [Hc0 Hcells].
    constructor; [|by apply IH].
    destruct Hr as [->|(-> & Hrev & Hfl & Hm)]; [exact Hc0|].
    unfold cell_ok. simpl. rewrite Hm, Hfl.
    split_and!; try done. intros Hp'. change (_mines_placed b = false) in Hp'.
    congruence.
  - intros Hw. change (win b = false) in Hw.
    pose proof (inv_count b HI Hw) as Hc. pose proof (flood_rel_count _ _ Hrel).
    unfold count_safe_revealed, hidden in *. simpl in *. lia.
  - intros Hp'. change (_mines_placed b = false) in Hp'. congruence.
Qed.

(** *** Winning *)

Lemma check_win_cases b : _check_win b = if wins b then won b else b.
Proof. done. Qed.

Lemma sweep_safe_static cell : static (sweep_safe cell) = static cell.
Proof. unfold sweep_safe. by case_match. Qed.

Lemma Inv_won b :
  Inv b → _mines_placed b = true → game_over b = false → Inv (won b).
Proof.
  intros HI Hp Hgo.
  assert (static <$> cells (won b) = static <$> cells b) as Hst.
  { unfold won. simpl. apply fmap_fmap_keep, sweep_safe_static. }
  split.
  - apply (wf_static b); [done | done | done | apply (inv_wf b HI)].
  - intros _. apply (adj_ok_static b); [done | done | done |].
    by apply (inv_adj b HI).
  - unfold won. simpl. apply Forall_fmap.
    eapply Forall_impl; [apply (inv_cells b HI)|].
    intros cell (H1 & H2 & H3 & H4 & H5). unfold cell_ok, sweep_safe. simpl.
    rewrite Hgo in *.
    destruct (is_mine (state cell)) eqn:Hm,
      (is_revealed (state cell)) eqn:Hr; simpl; rewrite ?Hm;
      split_and!; try done; intros; try congruence; auto.
  - done.
  - intros Hp'. change (_mines_placed b = false) in Hp'. congruence.
Qed.

Lemma Inv_check_win b : Inv b → _mines_placed b = true → Inv (_check_win b).
Proof.
  intros HI Hp. rewrite check_win_cases.
  destruct (wins b) eqn:Hw; [|done].
  apply andb_true_iff in Hw as [_ Hgo%negb_true_iff]. by apply Inv_won.
Qed.

(** *** Reveal, case by case *)

Lemma after_placement_placed g c r b :
  _mines_placed (after_placement g c r b) = true.
Proof. unfold after_placement. by destruct (_mines_placed b) eqn:Hp. Qed.

Lemma wf_after_placement g c r b : wf b → wf (after_placement g c r b).
Proof.
  intros Hwf. unfold after_placement. destruct (_mines_placed b); [done|].
  by apply wf_with_adjacency, wf_with_mines.
Qed.

Lemma Inv_after_placement g c r b : Inv b → Inv (after_placement g c r b).
Proof.
  intros HI. unfold after_placement.
  destruct (_mines_placed b) eqn:Hp; [done | by apply Inv_placed].
Qed.

Lemma reveal_spec g c r b :
  wf b → ∃ b', reveal g c r b = Ok b' ∧ reveal_outcome g c r b b'.
Proof.
  intros Hwf. unfold reveal.
  destruct (is_inbounds b c r) eqn:Hin; simpl;
    [|exists b; split; [done | by apply reveal_outside]].
  assert ((if negb (_mines_placed b) then place_mines g c r b else Ok b)
          = Ok (after_placement g c r b)) as ->.
  { unfold after_placement. destruct (_mines_placed b); [done|].
    simpl. by apply place_mines_spec. }
  cbn [mbind result_bind].
  pose proof (wf_after_placement g c r b Hwf) as Hwf1.
  set (b1 := after_placement g c r b) in *.
  assert (is_inbounds b1 c r = true) as Hin1.
  { unfold b1, after_placement. by destruct (_mines_placed b). }
  destruct (getitem_cell b1 c r Hwf1 Hin1) as (cell & Hat & ->).
  cbn [mbind result_bind].
  destruct (is_revealed (state cell) || is_flagged (state cell)) eqn:Hskip.
  { exists b1. split; [done | by eapply reveal_ignored]. }
  apply orb_false_iff in Hskip as [Hrev Hfl].
  destruct (is_mine (state cell)) eqn:Hm.
  - rewrite mutate_cell_inbounds by done. cbn [mbind result_bind].
    rewrite (reveal_all_mines_hit b1 c r cell) by done.
    exists (lost b1). split; [done | by eapply reveal_mine].
  - destruct (flood_spec b1 c r Hwf1 Hin1)
      as (l & n & -> & Hwf2 & Hcnt & Htr & Hreach).
    cbn [mbind result_bind].
    exists (_check_win (flood_state b1 l n)).
    split; [done | by eapply reveal_flood].
Qed.

(** Turn [Hop : reveal g c r b = Ok b'] into the outcome of the call. *)
Ltac reveal_outcome_of Hwf Hop Hout :=
  lazymatch type of Hop with
  | reveal ?g ?c ?r ?b = Ok _ =>
      let b2 := fresh "b" in
      let Heq := fresh "Heq" in
      destruct (reveal_spec g c r b Hwf) as (b2 & Heq & Hout);
      rewrite Heq in Hop; injection Hop as ->
  end.

Lemma Inv_reveal g c r b b' : Inv b → reveal g c r b = Ok b' → Inv b'.
Proof.
  intros HI Hop. reveal_outcome_of (inv_wf b HI) Hop Hout.
  pose proof (Inv_after_placement g c r b HI) as HI1.
  pose proof (after_placement_placed g c r b) as Hp1.
  destruct Hout as [_ ->|cell b1 _ _ _ ->|cell b1 _ _ _ _ _ ->
                   |cell l n b1 _ Hat _ _ Hm Hwf2 Hcnt Htr _ ->].
  - done.
  - done.
  - by apply Inv_lost.
  - apply Inv_check_win; [|done].
    apply (Inv_flooded b1 (c, r) l n); try done.
    by rewrite (is_mine_at_cell _ _ _ _ Hat).
Qed.

(** *** Hints *)

Lemma randbelow_lt n g : (0 < n)%nat → ((Random.randbelow n g).1 < n)%nat.
Proof.
  intros Hn. destruct g as [|x g]; simpl; [done|].
  by apply Nat.mod_upper_bound, Nat.neq_0_lt_0.
Qed.

Lemma choice_spec {A : Type} (seq : list A) g :
  seq ≠ [] → ∃ x g', Random.choice seq g = Ok (x, g') ∧ x ∈ seq.
Proof.
  intros Hne. unfold Random.choice.
  destruct seq as [|y seq]; [done|].
  pose proof (randbelow_lt (length (y :: seq)) g) as Hlt.
  destruct (Random.randbelow (length (y :: seq)) g) as [k g'].
  destruct (lookup_lt_is_Some_2 (y :: seq) k) as [x Hx].
  { apply Hlt. simpl. lia. }
  exists x, g'. rewrite Hx. split; [done | by eapply list_elem_of_lookup_2].
Qed.

Lemma hint_reveal_cases g b :
  (negb (_mines_placed b) || game_over b || win b = true
   ∧ hint_reveal g b = Ok b)
  ∨ (negb (_mines_placed b) || game_over b || win b = false
     ∧ ((hint_candidates b = [] ∧ hint_reveal g b = Ok b)
        ∨ ∃ cell g', cell ∈ hint_candidates b
            ∧ hint_reveal g b = reveal g' (col cell) (row cell) b)).
Proof.
  unfold hint_reveal. fold (hint_candidates b).
  destruct (negb (_mines_placed b) || game_over b || win b); [by left | right].
  split; [done|].
  destruct (hint_candidates b) as [|x l] eqn:Hc; [by left | right].
  destruct (choice_spec (x :: l) g) as (cell & g' & -> & Hcell); [done|].
  by exists cell, g'.
Qed.

Lemma Inv_hint_reveal g b b' : Inv b → hint_reveal g b = Ok b' → Inv b'.
Proof.
  intros HI Hop.
  destruct (hint_reveal_cases g b)
    as [[_ Heq] | [_ [[_ Heq] | (cell & g' & _ & Heq)]]];
    rewrite Heq in Hop.
  - by injection Hop as <-.
  - by injection Hop as <-.
  - by eapply Inv_reveal.
Qed.

(** *** Every reachable board satisfies the invariant *)

Lemma Inv_step o b b' : Inv b → step o b = Ok b' → Inv b'.
Proof.
  destruct o as [g c r|c r|g]; simpl.
  - apply Inv_reveal.
  - apply Inv_toggle_flag.
  - apply Inv_hint_reveal.
Qed.

Lemma Reachable_Inv b : Reachable b → Inv b.
Proof.
  induction 1 as [cols rows mines|b o b' _ IH Hstep].
  - apply Inv_new.
  - by eapply Inv_step.
Qed.

Lemma run_Reachable os b b' : Reachable b → run os b = Ok b' → Reachable b'.
Proof.
  unfold run. revert b. induction os as [|o os IH]; intros b Hb; simpl.
  - by intros [= <-].
  - destruct (step o b) as [b1|e] eqn:Hstep; [|done]. simpl.
    apply IH. by eapply reach_step.
Qed.

Lemma play_Reachable os b : Reachable b → Reachable (play os b).
Proof.
  intros Hb. unfold play. destruct (run os b) as [b'|e] eqn:Hrun; [|done].
  by eapply run_Reachable.
Qed.

Lemma examples_Reachable :
  Reachable opened_3x3 ∧ Reachable lost_3x3 ∧ Reachable won_4x1
  ∧ Reachable fenced_3x1 ∧ Reachable flagged_4x4.
Proof. split_and!; apply play_Reachable, reach_new. Qed.

(** *** The terminal flags *)

Lemma check_win_flags b :
  game_over (_check_win b) = game_over b
  ∧ (win b = true → win (_check_win b) = true)
  ∧ (game_over b = true → win (_check_win b) = win b).
Proof.
  rewrite check_win_cases. unfold wins.
  destruct (bool_decide _); simpl; [|done].
  destruct (game_over b) eqn:Hgo; simpl; [done|].
  split_and!; [done | done | intros; congruence].
Qed.

Lemma reveal_flags g c r b b' :
  wf b → reveal g c r b = Ok b' →
  (game_over b = true → game_over b' = true)
  ∧ (win b = true → win b' = true)
  ∧ (game_over b = true → win b' = win b).
Proof.
  intros Hwf Hop. reveal_outcome_of Hwf Hop Hout.
  assert (∀ b1, b1 = after_placement g c r b →
            game_over b1 = game_over b ∧ win b1 = win b) as Hpl.
  { intros b1 ->. unfold after_placement. by destruct (_mines_placed b). }
  destruct Hout as [_ ->|cell b1 _ _ _ ->|cell b1 _ _ _ _ _ ->
                   |cell l n b1 _ _ _ _ _ _ _ _ _ ->].
  - done.
  - destruct (Hpl b1 eq_refl) as [-> ->]. done.
  - destruct (Hpl b1 eq_refl) as [Hg1 Hw1].
    unfold lost. simpl. by rewrite Hw1.
  - destruct (Hpl b1 eq_refl) as [Hg1 Hw1].
    destruct (check_win_flags (flood_state b1 l n)) as (Hg & Hw & Hgw).
    change (win (flood_state b1 l n)) with (win b1) in *.
    change (game_over (flood_state b1 l n)) with (game_over b1) in *.
    rewrite Hg, Hg1. rewrite Hg1, Hw1 in *. done.
Qed.

Lemma toggle_flag_flags c r b b' :
  wf b → toggle_flag c r b = Ok b' →
  game_over b' = game_over b ∧ win b' = win b.
Proof.
  intros Hwf Hop.
  destruct (toggle_flag_cases c r b Hwf)
    as [[_ Heq] | (cell & _ & _ & [[_ Heq] | [_ Heq]])];
    rewrite Heq in Hop; by injection Hop as <-.
Qed.

Lemma step_flags o b b' :
  wf b → step o b = Ok b' →
  (game_over b = true → game_over b' = true)
  ∧ (win b = true → win b' = true)
  ∧ (game_over b = true → win b' = win b).
Proof.
  intros Hwf. destruct o as [g c r|c r|g]; simpl.
  - by apply reveal_flags.
  - intros [-> ->]%toggle_flag_flags; done.
  - intros Hop. destruct (hint_reveal_cases g b)
      as [[_ Heq] | [_ [[_ Heq] | (cell & g' & _ & Heq)]]];
      rewrite Heq in Hop.
    + by injection Hop as <-.
    + by injection Hop as <-.
    + by eapply reveal_flags.
Qed.

(** *** The Moore neighbourhood, independently of [neighbors] *)

Lemma neighbors_moore b c r : neighbors b c r ≡ₚ moore b c r.
Proof.
  apply NoDup_Permutation.
  - apply neighbors_NoDup.
  - apply NoDup_filter, all_positions_NoDup.
  - intros [nc nr]. unfold moore.
    rewrite neighbors_spec, list_elem_of_filter, all_positions_spec. simpl.
    tauto.
Qed.

Lemma mine_neighbors_moore b c r : mine_neighbors b c r = moore_mines b c r.
Proof.
  unfold mine_neighbors, moore_mines. by rewrite (neighbors_moore b c r).
Qed.

Lemma mine_neighbors_bounds b c r : 0 ≤ mine_neighbors b c r ≤ 8.
Proof.
  unfold mine_neighbors. split; [lia|].
  pose proof (length_filter (λ p, is_mine_at b p = true) (neighbors b c r)).
  pose proof (neighbors_length b c r). lia.
Qed.

(** *** What a reveal call may change in a cell *)

Lemma after_placement_cells g c r b :
  ∃ h : Cell → Cell,
    cells (after_placement g c r b) = h <$> cells b
    ∧ (∀ x, coords (h x) = coords x
            ∧ is_flagged (state (h x)) = is_flagged (state x)
            ∧ is_revealed (state (h x)) = is_revealed (state x))
    ∧ (_mines_placed b = true → ∀ x, h x = x).
Proof.
  unfold after_placement. destruct (_mines_placed b) eqn:Hp.
  - exists id. split_and!; [by rewrite list_fmap_id | done | done].
  - exists (λ x, set_adjacency (with_mines (mine_positions g c r b) b)
                   (mark_mines (mine_positions g c r b) x)).
    split_and!; [| |done].
    + unfold placed, with_adjacency, with_mines. simpl.
      by rewrite <- list_fmap_compose.
    + intros x. unfold set_adjacency, mark_mines. by repeat case_match.
Qed.

Lemma flood_rel_refl l : Forall2 flood_rel l l.
Proof. apply Forall_Forall2_diag, Forall_forall. intros x _. by left. Qed.

Lemma reveal_frame g c r b b' :
  Inv b → reveal g c r b = Ok b' →
  Forall2 (reveal_rel b b') (cells b) (cells b').
Proof.
  intros HI Hop. reveal_outcome_of (inv_wf b HI) Hop Hout.
  pose proof (Inv_after_placement g c r b HI) as HI1.
  pose proof (after_placement_placed g c r b) as Hp1.
  destruct (after_placement_cells g c r b) as (h & Hh & Hkeep & Hid).
  assert (game_over (after_placement g c r b) = game_over b) as Hgo1.
  { unfold after_placement. by destruct (_mines_placed b). }
  destruct (is_inbounds b c r) eqn:Hin; cycle 1.
  { destruct Hout as [_ ->|? ? Hin'|? ? Hin'|? ? ? ? Hin']; try congruence.
    apply Forall_Forall2_diag, Forall_forall. intros x _.
    unfold reveal_rel. split_and!; try done. intros; congruence. }
  (* every other outcome maps a function [k] over a list [l] that the
     flood relation links to the cells after placement *)
  assert (∃ (k : Cell → Cell) (l : list Cell),
    cells b' = k <$> l
    ∧ Forall2 flood_rel (cells (after_placement g c r b)) l
    ∧ (∀ y, static (k y) = static y
            ∧ is_flagged (state (k y)) = is_flagged (state y)
            ∧ (is_revealed (state y) = true → is_revealed (state (k y)) = true)
            ∧ (is_mine (state y) = true → is_revealed (state (k y)) = true →
               is_revealed (state y) = false →
               game_over b = false ∧ game_over b' = true)))
    as (k & l & Hk & Hrel & Hkk).
  { destruct Hout as [Hout ->|cell b1 _ _ _ ->|cell b1 _ Hat Hrev _ Hm ->
                     |cell l n b1 _ Hat _ _ Hm Hwf2 Hcnt Htr _ ->].
    - congruence.
    - exists id, (cells b1). rewrite list_fmap_id.
      split_and!; [done | apply flood_rel_refl|].
      intros y. split_and!; try done. simpl. intros; congruence.
    - exists sweep_mines, (cells b1).
      split_and!; [done | apply flood_rel_refl|].
      intros y. split_and!.
      + apply sweep_mines_static.
      + unfold sweep_mines. by case_match.
      + unfold sweep_mines. by case_match.
      + intros _ _ _. split; [|done]. rewrite <- Hgo1. fold b1.
        destruct (game_over b1) eqn:Hgo; [|done].
        pose proof (inv_cells b1 HI1) as Hc. rewrite Forall_forall in Hc.
        destruct (Hc cell (cell_at_elem _ _ _ _ Hat)) as (_ & H2 & _).
        rewrite (H2 Hm Hgo) in Hrev. done.
    - assert (is_mine_at b1 (c, r) = false) as Hs
        by (by rewrite (is_mine_at_cell _ _ _ _ Hat)).
      destruct (Inv_flooded b1 (c, r) l n HI1 Hp1 Hwf2 Hs Htr Hcnt) as [_ Hrel].
      rewrite check_win_cases. destruct (wins (flood_state b1 l n)).
      + exists sweep_safe, l. split_and!; [done | done |].
        intros y. split_and!.
        * apply sweep_safe_static.
        * unfold sweep_safe. by case_match.
        * unfold sweep_safe. by case_match.
        * unfold sweep_safe. intros Hmy. rewrite Hmy, andb_false_r.
          intros; congruence.
      + exists id, l. rewrite list_fmap_id.
        split_and!; [done | done |].
        intros y. split_and!; try done. simpl. intros; congruence. }
  rewrite Hk. apply (Forall2_fmap_r k). rewrite Hh in Hrel.
  apply (Forall2_fmap_l h) in Hrel.
  eapply Forall2_impl; [exact Hrel|].
  intros x y Hxy. simpl in Hxy.
  destruct (Hkeep x) as (Hc & Hf & Hr).
  destruct (Hkk y) as (Hks & Hkf & Hkr & Hkm).
  assert (static y = static (h x) ∧ is_flagged (state y) = is_flagged (state (h x))
          ∧ (is_revealed (state (h x)) = true → is_revealed (state y) = true)
          ∧ (is_revealed (state y) = true → is_revealed (state (h x)) = false →
             is_mine (state y) = false)) as (Hys & Hyf & Hyr & Hym).
  { destruct Hxy as [->|(-> & ? & ? & ?)]; split_and!; try done.
    intros; congruence. }
  unfold reveal_rel. split_and!.
  - pose proof (f_equal (λ t : pos * bool * Z, t.1.1) Hks) as H1.
    pose proof (f_equal (λ t : pos * bool * Z, t.1.1) Hys) as H2.
    simpl in H1, H2. congruence.
  - congruence.
  - intros Hx. apply Hkr, Hyr. congruence.
  - intros Hp. rewrite (Hid Hp x) in Hys. congruence.
  - intros Hm' Hr' Hx.
    assert (is_mine (state y) = true) as Hmy.
    { pose proof (f_equal (λ t : pos * bool * Z, t.1.2) Hks) as H1.
      simpl in H1. congruence. }
    apply Hkm; [done | done |].
    destruct (is_revealed (state y)) eqn:Hry; [|done].
    rewrite Hym in Hmy; [done | done | congruence].
Qed.

Lemma reveal_dims g c r b b' :
  wf b → reveal g c r b = Ok b' → cols b' = cols b ∧ rows b' = rows b.
Proof.
  intros Hwf Hop. reveal_outcome_of Hwf Hop Hout.
  assert (∀ b1, b1 = after_placement g c r b →
            cols b1 = cols b ∧ rows b1 = rows b) as Hpl.
  { intros b1 ->. unfold after_placement. by destruct (_mines_placed b). }
  destruct Hout as [_ ->|cell b1 _ _ _ ->|cell b1 _ _ _ _ _ ->
                   |cell l n b1 _ _ _ _ _ _ _ _ _ ->].
  - done.
  - by apply Hpl.
  - by apply (Hpl b1).
  - rewrite check_win_cases.
    destruct (wins (flood_state b1 l n)); by apply (Hpl b1).
Qed.

Lemma reveal_rel_static b b' l l' :
  _mines_placed b = true → Forall2 (reveal_rel b b') l l' →
  static <$> l' = static <$> l.
Proof.
  intros Hp. induction 1 as [|x y l l' Hxy _ IH]; [done|].
  rewrite !fmap_cons, IH. f_equal. by apply Hxy.
Qed.

Lemma reveal_is_mine_at g c r b b' p :
  Inv b → _mines_placed b = true → reveal g c r b = Ok b' →
  is_mine_at b' p = is_mine_at b p.
Proof.
  intros HI Hp Hop.
  destruct (reveal_dims g c r b b' (inv_wf b HI) Hop) as [Hc _].
  apply is_mine_at_static; [done|].
  eapply reveal_rel_static; [done | by eapply reveal_frame].
Qed.

(** A reveal whose target is not a mine leaves [game_over] as it was. *)
Lemma reveal_safe_game_over g c r b b' :
  wf b → reveal g c r b = Ok b' → is_mine_at b' (c, r) = false →
  game_over b' = game_over b.
Proof.
  intros Hwf Hop Hsafe. reveal_outcome_of Hwf Hop Hout.
  assert (∀ b1, b1 = after_placement g c r b → game_over b1 = game_over b)
    as Hpl.
  { intros b1 ->. unfold after_placement. by destruct (_mines_placed b). }
  destruct Hout as [_ ->|cell b1 _ _ _ ->|cell b1 _ Hat _ _ Hm ->
                   |cell l n b1 _ _ _ _ _ _ _ _ _ ->].
  - done.
  - by apply Hpl.
  - exfalso. unfold lost in Hsafe.
    rewrite (is_mine_at_fmap (set_game_over true b1) sweep_mines) in Hsafe.
    + change (is_mine_at b1 (c, r) = false) in Hsafe.
      rewrite (is_mine_at_cell _ _ _ _ Hat) in Hsafe. congruence.
    + intros x. unfold sweep_mines. by case_match.
  - destruct (check_win_flags (flood_state b1 l n)) as (-> & _).
    by apply (Hpl b1).
Qed.

Lemma mines_revealed_when_lost b :
  Inv b → game_over b = true →
  ∀ cell, cell ∈ cells b → is_mine (state cell) = true →
    is_revealed (state cell) = true.
Proof.
  intros HI Hgo cell Hcell Hm. pose proof (inv_cells b HI) as Hc.
  rewrite Forall_forall in Hc. destruct (Hc cell Hcell) as (_ & H2 & _). auto.
Qed.

Lemma is_revealed_at_won b p :
  is_revealed_at (won b) p
  = match cell_at b p.1 p.2 with
    | Some cell => is_revealed (state cell) || negb (is_mine (state cell))
    | None => false
    end.
Proof.
  unfold is_revealed_at, won.
  rewrite (cell_at_fmap (set_win true b) sweep_safe).
  change (cell_at (set_win true b) p.1 p.2) with (cell_at b p.1 p.2).
  destruct (cell_at b p.1 p.2) as [cell|]; [|done]. simpl.
  unfold sweep_safe.
  destruct (is_revealed (state cell)) eqn:Hr, (is_mine (state cell)) eqn:Hm;
    simpl; by rewrite ?Hr.
Qed.

(** ** Lemmas of the further properties *)

(** *** The constructor *)

Lemma new_cells cols rows mines :
  cells (new cols rows mines) = grid fresh_cell rows cols.
Proof. done. Qed.

Lemma new_elem cols rows mines cell :
  cell ∈ cells (new cols rows mines) →
  cell = fresh_cell (col cell) (row cell).
Proof.
  intros (i & Hi)%list_elem_of_lookup_1. rewrite new_cells in Hi.
  apply grid_lookup in Hi as (c & r & _ & -> & _). done.
Qed.

(** *** Neighbourhoods *)

Lemma neighbors_unfold b c r :
  neighbors b c r
  = (if is_inbounds b (c + -1) (r + -1) then [(c + -1, r + -1)] else [])
    ++ (if is_inbounds b (c + 0) (r + -1) then [(c + 0, r + -1)] else [])
    ++ (if is_inbounds b (c + 1) (r + -1) then [(c + 1, r + -1)] else [])
    ++ (if is_inbounds b (c + -1) (r + 0) then [(c + -1, r + 0)] else [])
    ++ (if is_inbounds b (c + 1) (r + 0) then [(c + 1, r + 0)] else [])
    ++ (if is_inbounds b (c + -1) (r + 1) then [(c + -1, r + 1)] else [])
    ++ (if is_inbounds b (c + 0) (r + 1) then [(c + 0, r + 1)] else [])
    ++ (if is_inbounds b (c + 1) (r + 1) then [(c + 1, r + 1)] else []).
Proof. unfold neighbors, deltas. simpl. by rewrite app_nil_r. Qed.

Lemma span_cases x n :
  0 ≤ x < n →
  span x n = (if decide (0 < x) then 1 else 0)
             + (if decide (x + 1 < n) then 1 else 0) + 1.
Proof. intros Hx. unfold span. repeat case_decide; lia. Qed.

Lemma neighbors_length_span b c r :
  is_inbounds b c r = true →
  Z.of_nat (length (neighbors b c r)) = span c (cols b) * span r (rows b) - 1.
Proof.
  intros [Hc Hr]%is_inbounds_true. rewrite neighbors_unfold.
  rewrite (span_cases c) by done. rewrite (span_cases r) by done.
  unfold is_inbounds.
  destruct (decide (0 < c)), (decide (c + 1 < cols b)),
    (decide (0 < r)), (decide (r + 1 < rows b));
    repeat (first [rewrite bool_decide_eq_true_2 by lia
                  |rewrite bool_decide_eq_false_2 by lia]);
    simpl; lia.
Qed.

(** *** Flags *)

Lemma alter_twice_id {A : Type} (f f' : A → A) (k : nat) (l : list A) (x : A) :
  l !! k = Some x → f' (f x) = x → alter f' k (alter f k l) = l.
Proof.
  intros Hk Hx. apply list_eq. intros i. destruct (decide (i = k)) as [->|Hne].
  - rewrite !list_lookup_alter_eq, Hk. simpl. by rewrite Hx.
  - rewrite !list_lookup_alter_ne; [done | congruence..].
Qed.

Lemma toggle_flag_unrevealed c r b cell :
  wf b → is_inbounds b c r = true → cell_at b c r = Some cell →
  is_revealed (state cell) = false →
  toggle_flag c r b
  = Ok (set_cells
          (alter (set_is_flagged (negb (is_flagged (state cell))))
             (Z.to_nat (index b c r)) (cells b)) b).
Proof.
  intros Hwf Hin Hat Hrev.
  destruct (toggle_flag_cases c r b Hwf)
    as [[Hout _] | (cell' & _ & Hat' & [[Hrev' _] | [_ Heq]])];
    [congruence | |]; rewrite Hat in Hat'; injection Hat' as <-;
    [congruence | done].
Qed.

Lemma flagged_count_flags b b' :
  (λ cell, is_flagged (state cell)) <$> cells b'
  = (λ cell, is_flagged (state cell)) <$> cells b →
  flagged_count b' = flagged_count b.
Proof.
  intros Heq. unfold flagged_count.
  pose proof (filter_fmap_length (λ cell, is_flagged (state cell))
                (λ f, f = true) (cells b)) as H1.
  pose proof (filter_fmap_length (λ cell, is_flagged (state cell))
                (λ f, f = true) (cells b')) as H2.
  simpl in H1, H2. by rewrite <- H1, <- H2, Heq.
Qed.

Lemma reveal_flags_kept g c r b b' :
  Inv b → reveal g c r b = Ok b' →
  (λ cell, is_flagged (state cell)) <$> cells b'
  = (λ cell, is_flagged (state cell)) <$> cells b.
Proof.
  intros HI Hop. pose proof (reveal_frame g c r b b' HI Hop) as Hrel.
  induction Hrel as [|x y l l' Hxy _ IH]; [done|].
  rewrite !fmap_cons, IH. f_equal. apply Hxy.
Qed.

Lemma hint_reveal_flags_kept g b b' :
  Inv b → hint_reveal g b = Ok b' →
  (λ cell, is_flagged (state cell)) <$> cells b'
  = (λ cell, is_flagged (state cell)) <$> cells b.
Proof.
  intros HI Hop.
  destruct (hint_reveal_cases g b)
    as [[_ Heq] | [_ [[_ Heq] | (cell & g' & _ & Heq)]]];
    rewrite Heq in Hop.
  - by injection Hop as <-.
  - by injection Hop as <-.
  - by eapply reveal_flags_kept.
Qed.

(** *** What the operations keep *)

Lemma after_placement_scalars g c r b :
  cols (after_placement g c r b) = cols b
  ∧ rows (after_placement g c r b) = rows b
  ∧ num_mines (after_placement g c r b) = num_mines b
  ∧ revealed_count (after_placement g c r b) = revealed_count b
  ∧ game_over (after_placement g c r b) = game_over b
  ∧ win (after_placement g c r b) = win b.
Proof. unfold after_placement. by destruct (_mines_placed b). Qed.

Lemma after_placement_id g c r b :
  _mines_placed b = true → after_placement g c r b = b.
Proof. intros Hp. unfold after_placement. by rewrite Hp. Qed.

Lemma check_win_scalars b :
  cols (_check_win b) = cols b ∧ rows (_check_win b) = rows b
  ∧ num_mines (_check_win b) = num_mines b
  ∧ _mines_placed (_check_win b) = _mines_placed b
  ∧ revealed_count (_check_win b) = revealed_count b
  ∧ game_over (_check_win b) = game_over b.
Proof. rewrite check_win_cases. by destruct (wins b). Qed.

Lemma flood_rel_hidden l0 l :
  Forall2 flood_rel l0 l →
  (length (filter (λ cell, is_revealed (state cell) = false) l)
   ≤ length (filter (λ cell, is_revealed (state cell) = false) l0))%nat.
Proof.
  induction 1 as [|x y l0 l Hxy _ IH]; [done|].
  rewrite !filter_cons.
  destruct Hxy as [->|(-> & Hr & _)].
  - case_decide; simpl; lia.
  - repeat case_decide; simpl in *; try congruence; lia.
Qed.

(** A reveal of an unrevealed, unflagged cell that is not a mine, on a
    board with its mines placed, runs the flood fill and the win check. *)
Lemma reveal_safe_target g c r b cell :
  Inv b → _mines_placed b = true →
  is_inbounds b c r = true → cell_at b c r = Some cell →
  is_revealed (state cell) = false → is_flagged (state cell) = false →
  is_mine (state cell) = false →
  ∃ l n,
    reveal g c r b = Ok (_check_win (flood_state b l n))
    ∧ Inv (flood_state b l n)
    ∧ Forall2 flood_rel (cells b) l
    ∧ n + Z.of_nat (hidden (flood_state b l n))
      = revealed_count b + Z.of_nat (hidden b)
    ∧ (∀ p, Reach b (c, r) p → is_revealed_at (flood_state b l n) p = true).
Proof.
  intros HI Hp Hin Hat Hrev Hfl Hm.
  destruct (reveal_spec g c r b (inv_wf b HI)) as (b' & Heq & Hout).
  rewrite Heq.
  destruct Hout as [Hout _|cell' b1 _ Hat' Hskip _|cell' b1 _ Hat' _ _ Hm' _
                   |cell' l n b1 _ Hat' _ _ _ Hwf2 Hcnt Htr Hreach ->];
    [congruence | | |];
    (assert (b1 = b) as Hb1 by (by apply after_placement_id));
    clearbody b1; subst b1.
  - rewrite Hat in Hat'. injection Hat' as <-.
    rewrite Hrev, Hfl in Hskip. done.
  - rewrite Hat in Hat'. injection Hat' as <-. congruence.
  - exists l, n.
    assert (is_mine_at b (c, r) = false) as Hs
      by (by rewrite (is_mine_at_cell _ _ _ _ Hat)).
    destruct (Inv_flooded b (c, r) l n HI Hp Hwf2 Hs Htr Hcnt) as [HI2 Hrel].
    done.
Qed.

Lemma cell_kept_refl b l : Forall2 (cell_kept b) l l.
Proof. apply Forall_Forall2_diag, Forall_forall. by intros x _. Qed.

Lemma kept_refl b : kept b b.
Proof. split; try done. apply cell_kept_refl. Qed.

Lemma kept_trans b1 b2 b3 : kept b1 b2 → kept b2 b3 → kept b1 b3.
Proof.
  intros [Hc1 Hr1 Hn1 Hl1 Hk1 Hx1] [Hc2 Hr2 Hn2 Hl2 Hk2 Hx2].
  split; try congruence; [auto | lia |].
  eapply Forall2_trans; [|exact Hx1|exact Hx2].
  intros x y z (Hxc & Hxr & Hxs) (Hyc & Hyr & Hys).
  split_and!; [congruence | auto |].
  intros Hp. rewrite (Hys (Hl1 Hp)). auto.
Qed.

Lemma reveal_kept g c r b b' : Inv b → reveal g c r b = Ok b' → kept b b'.
Proof.
  intros HI Hop.
  destruct (reveal_dims g c r b b' (inv_wf b HI) Hop) as [Hc Hr].
  pose proof (reveal_frame g c r b b' HI Hop) as Hfr.
  assert (Forall2 (cell_kept b) (cells b) (cells b')) as Hcells.
  { eapply Forall2_impl; [exact Hfr|].
    intros x y (Hco & _ & Hrv & Hst & _). done. }
  reveal_outcome_of (inv_wf b HI) Hop Hout.
  pose proof (Inv_after_placement g c r b HI) as HI1.
  pose proof (after_placement_placed g c r b) as Hp1.
  destruct (after_placement_scalars g c r b) as (_ & _ & Hn1 & Hrc1 & _).
  destruct Hout as [_ ->|cell b1 _ _ _ ->|cell b1 _ _ _ _ _ ->
                   |cell l n b1 _ Hat _ _ Hm Hwf2 Hcnt Htr _ ->].
  - apply kept_refl.
  - split; [done | done | exact Hn1 | intros _; exact Hp1 | | done].
    unfold b1. rewrite Hrc1. lia.
  - split; [done | done | exact Hn1 | intros _; exact Hp1 | | done].
    change (revealed_count b ≤ revealed_count (after_placement g c r b)).
    rewrite Hrc1. lia.
  - assert (is_mine_at b1 (c, r) = false) as Hs
      by (by rewrite (is_mine_at_cell _ _ _ _ Hat)).
    destruct (Inv_flooded b1 (c, r) l n HI1 Hp1 Hwf2 Hs Htr Hcnt) as [_ Hrel].
    apply flood_rel_hidden in Hrel.
    destruct (check_win_scalars (flood_state b1 l n))
      as (_ & _ & Hn & Hp & Hrc & _).
    split; [done | done | | | | done].
    + rewrite Hn. exact Hn1.
    + intros _. rewrite Hp. exact Hp1.
    + rewrite Hrc. unfold hidden in Hcnt. simpl in Hcnt |- *.
      fold b1 in Hrc1. lia.
Qed.

Lemma toggle_flag_kept c r b b' :
  Inv b → toggle_flag c r b = Ok b' → kept b b'.
Proof.
  intros HI Hop. pose proof (inv_wf b HI) as Hwf.
  destruct (toggle_flag_cases c r b Hwf)
    as [[_ Heq] | (cell & Hin & Hat & [[_ Heq] | [_ Heq]])];
    rewrite Heq in Hop; injection Hop as <-; try apply kept_refl.
  split; try done. simpl.
  rewrite (alter_as_fmap b c r) by done.
  apply (Forall2_fmap_r
           (λ x, if decide (coords x = (c, r))
                 then set_is_flagged (negb (is_flagged (state cell))) x
                 else x)).
  apply Forall_Forall2_diag, Forall_forall.
  intros x _. simpl. by case_decide.
Qed.

Lemma hint_reveal_kept g b b' :
  Inv b → hint_reveal g b = Ok b' → kept b b'.
Proof.
  intros HI Hop.
  destruct (hint_reveal_cases g b)
    as [[_ Heq] | [_ [[_ Heq] | (cell & g' & _ & Heq)]]];
    rewrite Heq in Hop.
  - injection Hop as <-. apply kept_refl.
  - injection Hop as <-. apply kept_refl.
  - by eapply reveal_kept.
Qed.

Lemma step_kept o b b' : Inv b → step o b = Ok b' → kept b b'.
Proof.
  destruct o as [g c r|c r|g]; simpl.
  - apply reveal_kept.
  - apply toggle_flag_kept.
  - apply hint_reveal_kept.
Qed.

Lemma run_kept os b b' : Inv b → run os b = Ok b' → kept b b'.
Proof.
  unfold run. revert b. induction os as [|o os IH]; intros b HI; simpl.
  - intros [= <-]. apply kept_refl.
  - destruct (step o b) as [b1|e] eqn:Hstep; [|done]. simpl. intros Hrun.
    apply (kept_trans b b1 b'); [by eapply step_kept|].
    apply IH; [by eapply Inv_step | done].
Qed.

Lemma count_mines_static b b' :
  static <$> cells b' = static <$> cells b → count_mines b' = count_mines b.
Proof.
  intros Heq. unfold count_mines.
  pose proof (filter_fmap_length static (λ t, t.1.2 = true) (cells b)) as H1.
  pose proof (filter_fmap_length static (λ t, t.1.2 = true) (cells b')) as H2.
  simpl in H1, H2. by rewrite <- H1, <- H2, Heq.
Qed.

Lemma cell_kept_static b l l' :
  _mines_placed b = true → Forall2 (cell_kept b) l l' →
  static <$> l' = static <$> l.
Proof.
  intros Hp. induction 1 as [|x y l l' Hxy _ IH]; [done|].
  rewrite !fmap_cons, IH. f_equal. by apply Hxy.
Qed.

(** *** The first click *)

Lemma placed_safe_zone g c r b p :
  Inv b → _mines_placed b = false → is_inbounds b p.1 p.2 = true →
  p ∈ forbidden_zone b c r → is_mine_at (placed g c r b) p = false.
Proof.
  intros HI Hp Hin Hforb. pose proof (inv_wf b HI) as Hwf.
  unfold placed, with_adjacency.
  change (is_mine_at (set_mines_placed true ?x) p) with (is_mine_at x p).
  rewrite is_mine_at_fmap by apply set_adjacency_is_mine.
  unfold with_mines, is_mine_at. rewrite cell_at_fmap.
  destruct (cell_at_inbounds b p.1 p.2 Hwf Hin) as (cell & Hat & Hco).
  rewrite Hat. simpl. unfold mark_mines. rewrite Hco.
  replace (p.1, p.2) with p by (by destruct p).
  case_decide as HM.
  - by apply mine_positions_spec in HM as [_ ?].
  - apply (no_mines_fresh b HI Hp). by eapply cell_at_elem.
Qed.

Lemma placed_unrevealed g c r b cell :
  Inv b → _mines_placed b = false → cell ∈ cells (placed g c r b) →
  is_revealed (state cell) = false.
Proof.
  intros HI Hp Hcell.
  destruct (after_placement_cells g c r b) as (h & Hh & Hkeep & _).
  unfold after_placement in Hh. rewrite Hp in Hh. rewrite Hh in Hcell.
  apply list_elem_of_fmap in Hcell as (x & -> & Hx).
  destruct (Hkeep x) as (_ & _ & ->).
  pose proof (inv_cells b HI) as Hc. rewrite Forall_forall in Hc.
  destruct (Hc x Hx) as (_ & _ & _ & H4 & _). by apply H4.
Qed.

Lemma is_open_placed g c r b p :
  is_open (placed g c r b) p = is_open b p.
Proof.
  destruct (after_placement_cells g c r b) as (h & Hh & Hkeep & _).
  destruct (_mines_placed b) eqn:Hp.
  - unfold is_open, cell_at, placed, with_adjacency, with_mines. simpl.
    change (index ?x p.1 p.2) with (index b p.1 p.2).
    rewrite <- list_fmap_compose, list_lookup_fmap.
    destruct (cells b !! Z.to_nat (index b p.1 p.2)) as [x|]; [|done]. simpl.
    unfold set_adjacency, mark_mines. by repeat case_match.
  - unfold after_placement in Hh. rewrite Hp in Hh.
    unfold is_open, cell_at. rewrite Hh.
    change (index (placed g c r b) p.1 p.2) with (index b p.1 p.2).
    rewrite list_lookup_fmap.
    destruct (cells b !! Z.to_nat (index b p.1 p.2)) as [x|]; [|done]. simpl.
    by destruct (Hkeep x) as (_ & -> & ->).
Qed.

(** The clicked cell of a placement is not a mine and has no mine around
    it. *)
Lemma placed_zero g c r b cell :
  Inv b → _mines_placed b = false → is_inbounds b c r = true →
  cell_at (placed g c r b) c r = Some cell →
  is_mine (state cell) = false ∧ adjacent (state cell) = 0.
Proof.
  intros HI Hp Hin Hat.
  pose proof (Inv_placed g c r b HI Hp) as HI1.
  assert (is_mine (state cell) = false) as Hm.
  { rewrite <- (is_mine_at_cell _ _ _ _ Hat).
    apply placed_safe_zone; [done | done | done |].
    apply elem_of_union_l. by apply elem_of_singleton. }
  split; [done|].
  rewrite (inv_adj _ HI1 eq_refl cell (cell_at_elem _ _ _ _ Hat) Hm).
  assert (coords cell = (c, r)) as Hco
    by (by apply (cell_at_coords (placed g c r b) c r cell (inv_wf _ HI1))).
  injection Hco as -> ->.
  unfold mine_neighbors. rewrite filter_none; [done|].
  intros q Hq.
  rewrite (neighbors_dims b (placed g c r b)) in Hq by done.
  rewrite placed_safe_zone; [done | done | done | by eapply neighbors_inbounds |].
  apply elem_of_union_r. by apply elem_of_list_to_set.
Qed.

Lemma reveal_after_placement g c r b :
  wf b → is_inbounds b c r = true →
  reveal g c r b = reveal g c r (after_placement g c r b).
Proof.
  intros Hwf Hin. unfold reveal.
  assert (is_inbounds (after_placement g c r b) c r = true) as ->.
  { unfold after_placement. by destruct (_mines_placed b). }
  rewrite Hin, after_placement_placed. simpl.
  assert ((if negb (_mines_placed b) then place_mines g c r b else Ok b)
          = Ok (after_placement g c r b)) as ->; [|done].
  unfold after_placement. destruct (_mines_placed b); [done|].
  simpl. by apply place_mines_spec.
Qed.

Lemma reveal_flagged_target g c r b cell :
  wf b → _mines_placed b = true → is_inbounds b c r = true →
  cell_at b c r = Some cell → is_flagged (state cell) = true →
  reveal g c r b = Ok b.
Proof.
  intros Hwf Hp Hin Hat Hfl. unfold reveal. rewrite Hin, Hp. simpl.
  destruct (getitem_cell b c r Hwf Hin) as (cell' & Hat' & ->).
  rewrite Hat in Hat'. injection Hat' as <-.
  simpl. by rewrite Hfl, orb_true_r.
Qed.

Lemma is_revealed_at_check_win b p :
  is_revealed_at b p = true → is_revealed_at (_check_win b) p = true.
Proof.
  intros Hr. rewrite check_win_cases. destruct (wins b); [|done].
  rewrite is_revealed_at_won. unfold is_revealed_at in Hr.
  destruct (cell_at b p.1 p.2) as [cell|]; [|done]. by rewrite Hr.
Qed.

(** The cells after the win check, cell by cell. *)
Lemma check_win_cells b :
  ∃ k : Cell → Cell,
    cells (_check_win b) = k <$> cells b
    ∧ ∀ y, static (k y) = static y
           ∧ is_flagged (state (k y)) = is_flagged (state y)
           ∧ (is_revealed (state y) = true → k y = y).
Proof.
  rewrite check_win_cases. destruct (wins b).
  - exists sweep_safe. split; [done|]. intros y. split_and!.
    + apply sweep_safe_static.
    + unfold sweep_safe. by case_match.
    + intros Hr. unfold sweep_safe. by rewrite Hr.
  - exists id. split; [by rewrite list_fmap_id | done].
Qed.

Lemma flood_rel_static_cell x y : flood_rel x y → static y = static x.
Proof. by intros [->|(-> & _)]. Qed.

(** *** Hints *)

Lemma flood_rel_hidden_lt l0 l k x y :
  Forall2 flood_rel l0 l → l0 !! k = Some x → l !! k = Some y →
  is_revealed (state x) = false → is_revealed (state y) = true →
  (length (filter (λ cell, is_revealed (state cell) = false) l)
   < length (filter (λ cell, is_revealed (state cell) = false) l0))%nat.
Proof.
  intros Hrel. revert k.
  induction Hrel as [|x0 y0 l0 l Hxy Hrel IH]; intros k Hx Hy Hrx Hry; [done|].
  pose proof (flood_rel_hidden _ _ Hrel) as Hle.
  rewrite !filter_cons. destruct k as [|k]; simpl in Hx, Hy.
  - injection Hx as ->. injection Hy as ->.
    repeat case_decide; simpl in *; try congruence; lia.
  - specialize (IH k Hx Hy Hrx Hry).
    destruct Hxy as [->|(-> & Hr0 & _)].
    + case_decide; simpl; lia.
    + repeat case_decide; simpl in *; try congruence; lia.
Qed.

(** *** The number of mines *)

Lemma filter_bool_length {A : Type} (f : A → bool) (l : list A) :
  (length (filter (λ x, f x = true) l) + length (filter (λ x, f x = false) l)
   = length l)%nat.
Proof.
  induction l as [|x l IH]; [done|]. rewrite !filter_cons.
  destruct (f x); repeat case_decide; simpl; try done; lia.
Qed.

Lemma filter_not_length {A : Type} (P : A → Prop) `{!∀ x, Decision (P x)}
    (l : list A) :
  (length (filter P l) + length (filter (λ x, ¬ P x) l) = length l)%nat.
Proof.
  induction l as [|x l IH]; [done|]. rewrite !filter_cons.
  repeat case_decide; simpl; try done; lia.
Qed.

Lemma forbidden_zone_size b c r :
  size (forbidden_zone b c r) = S (length (neighbors b c r)).
Proof.
  unfold forbidden_zone. rewrite size_union.
  - rewrite size_singleton, size_list_to_set; [done | apply neighbors_NoDup].
  - apply disjoint_singleton_l. rewrite not_elem_of_list_to_set.
    intros Hn. apply neighbors_spec in Hn as (_ & Hne & _). done.
Qed.

(** The pool of [place_mines] holds every cell but the clicked one and its
    neighbours. *)
Lemma candidate_pool_length b c r :
  is_inbounds b c r = true →
  Z.of_nat (length (candidate_pool b c r))
  = cols b * rows b - (1 + Z.of_nat (length (neighbors b c r))).
Proof.
  intros Hin. unfold candidate_pool.
  pose proof (filter_not_length (λ p, p ∈ forbidden_zone b c r)
                (all_positions b)) as Hsum.
  rewrite (filter_set_length (forbidden_zone b c r)) in Hsum.
  - rewrite forbidden_zone_size in Hsum.
    pose proof (grid_length (@pair Z Z) (rows b) (cols b)) as Hlen.
    change (grid pair (rows b) (cols b)) with (all_positions b) in Hlen.
    rewrite Hlen in Hsum.
    apply is_inbounds_true in Hin. apply (f_equal Z.of_nat) in Hsum.
    rewrite Nat2Z.inj_add, Nat2Z.inj_mul, !Z2Nat.id in Hsum by lia.
    simpl in Hsum. lia.
  - apply all_positions_NoDup.
  - intros [pc pr] Hp. unfold forbidden_zone in Hp.
    apply elem_of_union in Hp as [Hp|Hp]; apply all_positions_spec.
    + apply elem_of_singleton in Hp. by injection Hp as -> ->.
    + apply elem_of_list_to_set in Hp. by apply neighbors_inbounds in Hp.
Qed.

Lemma cells_length b :
  wf b → 0 < cols b → 0 < rows b →
  Z.of_nat (length (cells b)) = cols b * rows b.
Proof. intros Hwf Hc Hr. rewrite wf_length by done. lia. Qed.

Lemma count_safe_mines b :
  count_safe b + count_mines b = Z.of_nat (length (cells b)).
Proof.
  unfold count_safe, count_mines.
  pose proof (filter_bool_length (λ cell, is_mine (state cell)) (cells b)).
  lia.
Qed.

Lemma placed_placement_ok g c r b :
  Inv b → _mines_placed b = false → is_inbounds b c r = true →
  placement_ok (placed g c r b).
Proof.
  intros HI Hp Hin. pose proof (inv_wf b HI) as Hwf.
  pose proof (Inv_placed g c r b HI Hp) as HI1.
  pose proof Hin as [Hc Hr]%is_inbounds_true.
  split.
  - change (0 < cols b). lia.
  - change (0 < rows b). lia.
  - destruct (cell_at_inbounds (placed g c r b) c r (inv_wf _ HI1) Hin)
      as (cell & Hat & _).
    exists cell. split; [by eapply cell_at_elem|].
    by destruct (placed_zero g c r b cell HI Hp Hin Hat).
  - change (0 ≤ num_mines b →
            Z.min (num_mines b) (cols b * rows b - 9)
            ≤ count_mines (with_adjacency (with_mines (mine_positions g c r b) b))
            ≤ num_mines b).
    intros Hn.
    rewrite with_mines_count;
      [|done | by apply no_mines_fresh | by intros p []%mine_positions_spec].
    rewrite mine_positions_size, candidate_pool_length by done.
    pose proof (neighbors_length b c r). lia.
Qed.

Lemma kept_placement_ok b b' :
  kept b b' → _mines_placed b = true → placement_ok b → placement_ok b'.
Proof.
  intros [Hc Hr Hn _ _ Hx] Hp [Hpc Hpr (cell & Hcell & Hm) Hcnt].
  pose proof (cell_kept_static b _ _ Hp Hx) as Hst.
  split.
  - by rewrite Hc.
  - by rewrite Hr.
  - apply list_elem_of_lookup_1 in Hcell as (i & Hi).
    destruct (static_lookup (cells b') (cells b) i cell) as (cell' & Hi' & Hs);
      [done | done |].
    exists cell'. split; [by eapply list_elem_of_lookup_2|].
    pose proof (f_equal (λ t : pos * bool * Z, t.1.2) Hs) as H1.
    simpl in H1. congruence.
  - rewrite Hc, Hr, Hn, (count_mines_static b b') by done. done.
Qed.

Lemma toggle_flag_scalars c r b b' :
  wf b → toggle_flag c r b = Ok b' → set_cells (cells b) b' = b.
Proof.
  intros Hwf Hop.
  destruct (toggle_flag_cases c r b Hwf)
    as [[_ Heq] | (cell & Hin & Hat & [[_ Heq] | [_ Heq]])];
    rewrite Heq in Hop; injection Hop as <-; by destruct b.
Qed.

Lemma reveal_outside_target g c r b :
  is_inbounds b c r = false → reveal g c r b = Ok b.
Proof. intros Hin. unfold reveal. by rewrite Hin. Qed.

(** The call that places the mines is an in-bounds [reveal]. *)
Lemma step_placement o b b' :
  Inv b → step o b = Ok b' →
  _mines_placed b = false → _mines_placed b' = true →
  ∃ g c r, is_inbounds b c r = true ∧ kept (placed g c r b) b'.
Proof.
  intros HI Hstep Hp Hp'. pose proof (inv_wf b HI) as Hwf.
  destruct o as [g c r|c r|g]; simpl in Hstep.
  - destruct (is_inbounds b c r) eqn:Hin.
    + exists g, c, r. split; [done|].
      rewrite reveal_after_placement in Hstep by done.
      unfold after_placement in Hstep. rewrite Hp in Hstep.
      eapply reveal_kept; [by apply Inv_placed | done].
    + rewrite reveal_outside_target in Hstep by done. congruence.
  - pose proof (toggle_flag_scalars c r b b' Hwf Hstep) as Heq.
    apply (f_equal _mines_placed) in Heq. simpl in Heq. congruence.
  - destruct (hint_reveal_cases g b)
      as [[_ Heq] | [Hguard [[_ Heq] | _]]];
      [rewrite Heq in Hstep; congruence..|].
    rewrite Hp in Hguard. done.
Qed.

Lemma Reachable_placement_ok b :
  Reachable b → _mines_placed b = true → placement_ok b.
Proof.
  induction 1 as [cols rows mines|b o b' Hb IH Hstep]; [done|].
  intros Hp'. pose proof (Reachable_Inv b Hb) as HI.
  destruct (_mines_placed b) eqn:Hp.
  - apply (kept_placement_ok b b'); [by eapply step_kept | done | by apply IH].
  - destruct (step_placement o b b' HI Hstep Hp Hp') as (g & c & r & Hin & Hk).
    apply (kept_placement_ok (placed g c r b) b'); [done | done |].
    by apply placed_placement_ok.
Qed.

(** *** Winning *)

Lemma win_inv_new cols rows mines : win_inv (new cols rows mines).
Proof. by split. Qed.

Lemma win_inv_scalars b b' :
  set_cells (cells b) b' = b → win_inv b → win_inv b'.
Proof. intros <- [H1 H2]. split; [exact H1 | exact H2]. Qed.

Lemma win_all_safe b : Inv b → win b = true → all_safe_revealed b.
Proof.
  intros HI Hw cell Hcell Hm. pose proof (inv_cells b HI) as Hc.
  rewrite Forall_forall in Hc.
  destruct (Hc cell Hcell) as (_ & _ & _ & _ & H5). auto.
Qed.

Lemma win_inv_reveal g c r b b' :
  Inv b → reveal g c r b = Ok b' → win_inv b → win_inv b'.
Proof.
  intros HI Hop HW. reveal_outcome_of (inv_wf b HI) Hop Hout.
  pose proof (Inv_after_placement g c r b HI) as HI1.
  assert (win_inv (after_placement g c r b)) as HW1.
  { unfold after_placement. destruct (_mines_placed b); [done|].
    destruct HW as [H1 H2]. split; [exact H1 | exact H2]. }
  destruct Hout as [_ ->|cell b1 _ _ _ ->|cell b1 _ _ _ _ _ ->
                   |cell l n b1 _ Hat Hrev _ Hm _ _ _ _ ->].
  - done.
  - done.
  - destruct HW1 as [H1 H2]. split; [exact H1 | done].
  - assert (win b1 = false) as Hw1.
    { destruct (win b1) eqn:Hw; [|done].
      rewrite (win_all_safe b1 HI1 Hw cell (cell_at_elem _ _ _ _ Hat) Hm)
        in Hrev. done. }
    rewrite check_win_cases.
    destruct (wins (flood_state b1 l n)) eqn:Hwins.
    + apply andb_true_iff in Hwins as [Hcnt%bool_decide_eq_true _].
      split; [intros _; exact Hcnt | done].
    + split; [simpl; congruence|].
      intros Hgo _ Hcnt. unfold wins in Hwins.
      rewrite Hgo, bool_decide_eq_true_2 in Hwins; done.
Qed.

Lemma Reachable_win_inv b : Reachable b → win_inv b.
Proof.
  induction 1 as [cols rows mines|b o b' Hb IH Hstep];
    [apply win_inv_new|].
  pose proof (Reachable_Inv b Hb) as HI.
  destruct o as [g c r|c r|g]; simpl in Hstep.
  - by eapply win_inv_reveal.
  - apply (win_inv_scalars b b'); [|done].
    by eapply toggle_flag_scalars, Hstep; apply inv_wf.
  - destruct (hint_reveal_cases g b)
      as [[_ Heq] | [_ [[_ Heq] | (cell & g' & _ & Heq)]]];
      rewrite Heq in Hstep.
    + by injection Hstep as <-.
    + by injection Hstep as <-.
    + by eapply win_inv_reveal.
Qed.

Lemma reveal_revealed_target g c r b cell :
  wf b → _mines_placed b = true → is_inbounds b c r = true →
  cell_at b c r = Some cell → is_revealed (state cell) = true →
  reveal g c r b = Ok b.
Proof.
  intros Hwf Hp Hin Hat Hrev. unfold reveal. rewrite Hin, Hp. simpl.
  destruct (getitem_cell b c r Hwf Hin) as (cell' & Hat' & ->).
  rewrite Hat in Hat'. injection Hat' as <-.
  simpl. by rewrite Hrev.
Qed.

(** *** Reveal, target by target *)

Lemma flood_nil fuel b : flood fuel [] b = Ok b.
Proof. by destruct fuel. Qed.

(** *** Adjacency counts *)

(** A call that leaves the mines unplaced is a flag toggle or does
    nothing. *)
Lemma step_unplaced o b b' :
  Inv b → step o b = Ok b' → _mines_placed b' = false →
  static <$> cells b' = static <$> cells b.
Proof.
  intros HI Hstep Hp'. pose proof (inv_wf b HI) as Hwf.
  destruct o as [g c r|c r|g]; simpl in Hstep.
  - destruct (is_inbounds b c r) eqn:Hin.
    + rewrite reveal_after_placement in Hstep by done.
      pose proof (reveal_kept g c r _ b' (Inv_after_placement g c r b HI) Hstep)
        as Hk.
      rewrite (kept_latch _ _ Hk (after_placement_placed g c r b)) in Hp'. done.
    + rewrite reveal_outside_target in Hstep by done. by injection Hstep as <-.
  - destruct (toggle_flag_cases c r b Hwf)
      as [[_ Heq] | (cell & Hin & Hat & [[_ Heq] | [_ Heq]])];
      rewrite Heq in Hstep; injection Hstep as <-; [done | done |].
    simpl. by apply fmap_alter_keep.
  - destruct (hint_reveal_cases g b)
      as [[_ Heq] | [Hguard [[_ Heq] | _]]];
      [rewrite Heq in Hstep; by injection Hstep as <-..|].
    destruct (_mines_placed b) eqn:Hp; [|done].
    pose proof (hint_reveal_kept g b b' HI Hstep) as Hk.
    rewrite (kept_latch _ _ Hk Hp) in Hp'. done.
Qed.

Lemma static_fields cell cell' :
  static cell' = static cell →
  is_mine (state cell') = is_mine (state cell)
  ∧ adjacent (state cell') = adjacent (state cell).
Proof.
  intros Hs.
  pose proof (f_equal (λ t : pos * bool * Z, t.1.2) Hs) as H1.
  pose proof (f_equal (λ t : pos * bool * Z, t.2) Hs) as H2.
  done.
Qed.

(** A mine, and any cell before the placement, carries the default count. *)
Lemma Reachable_blank b :
  Reachable b →
  ∀ cell, cell ∈ cells b →
    is_mine (state cell) = true ∨ _mines_placed b = false →
    adjacent (state cell) = 0.
Proof.
  induction 1 as [cols rows mines|b o b' Hb IH Hstep].
  { intros cell Hcell _. by rewrite (new_elem cols rows mines cell Hcell). }
  pose proof (Reachable_Inv b Hb) as HI.
  intros cell' Hcell' Hor.
  apply list_elem_of_lookup_1 in Hcell' as (i & Hi).
  destruct (_mines_placed b') eqn:Hp'; cycle 1.
  { pose proof (step_unplaced o b b' HI Hstep Hp') as Hst.
    destruct (static_lookup _ _ i cell' Hst Hi) as (cell & Hcell & Hs).
    apply static_fields in Hs as [_ ->].
    apply IH; [by eapply list_elem_of_lookup_2|]. right.
    destruct (_mines_placed b) eqn:Hp; [|done].
    pose proof (step_kept o b b' HI Hstep) as Hk.
    rewrite (kept_latch _ _ Hk Hp) in Hp'. done. }
  destruct Hor as [Hm|]; [|done].
  destruct (_mines_placed b) eqn:Hp.
  - pose proof (step_kept o b b' HI Hstep) as Hk.
    pose proof (cell_kept_static b _ _ Hp (kept_cells _ _ Hk)) as Hst.
    destruct (static_lookup _ _ i cell' Hst Hi) as (cell & Hcell & Hs).
    apply static_fields in Hs as [Hm' ->].
    apply IH; [by eapply list_elem_of_lookup_2|]. left. congruence.
  - destruct (step_placement o b b' HI Hstep Hp Hp') as (g & c & r & _ & Hk).
    pose proof (cell_kept_static (placed g c r b) _ _ eq_refl
                  (kept_cells _ _ Hk)) as Hst.
    destruct (static_lookup _ _ i cell' Hst Hi) as (cell1 & Hcell1 & Hs).
    apply static_fields in Hs as [Hm1 ->].
    apply list_elem_of_lookup_2 in Hcell1.
    change (cells (placed g c r b))
      with (set_adjacency (with_mines (mine_positions g c r b) b)
              <$> (mark_mines (mine_positions g c r b) <$> cells b)) in Hcell1.
    apply list_elem_of_fmap in Hcell1 as (y & -> & Hy).
    apply list_elem_of_fmap in Hy as (x & -> & Hx).
    rewrite set_adjacency_is_mine in Hm1. rewrite Hm in Hm1.
    unfold set_adjacency. rewrite <- Hm1.
    transitivity (adjacent (state x)).
    + unfold mark_mines. by case_decide.
    + apply IH; [done | by right].
Qed.

(** ** Scenarios *)

(** A first click in the middle of a 3x3 board without mines reveals all
    nine cells and wins, whatever the random draws. *)
Example scenario_3x3_no_mines g :
  ∃ b, reveal g 1 1 (new 3 3 0) = Ok b
    ∧ win b = true ∧ game_over b = false ∧ revealed_count b = 9
    ∧ count_revealed b = 9.
Proof. eexists. split; [vm_compute; reflexivity|]. by repeat split. Qed.

(** Toggling a flag twice on an unrevealed cell gives the board back. *)
Example scenario_toggle_twice :
  run [ToggleFlag 1 1; ToggleFlag 1 1] (new 3 3 1) = Ok (new 3 3 1).
Proof. vm_compute. reflexivity. Qed.

(** On a 5x5 board with one mine and a first click at the corner, the mine
    lies outside the four cells of the safe zone, whatever the draws. *)
Example scenario_5x5_corner g :
  ∃ b, place_mines g 0 0 (new 5 5 1) = Ok b
    ∧ count_mines b = 1
    ∧ ∀ c r, (c, r) ∈ [(0, 0); (1, 0); (0, 1); (1, 1)] →
        is_mine_at b (c, r) = false.
Proof.
  pose proof (wf_new 5 5 1) as Hwf.
  exists (placed g 0 0 (new 5 5 1)). split; [by apply place_mines_spec|]. split.
  - unfold placed.
    change (count_mines (set_mines_placed true ?x)) with (count_mines x).
    rewrite with_mines_count;
      [|done| |by intros p []%mine_positions_spec].
    + by rewrite mine_positions_size.
    + apply no_mines_fresh; [apply Inv_new | done].
  - intros c r Hp.
    assert (is_inbounds (new 5 5 1) c r = true
            ∧ (c, r) ∈ forbidden_zone (new 5 5 1) 0 0) as [Hin Hforb].
    { repeat (apply elem_of_cons in Hp as [[= -> ->]|Hp];
              [split; [done | vm_compute; tauto]|]).
      by apply elem_of_nil in Hp. }
    unfold placed, with_adjacency.
    change (is_mine_at (set_mines_placed true ?x) (c, r))
      with (is_mine_at x (c, r)).
    rewrite is_mine_at_fmap by apply set_adjacency_is_mine.
    unfold with_mines, is_mine_at. rewrite cell_at_fmap. simpl.
    destruct (cell_at_inbounds (new 5 5 1) c r Hwf Hin) as (cell & Hat & Hco).
    rewrite Hat. simpl. unfold mark_mines. rewrite Hco.
    case_decide as HM.
    + by apply mine_positions_spec in HM as [_ ?].
    + apply (no_mines_fresh (new 5 5 1)); [apply Inv_new | done|].
      by eapply cell_at_elem.
Qed.

(** With a negative [num_mines] the slice [pool[:num_mines]] drops cells
    from the end of the shuffled pool instead of taking none: the count of
    C5 is stated for [num_mines >= 0]. *)
Example negative_num_mines :
  ∃ b, place_mines [] 0 0 (new 3 3 (-1)) = Ok b ∧ count_mines b = 4.
Proof. eexists. split; vm_compute; reflexivity. Qed.

(** * The claims *)

(** ** The revealed counter *)

(** C1, as the code has it: on every reachable board that is not won, and
    on every won board that holds exactly [num_mines] mines,
    [revealed_count] is the number of revealed cells that are not mines;
    if moreover the game is not lost it is the number of revealed cells. *)
Theorem revealed_count_safe b :
  Reachable b → win b = false ∨ count_mines b = num_mines b →
  revealed_count b = count_safe_revealed b
  ∧ (game_over b = false → revealed_count b = count_revealed b).
Proof.
  intros Hb Hor. pose proof (Reachable_Inv b Hb) as HI.
  assert (revealed_count b = count_safe_revealed b) as Hc.
  { destruct (win b) eqn:Hw; [|by apply inv_count].
    destruct Hor as [|Hexact]; [done|].
    assert (_mines_placed b = true) as Hp.
    { destruct (_mines_placed b) eqn:Hp; [done|].
      destruct (inv_fresh b HI Hp) as (_ & _ & Hw'). congruence. }
    destruct (Reachable_placement_ok b Hb Hp) as [Hcols Hrows _ _].
    rewrite (wi_won b (Reachable_win_inv b Hb) Hw).
    pose proof (count_safe_mines b) as Hsum.
    rewrite cells_length in Hsum by (done || by apply inv_wf).
    assert (count_safe_revealed b = count_safe b) as ->; [|lia].
    unfold count_safe_revealed, count_safe. do 2 f_equal.
    apply list_filter_iff_in. intros x Hx. unfold safe_revealed.
    split; [by intros [_ ?]|]. intros Hm. split; [|done].
    by apply (win_all_safe b HI Hw). }
  split; [done|]. intros Hgo. rewrite Hc.
  unfold count_safe_revealed, count_revealed. do 2 f_equal.
  apply list_filter_iff_in. intros cell Hcell. unfold safe_revealed.
  split; [by intros [? _]|]. intros Hrev. split; [done|].
  pose proof (inv_cells b HI) as Hcells. rewrite Forall_forall in Hcells.
  destruct (Hcells cell Hcell) as (H1 & _).
  destruct (is_mine (state cell)); [|done]. rewrite H1 in Hgo; done.
Qed.

Lemma revealed_count_safe_witness :
  (Reachable won_4x1
   ∧ (win won_4x1 = false ∨ count_mines won_4x1 = num_mines won_4x1))
  ∧ revealed_count won_4x1 = count_safe_revealed won_4x1
  ∧ (game_over won_4x1 = false →
     revealed_count won_4x1 = count_revealed won_4x1).
Proof.
  split; [split; [apply examples_Reachable | right; by vm_compute]|].
  apply (revealed_count_safe won_4x1);
    [apply examples_Reachable | right; by vm_compute].
Defined.

(** C1 as stated fails in two ways.  Once a mine has been hit the mines
    are revealed without being counted.  And when the pool was too small
    for [num_mines] mines, the win check fires before every safe cell is
    counted and its sweep reveals the rest uncounted: on a 3x1 board asked
    for 2 mines no mine can be placed, and with [(0, 0)] and [(2, 0)]
    flagged the click at [(1, 0)] counts one cell, which is
    [cols*rows - num_mines]. *)
Lemma revealed_count_counterexample :
  (Reachable lost_3x3
   ∧ revealed_count lost_3x3 = 6 ∧ count_revealed lost_3x3 = 7)
  ∧ (Reachable underplaced_3x1
     ∧ win underplaced_3x1 = true ∧ game_over underplaced_3x1 = false
     ∧ num_mines underplaced_3x1 = 2 ∧ count_mines underplaced_3x1 = 0
     ∧ revealed_count underplaced_3x1 = 1
     ∧ count_safe_revealed underplaced_3x1 = 3
     ∧ count_revealed underplaced_3x1 = 3).
Proof.
  split.
  - split; [apply examples_Reachable|]. split; vm_compute; reflexivity.
  - split; [apply play_Reachable, reach_new|].
    split_and!; vm_compute; reflexivity.
Qed.

(** ** Losing *)

(** C2, as the code has it: a reveal that hits an unflagged, unrevealed
    mine sets [game_over] and reveals every mine; from then on [game_over]
    stays true, [win] keeps its value, every mine stays revealed and
    [hint_reveal] leaves the board unchanged. *)
Theorem loss_terminal b :
  Reachable b →
  (∀ g c r cell b',
     is_inbounds b c r = true → cell_at b c r = Some cell →
     is_mine (state cell) = true → is_revealed (state cell) = false →
     is_flagged (state cell) = false →
     reveal g c r b = Ok b' →
     game_over b' = true
     ∧ ∀ cell', cell' ∈ cells b' → is_mine (state cell') = true →
         is_revealed (state cell') = true)
  ∧ (game_over b = true →
     (∀ g, hint_reveal g b = Ok b)
     ∧ ∀ o b', step o b = Ok b' →
         game_over b' = true ∧ win b' = win b
         ∧ ∀ cell', cell' ∈ cells b' → is_mine (state cell') = true →
             is_revealed (state cell') = true).
Proof.
  intros Hb. pose proof (Reachable_Inv b Hb) as HI.
  pose proof (inv_wf b HI) as Hwf. split.
  - intros g c r cell b' Hin Hat Hm Hrev Hfl Hop.
    assert (Inv b') as HI' by (by eapply Inv_reveal).
    assert (game_over b' = true) as Hgo; [|by eauto using mines_revealed_when_lost].
    assert (_mines_placed b = true) as Hp.
    { pose proof (inv_cells b HI) as Hc. rewrite Forall_forall in Hc.
      destruct (Hc cell (cell_at_elem _ _ _ _ Hat)) as (_ & _ & _ & H4 & _).
      destruct (_mines_placed b); [done|]. destruct H4; congruence. }
    reveal_outcome_of Hwf Hop Hout.
    assert (after_placement g c r b = b) as Hb1
      by (unfold after_placement; by rewrite Hp).
    destruct Hout as [? ->|cell' b1 _ Hat' Hskip ->|cell' b1 _ _ _ _ _ ->
                     |cell' l n b1 _ Hat' _ _ Hm' _ _ _ _ ->];
      try congruence; try done; unfold b1 in *; rewrite Hb1 in *.
    + assert (cell' = cell) as -> by congruence.
      by rewrite Hrev, Hfl in Hskip.
    + congruence.
  - intros Hgo. split.
    + intros g. unfold hint_reveal. by rewrite Hgo, orb_true_r.
    + intros o b' Hstep.
      destruct (step_flags o b b' Hwf Hstep) as (Hg & _ & Hw).
      split_and!; [by apply Hg | by apply Hw |].
      apply mines_revealed_when_lost; [by eapply Inv_step | by apply Hg].
Qed.

Lemma loss_terminal_witness :
  (Reachable opened_3x3
   ∧ cell_at opened_3x3 2 1 = Some (mkCell 2 1 (mkCellState true false false 0))
   ∧ reveal [] 2 1 opened_3x3 = Ok lost_3x3
   ∧ Reachable lost_3x3 ∧ game_over lost_3x3 = true
   ∧ step (Reveal [] 2 0) lost_3x3
     = Ok (play [Reveal [] 2 0] lost_3x3))
  ∧ (game_over lost_3x3 = true
     ∧ ∀ cell', cell' ∈ cells lost_3x3 → is_mine (state cell') = true →
         is_revealed (state cell') = true)
  ∧ hint_reveal [] lost_3x3 = Ok lost_3x3
  ∧ (game_over (play [Reveal [] 2 0] lost_3x3) = true
     ∧ win (play [Reveal [] 2 0] lost_3x3) = win lost_3x3
     ∧ ∀ cell', cell' ∈ cells (play [Reveal [] 2 0] lost_3x3) →
         is_mine (state cell') = true → is_revealed (state cell') = true).
Proof.
  split.
  { split_and!; try apply examples_Reachable; vm_compute; reflexivity. }
  split.
  { apply (proj1 (loss_terminal opened_3x3 (proj1 examples_Reachable))
             [] 2 1 (mkCell 2 1 (mkCellState true false false 0)) lost_3x3);
      vm_compute; reflexivity. }
  destruct (proj2 (loss_terminal lost_3x3 (proj1 (proj2 examples_Reachable)))
              eq_refl) as [Hhint Hstep].
  split; [apply Hhint|].
  apply (Hstep (Reveal [] 2 0)). vm_compute. reflexivity.
Defined.

(** C2 as stated fails: neither [toggle_flag] nor [reveal] looks at
    [game_over], so after a loss both still change unrevealed cells. *)
Lemma loss_terminal_counterexample :
  Reachable lost_3x3 ∧ game_over lost_3x3 = true
  ∧ (∃ b', toggle_flag 2 0 lost_3x3 = Ok b'
           ∧ flagged_count b' = 1 ∧ flagged_count lost_3x3 = 0)
  ∧ (∃ b', reveal [] 2 0 lost_3x3 = Ok b'
           ∧ revealed_count b' = 7 ∧ revealed_count lost_3x3 = 6).
Proof.
  split; [apply examples_Reachable|]. split; [reflexivity|]. split.
  - eexists. split; [vm_compute; reflexivity|]. split; reflexivity.
  - eexists. split; [vm_compute; reflexivity|]. split; reflexivity.
Qed.

(** ** Flags and revealed cells *)




(** ** The terminal flags *)

(** C4, as the code has it: [game_over] and [win] start false, neither is
    ever cleared by an operation, and [win] does not change once
    [game_over] is true. *)
Theorem flags_terminal :
  (∀ cols rows mines,
     game_over (new cols rows mines) = false ∧ win (new cols rows mines) = false)
  ∧ ∀ b o b', Reachable b → step o b = Ok b' →
      (game_over b = true → game_over b' = true)
      ∧ (win b = true → win b' = true)
      ∧ (game_over b = true → win b' = win b).
Proof.
  split; [done|]. intros b o b' HI%Reachable_Inv Hstep.
  by apply (step_flags o b b' (inv_wf b HI)).
Qed.

Lemma flags_terminal_witness :
  (Reachable lost_3x3
   ∧ step (Reveal [] 2 0) lost_3x3 = Ok (play [Reveal [] 2 0] lost_3x3))
  ∧ (game_over lost_3x3 = true →
     game_over (play [Reveal [] 2 0] lost_3x3) = true)
  ∧ (win lost_3x3 = true → win (play [Reveal [] 2 0] lost_3x3) = true)
  ∧ (game_over lost_3x3 = true →
     win (play [Reveal [] 2 0] lost_3x3) = win lost_3x3).
Proof.
  split; [split; [apply examples_Reachable | vm_compute; reflexivity]|].
  apply (proj2 flags_terminal lost_3x3 (Reveal [] 2 0));
    [apply examples_Reachable | vm_compute; reflexivity].
Defined.

(** C4 as stated fails: on a won board a reveal of the unflagged mine sets
    [game_over], so both flags end up true. *)
Lemma flags_terminal_counterexample :
  Reachable won_4x1 ∧ win won_4x1 = true ∧ game_over won_4x1 = false
  ∧ ∃ b', reveal [] 3 0 won_4x1 = Ok b'
      ∧ Reachable b' ∧ win b' = true ∧ game_over b' = true.
Proof.
  split; [apply examples_Reachable|]. split; [reflexivity|].
  split; [reflexivity|].
  eexists. split; [vm_compute; reflexivity|]. split; [|split; reflexivity].
  apply (reach_step won_4x1 (Reveal [] 3 0)); [apply examples_Reachable|].
  vm_compute. reflexivity.
Qed.

(** ** Mine placement *)

(** C5: on a reachable board on which no mines are placed yet and whose
    mine count is not negative, [place_mines(safe_col, safe_row)] returns,
    makes exactly [min(num_mines, pool_size)] cells mines, where the pool is
    the grid positions outside the forbidden set of the safe cell and its
    in-bounds neighbours, and leaves every cell of the forbidden set safe. *)
Theorem place_mines_count g safe_col safe_row b :
  Reachable b → _mines_placed b = false → 0 ≤ num_mines b →
  ∃ b', place_mines g safe_col safe_row b = Ok b'
    ∧ count_mines b'
      = Z.min (num_mines b)
          (Z.of_nat (length (filter (λ p, p ∉ forbidden_zone b safe_col safe_row)
                               (all_positions b))))
    ∧ ∀ cell, cell ∈ cells b' →
        coords cell ∈ forbidden_zone b safe_col safe_row →
        is_mine (state cell) = false.
Proof.
  intros HI%Reachable_Inv Hp Hn. pose proof (inv_wf b HI) as Hwf.
  pose proof (no_mines_fresh b HI Hp) as Hno.
  exists (placed g safe_col safe_row b). split_and!.
  - by apply place_mines_spec.
  - unfold placed.
    change (count_mines (set_mines_placed true ?x)) with (count_mines x).
    rewrite with_mines_count; [|done|done|by intros p []%mine_positions_spec].
    by apply mine_positions_size.
  - intros cell' Hcell' Hforb.
    unfold placed, with_adjacency, with_mines in Hcell'. simpl in Hcell'.
    rewrite <- list_fmap_compose in Hcell'.
    apply list_elem_of_fmap in Hcell' as (cell & -> & Hcell). simpl in *.
    rewrite set_adjacency_is_mine.
    rewrite (set_adjacency_coords _ (mark_mines _ cell)),
      (mark_mines_coords _ cell) in Hforb.
    unfold mark_mines. case_decide as HM; [|by apply Hno].
    by apply mine_positions_spec in HM as [_ ?].
Qed.

Lemma place_mines_count_witness :
  Reachable (new 4 4 3) ∧ _mines_placed (new 4 4 3) = false
  ∧ 0 ≤ num_mines (new 4 4 3)
  ∧ ∃ b', place_mines [2; 0; 1]%nat 0 0 (new 4 4 3) = Ok b'
      ∧ count_mines b'
        = Z.min (num_mines (new 4 4 3))
            (Z.of_nat (length (filter (λ p, p ∉ forbidden_zone (new 4 4 3) 0 0)
                                 (all_positions (new 4 4 3)))))
      ∧ ∀ cell, cell ∈ cells b' → coords cell ∈ forbidden_zone (new 4 4 3) 0 0 →
          is_mine (state cell) = false.
Proof.
  split; [apply reach_new|]. split; [reflexivity|]. split; [simpl; lia|].
  apply (place_mines_count [2; 0; 1]%nat 0 0 (new 4 4 3));
    [apply reach_new | reflexivity | simpl; lia].
Defined.

(** C6: after [place_mines] every cell that is not a mine carries in
    [adjacent] the number of mine cells in its Moore neighbourhood, a value
    between 0 and 8. *)
Theorem place_mines_adjacent g safe_col safe_row b :
  Reachable b →
  ∃ b', place_mines g safe_col safe_row b = Ok b'
    ∧ ∀ cell, cell ∈ cells b' → is_mine (state cell) = false →
        adjacent (state cell) = moore_mines b' (col cell) (row cell)
        ∧ 0 ≤ adjacent (state cell) ≤ 8.
Proof.
  intros HI%Reachable_Inv. pose proof (inv_wf b HI) as Hwf.
  exists (placed g safe_col safe_row b). split; [by apply place_mines_spec|].
  intros cell Hcell Hm.
  pose proof (adj_ok_with_adjacency
                (with_mines (mine_positions g safe_col safe_row b) b)
                cell Hcell Hm) as Hadj.
  change (adjacent (state cell)
          = mine_neighbors (placed g safe_col safe_row b) (col cell) (row cell))
    in Hadj.
  rewrite Hadj. split; [apply mine_neighbors_moore | apply mine_neighbors_bounds].
Qed.

Lemma place_mines_adjacent_witness :
  Reachable (new 4 4 3)
  ∧ ∃ b', place_mines [2; 0; 1]%nat 0 0 (new 4 4 3) = Ok b'
      ∧ ∀ cell, cell ∈ cells b' → is_mine (state cell) = false →
          adjacent (state cell) = moore_mines b' (col cell) (row cell)
          ∧ 0 ≤ adjacent (state cell) ≤ 8.
Proof.
  split; [apply reach_new|].
  apply (place_mines_adjacent [2; 0; 1]%nat 0 0 (new 4 4 3)), reach_new.
Defined.

(** ** The flood fill *)




(** ** Reveal on a revealed cell *)

(** C8: on a reachable board, [reveal] on an in-bounds cell that is
    already revealed and not a mine returns the board unchanged. *)
Theorem reveal_idempotent g c r b cell :
  Reachable b → is_inbounds b c r = true → cell_at b c r = Some cell →
  is_revealed (state cell) = true → is_mine (state cell) = false →
  reveal g c r b = Ok b.
Proof.
  intros HI%Reachable_Inv Hin Hat Hrev _.
  assert (_mines_placed b = true) as Hp.
  { pose proof (inv_cells b HI) as Hc. rewrite Forall_forall in Hc.
    destruct (Hc cell (cell_at_elem _ _ _ _ Hat)) as (_ & _ & _ & H4 & _).
    destruct (_mines_placed b); [done|]. destruct H4; congruence. }
  destruct (reveal_spec g c r b (inv_wf b HI)) as (b' & -> & Hout). f_equal.
  assert (after_placement g c r b = b) as Hb
    by (unfold after_placement; by rewrite Hp).
  destruct Hout as [? ->|cell' b1 _ _ _ ->|cell' b1 _ Hat' Hrev' _ _ ->
                   |cell' l n b1 _ Hat' Hrev' _ _ _ _ _ _ ->];
    try done; unfold b1 in *; rewrite Hb in *; congruence.
Qed.

Lemma reveal_idempotent_witness :
  (Reachable opened_3x3 ∧ is_inbounds opened_3x3 1 1 = true
   ∧ cell_at opened_3x3 1 1 = Some (mkCell 1 1 (mkCellState false true false 1)))
  ∧ reveal [] 1 1 opened_3x3 = Ok opened_3x3.
Proof.
  split; [split; [apply examples_Reachable|]; split; reflexivity|].
  apply (reveal_idempotent [] 1 1 opened_3x3
           (mkCell 1 1 (mkCellState false true false 1)));
    [apply examples_Reachable | reflexivity..].
Defined.

(** ** Totality *)

(** C9: on a reachable board [reveal] and [toggle_flag] return normally
    for all integer arguments and leave the board as it is when the
    position is out of bounds; [hint_reveal] returns normally and leaves
    the board as it is when there is no cell to pick. *)
Theorem operations_total b :
  Reachable b →
  ∀ g c r,
    (∃ b', reveal g c r b = Ok b'
           ∧ (is_inbounds b c r = false → b' = b))
    ∧ (∃ b', toggle_flag c r b = Ok b'
             ∧ (is_inbounds b c r = false → b' = b))
    ∧ (∃ b', hint_reveal g b = Ok b' ∧ (hint_candidates b = [] → b' = b)).
Proof.
  intros HI%Reachable_Inv g c r. pose proof (inv_wf b HI) as Hwf.
  split_and!.
  - destruct (reveal_spec g c r b Hwf) as (b' & Heq & Hout).
    exists b'. split; [done|]. intros Hin.
    destruct Hout as [_ ->|? ? Hin'|? ? Hin'|? ? ? ? Hin']; congruence.
  - destruct (toggle_flag_cases c r b Hwf)
      as [[_ Heq] | (cell & Hin & _ & [[_ Heq] | [_ Heq]])];
      eexists; (split; [exact Heq|]); intros; congruence.
  - destruct (hint_reveal_cases g b)
      as [[_ Heq] | [_ [[_ Heq] | (cell & g' & Hcell & Heq)]]].
    + by exists b.
    + by exists b.
    + destruct (reveal_spec g' (col cell) (row cell) b Hwf) as (b' & Hrv & _).
      exists b'. split; [congruence|]. intros Hnil.
      rewrite Hnil in Hcell. by apply elem_of_nil in Hcell.
Qed.

Lemma operations_total_witness :
  Reachable opened_3x3
  ∧ (∃ b', reveal [] (-1) 7 opened_3x3 = Ok b'
           ∧ (is_inbounds opened_3x3 (-1) 7 = false → b' = opened_3x3))
  ∧ (∃ b', toggle_flag (-1) 7 opened_3x3 = Ok b'
           ∧ (is_inbounds opened_3x3 (-1) 7 = false → b' = opened_3x3))
  ∧ (∃ b', hint_reveal [] opened_3x3 = Ok b'
           ∧ (hint_candidates opened_3x3 = [] → b' = opened_3x3)).
Proof.
  split; [apply examples_Reachable|].
  apply (operations_total opened_3x3 (proj1 examples_Reachable) [] (-1) 7).
Defined.

(** ** Safe reveals *)

(** C10: a reveal whose target is not a mine, and so every reveal that
    [hint_reveal] performs, leaves [game_over] as it was and changes the
    [is_revealed] field of no mine cell. *)
Theorem safe_reveal_hides_mines b :
  Reachable b →
  (∀ g c r b',
     reveal g c r b = Ok b' → is_mine_at b' (c, r) = false →
     game_over b' = game_over b
     ∧ Forall2 (λ cell cell',
                  is_mine (state cell') = true →
                  is_revealed (state cell') = is_revealed (state cell))
         (cells b) (cells b'))
  ∧ (∀ g b',
       hint_reveal g b = Ok b' →
       game_over b' = game_over b
       ∧ Forall2 (λ cell cell',
                    is_mine (state cell') = true →
                    is_revealed (state cell') = is_revealed (state cell))
           (cells b) (cells b')).
Proof.
  intros HI%Reachable_Inv. pose proof (inv_wf b HI) as Hwf.
  assert (∀ g c r b',
     reveal g c r b = Ok b' → is_mine_at b' (c, r) = false →
     game_over b' = game_over b
     ∧ Forall2 (λ cell cell',
                  is_mine (state cell') = true →
                  is_revealed (state cell') = is_revealed (state cell))
         (cells b) (cells b')) as Hreveal.
  { intros g c r b' Hop Hsafe.
    pose proof (reveal_safe_game_over g c r b b' Hwf Hop Hsafe) as Hgo.
    split; [done|].
    eapply Forall2_impl; [by eapply reveal_frame|].
    intros x y (_ & _ & Hmono & _ & Hmine) Hm. simpl in *.
    destruct (is_revealed (state x)) eqn:Hx; [by apply Hmono|].
    destruct (is_revealed (state y)) eqn:Hy; [|done].
    destruct (Hmine Hm eq_refl eq_refl). congruence. }
  split; [exact Hreveal|].
  intros g b' Hop.
  destruct (hint_reveal_cases g b)
    as [[_ Heq] | [Hguard [[_ Heq] | (cell & g' & Hcell & Heq)]]];
    rewrite Heq in Hop.
  - injection Hop as <-. split; [done|].
    apply Forall_Forall2_diag, Forall_forall. done.
  - injection Hop as <-. split; [done|].
    apply Forall_Forall2_diag, Forall_forall. done.
  - apply (Hreveal g' (col cell) (row cell) b' Hop).
    apply orb_false_iff in Hguard as [Hguard _].
    apply orb_false_iff in Hguard as [Hp%negb_false_iff _].
    rewrite (reveal_is_mine_at g' (col cell) (row cell) b b') by done.
    apply list_elem_of_filter in Hcell as [(Hm & _) [i Hi]%list_elem_of_lookup].
    destruct (lookup_cell_at b i cell Hwf Hi) as (_ & Hat & _).
    by rewrite (is_mine_at_cell _ _ _ _ Hat).
Qed.

Lemma safe_reveal_hides_mines_witness :
  (Reachable opened_3x3
   ∧ reveal [] 2 0 opened_3x3 = Ok (play [Reveal [] 2 0] opened_3x3)
   ∧ is_mine_at (play [Reveal [] 2 0] opened_3x3) (2, 0) = false
   ∧ hint_reveal [] opened_3x3 = Ok (play [HintReveal []] opened_3x3))
  ∧ (game_over (play [Reveal [] 2 0] opened_3x3) = game_over opened_3x3
     ∧ Forall2 (λ cell cell',
                  is_mine (state cell') = true →
                  is_revealed (state cell') = is_revealed (state cell))
         (cells opened_3x3) (cells (play [Reveal [] 2 0] opened_3x3)))
  ∧ (game_over (play [HintReveal []] opened_3x3) = game_over opened_3x3
     ∧ Forall2 (λ cell cell',
                  is_mine (state cell') = true →
                  is_revealed (state cell') = is_revealed (state cell))
         (cells opened_3x3) (cells (play [HintReveal []] opened_3x3))).
Proof.
  split.
  { split_and!; try apply examples_Reachable; vm_compute; reflexivity. }
  destruct (safe_reveal_hides_mines opened_3x3) as [Hreveal Hhint];
    [apply examples_Reachable|].
  split.
  - apply (Hreveal [] 2 0); vm_compute; reflexivity.
  - apply (Hhint []). vm_compute. reflexivity.
Defined.

(** * Further properties *)

(** ** The constructor *)

(** X1: [Board(cols, rows, mines)] allocates [max(0, cols) * max(0, rows)]
    cells; the cell at the flat index of an in-bounds position [(c, r)] is
    the fresh cell of that position (no mine, unrevealed, unflagged,
    adjacency 0), and every cell of the list is such a cell of an in-bounds
    position; no flag is set and there is no mine. *)
Theorem new_board_fresh cols rows mines :
  Z.of_nat (length (cells (new cols rows mines))) = Z.max 0 cols * Z.max 0 rows
  ∧ (∀ c r, is_inbounds (new cols rows mines) c r = true →
       cell_at (new cols rows mines) c r = Some (fresh_cell c r))
  ∧ (∀ cell, cell ∈ cells (new cols rows mines) →
       cell = fresh_cell (col cell) (row cell)
       ∧ is_inbounds (new cols rows mines) (col cell) (row cell) = true)
  ∧ flagged_count (new cols rows mines) = 0
  ∧ count_mines (new cols rows mines) = 0.
Proof.
  pose proof (wf_new cols rows mines) as Hwf. split_and!.
  - rewrite new_cells, grid_length. lia.
  - intros c r Hin.
    destruct (cell_at_inbounds _ c r Hwf Hin) as (cell & Hat & Hco).
    rewrite Hat. f_equal.
    rewrite (new_elem cols rows mines cell) by (by eapply cell_at_elem).
    by injection Hco as -> ->.
  - intros cell Hcell. split; [by eapply new_elem|].
    apply list_elem_of_lookup_1 in Hcell as (i & Hi).
    by destruct (wf_coords _ i cell Hwf Hi).
  - unfold flagged_count. rewrite filter_none; [done|].
    intros x Hx. by rewrite (new_elem cols rows mines x Hx).
  - unfold count_mines. rewrite filter_none; [done|].
    intros x Hx. by rewrite (new_elem cols rows mines x Hx).
Qed.

Lemma new_board_fresh_witness :
  (is_inbounds (new 3 2 1) 2 1 = true
   ∧ mkCell 0 1 (mkCellState false false false 0) ∈ cells (new 3 2 1))
  ∧ Z.of_nat (length (cells (new 3 2 1))) = 6
  ∧ cell_at (new 3 2 1) 2 1 = Some (fresh_cell 2 1)
  ∧ is_inbounds (new 3 2 1) 0 1 = true.
Proof.
  destruct (new_board_fresh 3 2 1) as (Hlen & Hat & Hall & _).
  assert (mkCell 0 1 (mkCellState false false false 0) ∈ cells (new 3 2 1))
    as Hcell by (by apply (list_elem_of_lookup_2 _ 3%nat)).
  split_and!; [done | done | exact Hlen | by apply Hat |].
  apply (Hall _ Hcell).
Defined.

(** ** Flat indices *)

(** X2: on every reachable board [index] and the stored coordinates are
    inverse to each other: the flat index of an in-bounds position is a
    valid list index and the cell read there carries that position, the
    coordinates of the cell at list index [i] are in bounds and map back
    to [i], and two in-bounds positions with the same flat index are the
    same position. *)
Theorem index_round_trip b :
  Reachable b →
  (∀ c r, is_inbounds b c r = true →
     0 ≤ index b c r < Z.of_nat (length (cells b))
     ∧ ∃ cell, Py.getitem (cells b) (index b c r) = Ok cell
               ∧ coords cell = (c, r))
  ∧ (∀ i cell, cells b !! i = Some cell →
       is_inbounds b (col cell) (row cell) = true
       ∧ index b (col cell) (row cell) = Z.of_nat i)
  ∧ (∀ c1 r1 c2 r2,
       is_inbounds b c1 r1 = true → is_inbounds b c2 r2 = true →
       index b c1 r1 = index b c2 r2 → (c1, r1) = (c2, r2)).
Proof.
  intros Hb. pose proof (inv_wf b (Reachable_Inv b Hb)) as Hwf. split_and!.
  - intros c r Hin. split; [by apply index_range|].
    destruct (getitem_cell b c r Hwf Hin) as (cell & Hat & Hget).
    exists cell. split; [done | by eapply cell_at_coords].
  - intros i cell Hi. by apply wf_coords.
  - intros c1 r1 c2 r2 H1 H2 Heq.
    by destruct (index_inj b c1 r1 c2 r2 H1 H2 Heq) as [-> ->].
Qed.

Lemma index_round_trip_witness :
  (Reachable opened_3x3 ∧ is_inbounds opened_3x3 2 1 = true
   ∧ cells opened_3x3 !! 5%nat = Some (mkCell 2 1 (mkCellState true false false 0)))
  ∧ (0 ≤ index opened_3x3 2 1 < Z.of_nat (length (cells opened_3x3))
     ∧ ∃ cell, Py.getitem (cells opened_3x3) (index opened_3x3 2 1) = Ok cell
               ∧ coords cell = (2, 1))
  ∧ (is_inbounds opened_3x3 2 1 = true ∧ index opened_3x3 2 1 = 5).
Proof.
  destruct (index_round_trip opened_3x3) as (Hto & Hfrom & Hinj);
    [apply examples_Reachable|].
  split; [|split].
  - split; [apply examples_Reachable | split; vm_compute; reflexivity].
  - apply Hto. vm_compute. reflexivity.
  - apply (Hfrom 5%nat (mkCell 2 1 (mkCellState true false false 0))).
    vm_compute. reflexivity.
Defined.

(** ** Neighbourhoods *)

(** X3: [neighbors] is symmetric and irreflexive on the grid: a position
    listed among the neighbours of an in-bounds cell is in bounds, differs
    from the cell, and lists the cell among its own neighbours. *)
Theorem neighbors_symmetric b c r nc nr :
  is_inbounds b c r = true → (nc, nr) ∈ neighbors b c r →
  is_inbounds b nc nr = true ∧ (nc, nr) ≠ (c, r)
  ∧ (c, r) ∈ neighbors b nc nr.
Proof.
  intros Hin (Hin' & Hne & Hc & Hr)%neighbors_spec.
  split_and!; [done | done |].
  apply neighbors_spec. split_and!; [done | congruence | lia..].
Qed.

Lemma neighbors_symmetric_witness :
  (is_inbounds (new 3 3 1) 0 0 = true ∧ (1, 1) ∈ neighbors (new 3 3 1) 0 0)
  ∧ is_inbounds (new 3 3 1) 1 1 = true ∧ ((1, 1) : pos) ≠ (0, 0)
  ∧ (0, 0) ∈ neighbors (new 3 3 1) 1 1.
Proof.
  assert ((1, 1) ∈ neighbors (new 3 3 1) 0 0) as Hn
    by (by apply (list_elem_of_lookup_2 _ 2%nat)).
  split; [by vm_compute|]. by apply neighbors_symmetric.
Defined.

(** X4: an in-bounds cell has as many neighbours as its 3x3 block has
    cells on the grid, itself apart: 8 in the interior, 5 on an edge, 3 in
    a corner, fewer on boards of width or height below 3; no position is
    listed twice. *)
Theorem neighbors_count b c r :
  is_inbounds b c r = true →
  Z.of_nat (length (neighbors b c r)) = span c (cols b) * span r (rows b) - 1
  ∧ NoDup (neighbors b c r).
Proof.
  intros Hin. split; [by apply neighbors_length_span | apply neighbors_NoDup].
Qed.

Lemma neighbors_count_witness :
  is_inbounds (new 4 3 1) 3 1 = true
  ∧ Z.of_nat (length (neighbors (new 4 3 1) 3 1))
    = span 3 (cols (new 4 3 1)) * span 1 (rows (new 4 3 1)) - 1
  ∧ NoDup (neighbors (new 4 3 1) 3 1).
Proof. split; [by vm_compute | by apply neighbors_count]. Defined.

(** ** Flags *)

(** X5: [toggle_flag] is an involution on every reachable board: calling
    it twice with the same coordinates gives the board back (the flag of
    an unrevealed cell is set and cleared again; out of bounds and on a
    revealed cell both calls do nothing). *)
Theorem toggle_flag_involution c r b :
  Reachable b →
  ∃ b1, toggle_flag c r b = Ok b1 ∧ toggle_flag c r b1 = Ok b.
Proof.
  intros Hb. pose proof (inv_wf b (Reachable_Inv b Hb)) as Hwf.
  destruct (toggle_flag_cases c r b Hwf)
    as [[Hout Heq] | (cell & Hin & Hat & [[Hrev Heq] | [Hrev Heq]])];
    [by exists b | by exists b |].
  eexists. split; [exact Heq|].
  set (f := set_is_flagged (negb (is_flagged (state cell)))) in *.
  set (b1 := set_cells (alter f (Z.to_nat (index b c r)) (cells b)) b).
  assert (wf b1) as Hwf1 by (apply wf_alter; [apply keeps_coords_flagged | done]).
  assert (cell_at b1 c r = Some (f cell)) as Hat1.
  { unfold cell_at, b1. simpl.
    change (index (set_cells ?l b) c r) with (index b c r).
    rewrite list_lookup_alter_eq. unfold cell_at in Hat. by rewrite Hat. }
  rewrite (toggle_flag_unrevealed c r b1 (f cell) Hwf1 Hin Hat1 Hrev).
  f_equal. unfold b1. rewrite set_cells_set_cells. simpl.
  change (index (set_cells ?l b) c r) with (index b c r).
  rewrite (alter_twice_id _ _ _ _ cell Hat); [apply set_cells_id|].
  unfold f. destruct cell as [cc rr [m rv fl a]]. simpl. by rewrite negb_involutive.
Qed.

Lemma toggle_flag_involution_witness :
  Reachable opened_3x3
  ∧ ∃ b1, toggle_flag 2 1 opened_3x3 = Ok b1
          ∧ toggle_flag 2 1 b1 = Ok opened_3x3.
Proof.
  split; [apply examples_Reachable|].
  apply toggle_flag_involution, examples_Reachable.
Defined.

(** X6: on an unrevealed in-bounds cell [toggle_flag] inverts the flag of
    that cell and touches nothing else: every other list entry and every
    scalar field of the board are as before, and [flagged_count()] moves
    by exactly one, up when the cell was unflagged and down when it was
    flagged. *)
Theorem toggle_flag_effect c r b cell :
  Reachable b → is_inbounds b c r = true → cell_at b c r = Some cell →
  is_revealed (state cell) = false →
  ∃ b', toggle_flag c r b = Ok b'
    ∧ cell_at b' c r
      = Some (set_is_flagged (negb (is_flagged (state cell))) cell)
    ∧ (∀ i, i ≠ Z.to_nat (index b c r) → cells b' !! i = cells b !! i)
    ∧ set_cells (cells b) b' = b
    ∧ flagged_count b'
      = flagged_count b + (if is_flagged (state cell) then -1 else 1).
Proof.
  intros Hb Hin Hat Hrev.
  pose proof (inv_wf b (Reachable_Inv b Hb)) as Hwf.
  eexists. split; [by apply toggle_flag_unrevealed|].
  unfold cell_at in *. simpl.
  change (index (set_cells ?l b) c r) with (index b c r).
  split_and!.
  - by rewrite list_lookup_alter_eq, Hat.
  - intros i Hi. rewrite list_lookup_alter_ne; [done | congruence].
  - by destruct b.
  - unfold flagged_count. simpl.
    pose proof (filter_alter_length (λ x, is_flagged (state x) = true)
                  (set_is_flagged (negb (is_flagged (state cell))))
                  _ _ _ Hat) as Hlen.
    simpl in Hlen. destruct (is_flagged (state cell)); simpl in Hlen |- *;
      repeat case_decide; try done; lia.
Qed.

Lemma toggle_flag_effect_witness :
  (Reachable flagged_4x4 ∧ is_inbounds flagged_4x4 3 0 = true
   ∧ cell_at flagged_4x4 3 0 = Some (mkCell 3 0 (mkCellState true false true 0))
   ∧ is_revealed (state (mkCell 3 0 (mkCellState true false true 0))) = false)
  ∧ ∃ b', toggle_flag 3 0 flagged_4x4 = Ok b'
      ∧ cell_at b' 3 0 = Some (mkCell 3 0 (mkCellState true false false 0))
      ∧ (∀ i, i ≠ Z.to_nat (index flagged_4x4 3 0) →
           cells b' !! i = cells flagged_4x4 !! i)
      ∧ set_cells (cells flagged_4x4) b' = flagged_4x4
      ∧ flagged_count b' = flagged_count flagged_4x4 + -1.
Proof.
  split; [split_and!; [apply examples_Reachable | by vm_compute..]|].
  apply (toggle_flag_effect 3 0 flagged_4x4
           (mkCell 3 0 (mkCellState true false true 0)));
    [apply examples_Reachable | by vm_compute..].
Defined.

(** X7: only [toggle_flag] writes flags: [reveal] and [hint_reveal] leave
    the flag of every cell, and so [flagged_count()], as they were, also
    when they place the mines, lose or win. *)
Theorem reveal_keeps_flags b :
  Reachable b →
  (∀ g c r b', reveal g c r b = Ok b' →
     (λ cell, is_flagged (state cell)) <$> cells b'
     = (λ cell, is_flagged (state cell)) <$> cells b
     ∧ flagged_count b' = flagged_count b)
  ∧ (∀ g b', hint_reveal g b = Ok b' →
       (λ cell, is_flagged (state cell)) <$> cells b'
       = (λ cell, is_flagged (state cell)) <$> cells b
       ∧ flagged_count b' = flagged_count b).
Proof.
  intros Hb. pose proof (Reachable_Inv b Hb) as HI. split.
  - intros g c r b' Hop.
    pose proof (reveal_flags_kept g c r b b' HI Hop) as Hfl.
    split; [done | by apply flagged_count_flags].
  - intros g b' Hop.
    pose proof (hint_reveal_flags_kept g b b' HI Hop) as Hfl.
    split; [done | by apply flagged_count_flags].
Qed.

Lemma reveal_keeps_flags_witness :
  (Reachable flagged_4x4
   ∧ reveal [] 2 1 flagged_4x4 = Ok (play [Reveal [] 2 1] flagged_4x4)
   ∧ hint_reveal [] flagged_4x4 = Ok (play [HintReveal []] flagged_4x4))
  ∧ flagged_count (play [Reveal [] 2 1] flagged_4x4) = flagged_count flagged_4x4
  ∧ flagged_count (play [HintReveal []] flagged_4x4) = flagged_count flagged_4x4.
Proof.
  destruct (reveal_keeps_flags flagged_4x4) as [Hreveal Hhint];
    [apply examples_Reachable|].
  split; [split_and!; [apply examples_Reachable | by vm_compute..]|]. split.
  - by apply (Hreveal [] 2 1).
  - by apply (Hhint []).
Defined.

(** ** What the operations keep *)

(** X8: no run of the public operations resizes the board or takes
    anything back: [cols], [rows], [num_mines] and the length of the cell
    list stay as they are, every cell keeps its coordinates, a revealed cell
    stays revealed, [revealed_count] never decreases, and once the mines are
    placed they stay placed. *)
Theorem run_monotone os b b' :
  Reachable b → run os b = Ok b' →
  cols b' = cols b ∧ rows b' = rows b ∧ num_mines b' = num_mines b
  ∧ length (cells b') = length (cells b)
  ∧ revealed_count b ≤ revealed_count b'
  ∧ (_mines_placed b = true → _mines_placed b' = true)
  ∧ Forall2 (λ cell cell',
               coords cell' = coords cell
               ∧ (is_revealed (state cell) = true →
                  is_revealed (state cell') = true))
      (cells b) (cells b').
Proof.
  intros Hb Hrun.
  destruct (run_kept os b b' (Reachable_Inv b Hb) Hrun)
    as [Hc Hr Hn Hl Hk Hx].
  split_and!; try done.
  - symmetry. by eapply Forall2_length.
  - eapply Forall2_impl; [exact Hx|]. by intros x y (? & ? & _).
Qed.

Lemma run_monotone_witness :
  (Reachable opened_3x3
   ∧ run [ToggleFlag 2 2; Reveal [] 2 0; HintReveal []; Reveal [] 2 1] opened_3x3
     = Ok (play [ToggleFlag 2 2; Reveal [] 2 0; HintReveal []; Reveal [] 2 1]
             opened_3x3))
  ∧ revealed_count opened_3x3
    ≤ revealed_count
        (play [ToggleFlag 2 2; Reveal [] 2 0; HintReveal []; Reveal [] 2 1]
           opened_3x3).
Proof.
  split; [split; [apply examples_Reachable | by vm_compute]|].
  apply (run_monotone
           [ToggleFlag 2 2; Reveal [] 2 0; HintReveal []; Reveal [] 2 1]
           opened_3x3);
    [apply examples_Reachable | by vm_compute].
Defined.

(** X9: mine placement happens once: after it no run of the public
    operations changes which cells are mines or any adjacency count (the
    cells' [is_mine] and [adjacent] fields are never written again), so the
    number of mines and the mine at every position stay as placed. *)
Theorem mines_fixed_once_placed os b b' :
  Reachable b → _mines_placed b = true → run os b = Ok b' →
  _mines_placed b' = true
  ∧ static <$> cells b' = static <$> cells b
  ∧ count_mines b' = count_mines b
  ∧ ∀ p, is_mine_at b' p = is_mine_at b p.
Proof.
  intros Hb Hp Hrun.
  destruct (run_kept os b b' (Reachable_Inv b Hb) Hrun)
    as [Hc Hr Hn Hl Hk Hx].
  pose proof (cell_kept_static b _ _ Hp Hx) as Hst.
  split_and!; [auto | done | by apply count_mines_static |].
  intros p. by apply is_mine_at_static.
Qed.

Lemma mines_fixed_once_placed_witness :
  (Reachable opened_3x3 ∧ _mines_placed opened_3x3 = true
   ∧ run [ToggleFlag 2 2; Reveal [] 2 0; HintReveal []; Reveal [] 2 1] opened_3x3
     = Ok (play [ToggleFlag 2 2; Reveal [] 2 0; HintReveal []; Reveal [] 2 1]
             opened_3x3))
  ∧ count_mines
      (play [ToggleFlag 2 2; Reveal [] 2 0; HintReveal []; Reveal [] 2 1]
         opened_3x3)
    = count_mines opened_3x3.
Proof.
  split; [split_and!; [apply examples_Reachable | by vm_compute..]|].
  apply (mines_fixed_once_placed
           [ToggleFlag 2 2; Reveal [] 2 0; HintReveal []; Reveal [] 2 1]
           opened_3x3);
    [apply examples_Reachable | by vm_compute..].
Defined.

(** ** The first click *)

(** X10: the first in-bounds [reveal] of a game places the mines and cannot
    lose: afterwards [game_over] is false, the clicked cell is not a mine,
    its adjacency count is 0 and none of its neighbours is a mine; unless
    the clicked cell was flagged it is revealed, together with each of its
    unflagged neighbours. *)
Theorem first_click_safe g c r b :
  Reachable b → _mines_placed b = false → is_inbounds b c r = true →
  ∃ b' cell,
    reveal g c r b = Ok b' ∧ _mines_placed b' = true ∧ game_over b' = false
    ∧ cell_at b' c r = Some cell
    ∧ is_mine (state cell) = false ∧ adjacent (state cell) = 0
    ∧ (∀ p, p ∈ neighbors b c r → is_mine_at b' p = false)
    ∧ (is_flagged (state cell) = false →
       is_revealed (state cell) = true
       ∧ ∀ p, p ∈ neighbors b c r → is_open b p = true →
           is_revealed_at b' p = true).
Proof.
  intros Hb Hp Hin. pose proof (Reachable_Inv b Hb) as HI.
  pose proof (reveal_after_placement g c r b (inv_wf b HI) Hin) as Heq.
  assert (after_placement g c r b = placed g c r b) as Hb1
    by (unfold after_placement; by rewrite Hp).
  rewrite Hb1 in Heq.
  pose proof (Inv_placed g c r b HI Hp) as HI1.
  pose proof (inv_wf _ HI1) as Hwf1.
  set (b1 := placed g c r b) in *.
  assert (is_inbounds b1 c r = true) as Hin1 by exact Hin.
  destruct (cell_at_inbounds b1 c r Hwf1 Hin1) as (cell & Hat & Hco).
  destruct (placed_zero g c r b cell HI Hp Hin Hat) as [Hm Hadj].
  pose proof (placed_unrevealed g c r b cell HI Hp (cell_at_elem _ _ _ _ Hat))
    as Hrev.
  assert (game_over b1 = false) as Hgo1 by apply (inv_fresh b HI Hp).
  assert (∀ p, p ∈ neighbors b c r → is_mine_at b1 p = false) as Hnb.
  { intros p Hpn.
    apply placed_safe_zone; [done | done | by eapply neighbors_inbounds |].
    apply elem_of_union_r. by apply elem_of_list_to_set. }
  destruct (is_flagged (state cell)) eqn:Hfl.
  { exists b1, cell.
    rewrite Heq, (reveal_flagged_target g c r b1 cell) by done.
    split_and!; try done. intros; congruence. }
  destruct (reveal_safe_target g c r b1 cell HI1 eq_refl Hin1 Hat Hrev Hfl Hm)
    as (l & n & Hop & HI2 & Hrel & Hcnt & Hreach).
  rewrite Hop in Heq.
  destruct (check_win_cells (flood_state b1 l n)) as (k & Hk & Hkk).
  destruct (check_win_scalars (flood_state b1 l n))
    as (Hc' & _ & _ & Hp' & _ & Hgo').
  assert (Reach b1 (c, r) (c, r)) as Hstart.
  { apply Reach_start; [done|]. unfold is_open. simpl.
    by rewrite Hat, Hrev, Hfl. }
  pose proof Hat as Hat0. unfold cell_at in Hat0.
  destruct (Forall2_lookup_l _ _ _ _ _ Hrel Hat0) as (y & Hy & Hxy).
  assert (is_revealed (state y) = true) as Hry.
  { pose proof (Hreach _ Hstart) as Hrc.
    unfold is_revealed_at, cell_at in Hrc. simpl in Hrc.
    change (index (flood_state b1 l n) c r) with (index b1 c r) in Hrc.
    by rewrite Hy in Hrc. }
  pose proof (flood_rel_static_cell _ _ Hxy) as Hsy.
  destruct (Hkk y) as (Hks & Hkf & Hkr).
  assert (static (k y) = static cell) as Hst by congruence.
  exists (_check_win (flood_state b1 l n)), (k y). split_and!.
  - done.
  - by rewrite Hp'.
  - by rewrite Hgo'.
  - unfold cell_at. rewrite Hk, list_lookup_fmap.
    replace (index (_check_win (flood_state b1 l n)) c r) with (index b1 c r)
      by (unfold index; by rewrite Hc').
    change (cells (flood_state b1 l n)) with l. by rewrite Hy.
  - pose proof (f_equal (λ t : pos * bool * Z, t.1.2) Hst) as H1.
    simpl in H1. congruence.
  - pose proof (f_equal (λ t : pos * bool * Z, t.2) Hst) as H1.
    simpl in H1. congruence.
  - intros p Hpn. rewrite <- (Hnb p Hpn).
    apply is_mine_at_static; [done|].
    rewrite Hk, fmap_fmap_keep by (intros x; apply Hkk).
    change (cells (flood_state b1 l n)) with l.
    by apply flood_rel_static.
  - intros _. split; [by rewrite Hkr|].
    intros p Hpn Hopen. apply is_revealed_at_check_win, Hreach.
    apply (Reach_next b1 (c, r) (c, r) p); [done | | done |].
    + unfold zero_at. simpl. rewrite Hat. by apply bool_decide_eq_true.
    + unfold b1. by rewrite is_open_placed.
Qed.

Lemma first_click_safe_witness :
  (Reachable (new 3 3 1) ∧ _mines_placed (new 3 3 1) = false
   ∧ is_inbounds (new 3 3 1) 0 0 = true)
  ∧ ∃ b' cell,
      reveal [] 0 0 (new 3 3 1) = Ok b'
      ∧ _mines_placed b' = true ∧ game_over b' = false
      ∧ cell_at b' 0 0 = Some cell
      ∧ is_mine (state cell) = false ∧ adjacent (state cell) = 0
      ∧ (∀ p, p ∈ neighbors (new 3 3 1) 0 0 → is_mine_at b' p = false)
      ∧ (is_flagged (state cell) = false →
         is_revealed (state cell) = true
         ∧ ∀ p, p ∈ neighbors (new 3 3 1) 0 0 → is_open (new 3 3 1) p = true →
             is_revealed_at b' p = true).
Proof.
  split; [split_and!; [apply reach_new | by vm_compute..]|].
  apply first_click_safe; [apply reach_new | by vm_compute..].
Defined.

(** ** Hints *)

(** X11: on a game in progress (mines placed, neither lost nor won) with a
    hidden, unflagged safe cell left, [hint_reveal] makes progress and
    cannot lose: [revealed_count] grows strictly and [game_over] stays
    false. *)
Theorem hint_reveal_progress g b :
  Reachable b → _mines_placed b = true → game_over b = false →
  win b = false → hint_candidates b ≠ [] →
  ∃ b', hint_reveal g b = Ok b'
    ∧ revealed_count b < revealed_count b' ∧ game_over b' = false.
Proof.
  intros Hb Hp Hgo Hw Hne. pose proof (Reachable_Inv b Hb) as HI.
  destruct (hint_reveal_cases g b)
    as [[Hguard _] | [_ [[Hnil _] | (cell & g' & Hcell & ->)]]].
  { by rewrite Hp, Hgo, Hw in Hguard. }
  { done. }
  apply list_elem_of_filter in Hcell as [(Hm & Hrev & Hfl) Hcell].
  apply list_elem_of_lookup_1 in Hcell as (i & Hi).
  destruct (lookup_cell_at b i cell (inv_wf b HI) Hi) as (Hin & Hat & _).
  destruct (reveal_safe_target g' _ _ b cell HI Hp Hin Hat Hrev Hfl Hm)
    as (l & n & -> & HI2 & Hrel & Hcnt & Hreach).
  destruct (check_win_scalars (flood_state b l n))
    as (_ & _ & _ & _ & Hrc & Hgo').
  eexists. split; [done|]. rewrite Hrc, Hgo'. split; [|done].
  assert (Reach b (col cell, row cell) (col cell, row cell)) as Hstart.
  { apply Reach_start; [done|]. unfold is_open. simpl.
    by rewrite Hat, Hrev, Hfl. }
  pose proof Hat as Hat0. unfold cell_at in Hat0.
  destruct (Forall2_lookup_l _ _ _ _ _ Hrel Hat0) as (y & Hy & Hxy).
  assert (is_revealed (state y) = true) as Hry.
  { pose proof (Hreach _ Hstart) as Hr.
    unfold is_revealed_at, cell_at in Hr. simpl in Hr.
    change (index (flood_state b l n) (col cell) (row cell))
      with (index b (col cell) (row cell)) in Hr.
    by rewrite Hy in Hr. }
  pose proof (flood_rel_hidden_lt _ _ _ _ _ Hrel Hat0 Hy Hrev Hry) as Hlt.
  unfold hidden in Hcnt. simpl in Hcnt |- *. lia.
Qed.

Lemma hint_reveal_progress_witness :
  (Reachable opened_3x3 ∧ _mines_placed opened_3x3 = true
   ∧ game_over opened_3x3 = false ∧ win opened_3x3 = false
   ∧ hint_candidates opened_3x3 ≠ [])
  ∧ ∃ b', hint_reveal [] opened_3x3 = Ok b'
      ∧ revealed_count opened_3x3 < revealed_count b' ∧ game_over b' = false.
Proof.
  split; [split_and!; [apply examples_Reachable | by vm_compute..]|].
  apply hint_reveal_progress; [apply examples_Reachable | by vm_compute..].
Defined.

(** ** Losing *)

(** X12: the game is lost in one way only: a call that turns [game_over]
    from false to true is a [reveal] on a board with its mines placed whose
    target is an unrevealed, unflagged mine. A flag toggle, a hint, the
    first click, and a reveal of a flagged mine never lose. *)
Theorem loss_only_by_mine o b b' :
  Reachable b → step o b = Ok b' →
  game_over b = false → game_over b' = true →
  ∃ g c r cell,
    o = Reveal g c r ∧ _mines_placed b = true ∧ is_inbounds b c r = true
    ∧ cell_at b c r = Some cell ∧ is_mine (state cell) = true
    ∧ is_revealed (state cell) = false ∧ is_flagged (state cell) = false.
Proof.
  intros Hb Hstep Hgo Hgo'. pose proof (Reachable_Inv b Hb) as HI.
  pose proof (inv_wf b HI) as Hwf.
  assert (∀ g c r, reveal g c r b = Ok b' →
            _mines_placed b = true ∧ is_inbounds b c r = true
            ∧ ∃ cell, cell_at b c r = Some cell ∧ is_mine (state cell) = true
                ∧ is_revealed (state cell) = false
                ∧ is_flagged (state cell) = false) as Hreveal.
  { intros g c r Hop. reveal_outcome_of Hwf Hop Hout.
    destruct (after_placement_scalars g c r b) as (_ & _ & _ & _ & Hgo1 & _).
    destruct Hout as [_ ->|cell b1 _ _ _ ->|cell b1 Hin Hat Hrev Hfl Hm _
                     |cell l n b1 _ _ _ _ _ _ _ _ _ ->].
    - congruence.
    - unfold b1 in Hgo'. congruence.
    - destruct (_mines_placed b) eqn:Hp.
      + split_and!; [done | done |]. exists cell.
        unfold b1 in Hat. rewrite after_placement_id in Hat by done. done.
      + unfold b1, after_placement in Hat. rewrite Hp in Hat.
        destruct (placed_zero g c r b cell HI Hp Hin Hat). congruence.
    - destruct (check_win_scalars (flood_state b1 l n))
        as (_ & _ & _ & _ & _ & Hgo2).
      rewrite Hgo2 in Hgo'. simpl in Hgo'. unfold b1 in Hgo'. congruence. }
  destruct o as [g c r|c r|g]; simpl in Hstep.
  - destruct (Hreveal g c r Hstep) as (Hp & Hin & cell & Hcell).
    by exists g, c, r, cell.
  - destruct (toggle_flag_flags c r b b' Hwf Hstep). congruence.
  - destruct (hint_reveal_cases g b)
      as [[_ Heq] | [_ [[_ Heq] | (cell & g' & Hcell & Heq)]]];
      rewrite Heq in Hstep; [congruence | congruence |].
    destruct (Hreveal g' _ _ Hstep) as (_ & Hin & cell' & Hat & Hm & _).
    apply list_elem_of_filter in Hcell as [(Hsafe & _) Hcell].
    apply list_elem_of_lookup_1 in Hcell as (i & Hi).
    destruct (lookup_cell_at b i cell Hwf Hi) as (_ & Hat' & _).
    congruence.
Qed.

Lemma loss_only_by_mine_witness :
  (Reachable opened_3x3 ∧ step (Reveal [] 2 1) opened_3x3 = Ok lost_3x3
   ∧ game_over opened_3x3 = false ∧ game_over lost_3x3 = true)
  ∧ ∃ g c r cell,
      Reveal [] 2 1 = Reveal g c r ∧ _mines_placed opened_3x3 = true
      ∧ is_inbounds opened_3x3 c r = true
      ∧ cell_at opened_3x3 c r = Some cell ∧ is_mine (state cell) = true
      ∧ is_revealed (state cell) = false ∧ is_flagged (state cell) = false.
Proof.
  split; [split_and!; [apply examples_Reachable | by vm_compute..]|].
  apply (loss_only_by_mine (Reveal [] 2 1) opened_3x3 lost_3x3);
    [apply examples_Reachable | by vm_compute..].
Defined.

(** ** The number of mines *)

(** X13: on every board with its mines placed there is a cell that is not
    a mine and, for [num_mines >= 0], at most [num_mines] mines and at
    least [min(num_mines, cols*rows - 9)]: a caller that keeps to
    [num_mines <= cols*rows - 9] gets exactly [num_mines] mines wherever
    the first click lands. *)
Theorem mine_count_bounds b :
  Reachable b → _mines_placed b = true → 0 ≤ num_mines b →
  Z.min (num_mines b) (cols b * rows b - 9) ≤ count_mines b ≤ num_mines b
  ∧ (num_mines b ≤ cols b * rows b - 9 → count_mines b = num_mines b)
  ∧ count_mines b < cols b * rows b.
Proof.
  intros Hb Hp Hn.
  destruct (Reachable_placement_ok b Hb Hp) as [Hc Hr (cell & Hcell & Hm) Hcnt].
  specialize (Hcnt Hn). split_and!; [lia | lia | lia |].
  pose proof (count_safe_mines b) as Hsum.
  rewrite cells_length in Hsum
    by (done || apply inv_wf, Reachable_Inv, Hb).
  assert (0 < count_safe b); [|lia].
  unfold count_safe.
  assert (cell ∈ filter (λ x, is_mine (state x) = false) (cells b)) as Hf
    by (by apply list_elem_of_filter).
  destruct (filter _ (cells b)); [by apply elem_of_nil in Hf | simpl; lia].
Qed.

Lemma mine_count_bounds_witness :
  (Reachable flagged_4x4 ∧ _mines_placed flagged_4x4 = true
   ∧ 0 ≤ num_mines flagged_4x4)
  ∧ Z.min (num_mines flagged_4x4) (cols flagged_4x4 * rows flagged_4x4 - 9)
    ≤ count_mines flagged_4x4 ≤ num_mines flagged_4x4
  ∧ (num_mines flagged_4x4 ≤ cols flagged_4x4 * rows flagged_4x4 - 9 →
     count_mines flagged_4x4 = num_mines flagged_4x4)
  ∧ count_mines flagged_4x4 < cols flagged_4x4 * rows flagged_4x4.
Proof.
  split; [split_and!; [apply examples_Reachable | by vm_compute..]|].
  apply mine_count_bounds; [apply examples_Reachable | by vm_compute..].
Defined.

(** ** Winning *)

(** X14: on a won board the mines are placed, every cell that is not a
    mine is revealed and [revealed_count] is [cols*rows - num_mines]; a
    won board is final for its safe cells: [hint_reveal] does nothing, and
    [reveal] and [toggle_flag] do nothing on a cell that is not a mine. *)
Theorem won_board b :
  Reachable b → win b = true →
  _mines_placed b = true
  ∧ all_safe_revealed b
  ∧ revealed_count b = cols b * rows b - num_mines b
  ∧ (∀ g, hint_reveal g b = Ok b)
  ∧ ∀ g c r cell,
      is_inbounds b c r = true → cell_at b c r = Some cell →
      is_mine (state cell) = false →
      reveal g c r b = Ok b ∧ toggle_flag c r b = Ok b.
Proof.
  intros Hb Hw. pose proof (Reachable_Inv b Hb) as HI.
  pose proof (inv_wf b HI) as Hwf.
  assert (_mines_placed b = true) as Hp.
  { destruct (_mines_placed b) eqn:Hp; [done|].
    destruct (inv_fresh b HI Hp) as (_ & _ & Hw'). congruence. }
  pose proof (win_all_safe b HI Hw) as Hall.
  split_and!; [done | done | | |].
  - by apply (wi_won b (Reachable_win_inv b Hb)).
  - intros g. unfold hint_reveal. by rewrite Hw, orb_true_r.
  - intros g c r cell Hin Hat Hm.
    pose proof (Hall cell (cell_at_elem _ _ _ _ Hat) Hm) as Hrev.
    split; [by eapply reveal_revealed_target|].
    destruct (toggle_flag_cases c r b Hwf)
      as [[_ Heq] | (cell' & _ & Hat' & [[_ Heq] | [Hrev' _]])];
      [done | done |].
    rewrite Hat in Hat'. injection Hat' as <-. congruence.
Qed.

Lemma won_board_witness :
  (Reachable won_4x1 ∧ win won_4x1 = true
   ∧ is_inbounds won_4x1 1 0 = true
   ∧ cell_at won_4x1 1 0 = Some (mkCell 1 0 (mkCellState false true false 0))
   ∧ is_mine (state (mkCell 1 0 (mkCellState false true false 0))) = false)
  ∧ _mines_placed won_4x1 = true
  ∧ revealed_count won_4x1 = cols won_4x1 * rows won_4x1 - num_mines won_4x1
  ∧ hint_reveal [] won_4x1 = Ok won_4x1
  ∧ reveal [] 1 0 won_4x1 = Ok won_4x1 ∧ toggle_flag 1 0 won_4x1 = Ok won_4x1.
Proof.
  destruct (won_board won_4x1) as (Hp & _ & Hrc & Hhint & Hsafe);
    [apply examples_Reachable | done |].
  split; [split_and!; [apply examples_Reachable | by vm_compute..]|].
  split_and!; [exact Hp | exact Hrc | apply Hhint | |];
    by apply (Hsafe [] 1 0 (mkCell 1 0 (mkCellState false true false 0))).
Defined.

(** X15: the win check misses no win: on a board with its mines placed
    that is not lost and holds exactly [num_mines] mines, [win] is true as
    soon as every cell that is not a mine is revealed. *)
Theorem win_complete b :
  Reachable b → _mines_placed b = true → game_over b = false →
  count_mines b = num_mines b → all_safe_revealed b → win b = true.
Proof.
  intros Hb Hp Hgo Hexact Hall. pose proof (Reachable_Inv b Hb) as HI.
  destruct (win b) eqn:Hw; [done | exfalso].
  destruct (Reachable_placement_ok b Hb Hp) as [Hc Hr (cell & Hcell & Hm) _].
  pose proof (count_safe_mines b) as Hsum.
  rewrite cells_length in Hsum by (done || by apply inv_wf).
  assert (count_safe_revealed b = count_safe b) as Hsafe.
  { unfold count_safe_revealed, count_safe. do 2 f_equal.
    apply list_filter_iff_in. intros x Hx. unfold safe_revealed.
    split; [by intros [_ ?] | intros Hmx; split; [by apply Hall | done]]. }
  pose proof (inv_count b HI Hw) as Hrc.
  assert (0 < count_safe b) as Hpos.
  { unfold count_safe.
    assert (cell ∈ filter (λ x, is_mine (state x) = false) (cells b)) as Hf
      by (by apply list_elem_of_filter).
    destruct (filter _ (cells b)); [by apply elem_of_nil in Hf | simpl; lia]. }
  pose proof (wi_pending b (Reachable_win_inv b Hb) Hgo Hw) as Hzero.
  lia.
Qed.

Lemma win_complete_witness :
  (Reachable won_4x1 ∧ _mines_placed won_4x1 = true
   ∧ game_over won_4x1 = false ∧ count_mines won_4x1 = num_mines won_4x1
   ∧ all_safe_revealed won_4x1)
  ∧ win won_4x1 = true.
Proof.
  assert (all_safe_revealed won_4x1) as Hall.
  { intros cell Hcell Hm. vm_compute in Hcell.
    repeat (apply elem_of_cons in Hcell as [->|Hcell]; [by vm_compute in Hm |]).
    by apply elem_of_nil in Hcell. }
  split; [split_and!; [apply examples_Reachable | by vm_compute..]|].
  apply win_complete; [apply examples_Reachable | by vm_compute..].
Defined.

(** ** The candidate pool *)

(** X16: for an in-bounds first click the pool that [place_mines]
    shuffles holds every grid position outside the 3x3 block of the click,
    each once: [cols*rows] less 9 for a click in the interior, less 6 on an
    edge, less 4 in a corner, so never fewer than [cols*rows - 9]. *)
Theorem candidate_pool_size b c r :
  is_inbounds b c r = true →
  Z.of_nat (length (candidate_pool b c r))
  = cols b * rows b - span c (cols b) * span r (rows b)
  ∧ cols b * rows b - 9 ≤ Z.of_nat (length (candidate_pool b c r))
  ∧ NoDup (candidate_pool b c r)
  ∧ ∀ p, p ∈ candidate_pool b c r ↔
         is_inbounds b p.1 p.2 = true ∧ p ≠ (c, r) ∧ p ∉ neighbors b c r.
Proof.
  intros Hin. pose proof (candidate_pool_length b c r Hin) as Hlen.
  pose proof (neighbors_length_span b c r Hin) as Hn.
  pose proof (neighbors_length b c r) as Hle.
  split_and!; [lia | lia | apply NoDup_filter, all_positions_NoDup |].
  intros [pc pr]. rewrite candidate_pool_spec, all_positions_spec.
  unfold forbidden_zone.
  rewrite not_elem_of_union, not_elem_of_singleton, not_elem_of_list_to_set.
  done.
Qed.

Lemma candidate_pool_size_witness :
  is_inbounds (new 4 4 2) 0 3 = true
  ∧ Z.of_nat (length (candidate_pool (new 4 4 2) 0 3))
    = cols (new 4 4 2) * rows (new 4 4 2)
      - span 0 (cols (new 4 4 2)) * span 3 (rows (new 4 4 2))
  ∧ cols (new 4 4 2) * rows (new 4 4 2) - 9
    ≤ Z.of_nat (length (candidate_pool (new 4 4 2) 0 3))
  ∧ NoDup (candidate_pool (new 4 4 2) 0 3)
  ∧ ∀ p, p ∈ candidate_pool (new 4 4 2) 0 3 ↔
         is_inbounds (new 4 4 2) p.1 p.2 = true ∧ p ≠ (0, 3)
         ∧ p ∉ neighbors (new 4 4 2) 0 3.
Proof. split; [by vm_compute | by apply candidate_pool_size]. Defined.

(** ** Reveal, target by target *)

(** X17: a flag protects its cell: [reveal] on a flagged in-bounds cell
    reveals nothing, whether or not the cell is a mine. The counter, the
    terminal flags and the revealed state of every cell are as before, and
    on a board with its mines placed the call changes nothing at all (on a
    fresh board it still places the mines). *)
Theorem reveal_flagged_cell g c r b cell :
  Reachable b → is_inbounds b c r = true → cell_at b c r = Some cell →
  is_flagged (state cell) = true →
  ∃ b', reveal g c r b = Ok b'
    ∧ (_mines_placed b = true → b' = b)
    ∧ _mines_placed b' = true
    ∧ revealed_count b' = revealed_count b
    ∧ game_over b' = game_over b ∧ win b' = win b
    ∧ (λ x, is_revealed (state x)) <$> cells b'
      = (λ x, is_revealed (state x)) <$> cells b.
Proof.
  intros Hb Hin Hat Hfl. pose proof (Reachable_Inv b Hb) as HI.
  pose proof (inv_wf b HI) as Hwf.
  exists (after_placement g c r b).
  destruct (after_placement_cells g c r b) as (h & Hh & Hkeep & _).
  destruct (after_placement_scalars g c r b) as (Hc & _ & _ & Hrc & Hgo & Hw).
  split_and!; try done.
  - rewrite reveal_after_placement by done.
    apply (reveal_flagged_target _ _ _ _ (h cell)).
    + by apply wf_after_placement.
    + apply after_placement_placed.
    + unfold after_placement. by destruct (_mines_placed b).
    + unfold cell_at. rewrite Hh, list_lookup_fmap.
      replace (index (after_placement g c r b) c r) with (index b c r)
        by (unfold index; by rewrite Hc).
      unfold cell_at in Hat. by rewrite Hat.
    + destruct (Hkeep cell) as (_ & -> & _). done.
  - intros Hp. by apply after_placement_id.
  - apply after_placement_placed.
  - rewrite Hh, <- list_fmap_compose. apply list_fmap_ext.
    intros i x _. simpl. by destruct (Hkeep x) as (_ & _ & ->).
Qed.

Lemma reveal_flagged_cell_witness :
  (Reachable flagged_4x4 ∧ is_inbounds flagged_4x4 3 0 = true
   ∧ cell_at flagged_4x4 3 0 = Some (mkCell 3 0 (mkCellState true false true 0))
   ∧ is_flagged (state (mkCell 3 0 (mkCellState true false true 0))) = true)
  ∧ ∃ b', reveal [] 3 0 flagged_4x4 = Ok b'
      ∧ (_mines_placed flagged_4x4 = true → b' = flagged_4x4)
      ∧ _mines_placed b' = true
      ∧ revealed_count b' = revealed_count flagged_4x4
      ∧ game_over b' = game_over flagged_4x4 ∧ win b' = win flagged_4x4
      ∧ (λ x, is_revealed (state x)) <$> cells b'
        = (λ x, is_revealed (state x)) <$> cells flagged_4x4.
Proof.
  split; [split_and!; [apply examples_Reachable | by vm_compute..]|].
  apply (reveal_flagged_cell [] 3 0 flagged_4x4
           (mkCell 3 0 (mkCellState true false true 0)));
    [apply examples_Reachable | by vm_compute..].
Defined.

(** X18: the flood fill stops at a numbered cell: [reveal] on an
    unrevealed, unflagged cell that is not a mine and has a mine among its
    neighbours reveals that one cell, adds one to [revealed_count] and runs
    the win check; unless the game is won by it, no other cell changes. *)
Theorem reveal_numbered_cell g c r b cell :
  Reachable b → _mines_placed b = true →
  is_inbounds b c r = true → cell_at b c r = Some cell →
  is_revealed (state cell) = false → is_flagged (state cell) = false →
  is_mine (state cell) = false → adjacent (state cell) ≠ 0 →
  reveal g c r b = Ok (_check_win (reveal_at b c r))
  ∧ revealed_count (_check_win (reveal_at b c r)) = revealed_count b + 1
  ∧ (win (_check_win (reveal_at b c r)) = false →
     cells (_check_win (reveal_at b c r))
     = alter (set_is_revealed true) (Z.to_nat (index b c r)) (cells b)).
Proof.
  intros Hb Hp Hin Hat Hrev Hfl Hm Hadj.
  pose proof (inv_wf b (Reachable_Inv b Hb)) as Hwf.
  split_and!.
  - unfold reveal. rewrite Hin, Hp. simpl.
    destruct (getitem_cell b c r Hwf Hin) as (cell' & Hat' & ->).
    rewrite Hat in Hat'. injection Hat' as <-.
    simpl. rewrite Hrev, Hfl, Hm. simpl.
    unfold flood_fuel.
    replace (9 * length (cells b) + 2)%nat
      with (S (9 * length (cells b) + 1)) by lia.
    simpl.
    destruct (flood_step_spec b c r [] Hwf Hin) as (curr & Hcurr & ->).
    rewrite Hat in Hcurr. injection Hcurr as <-.
    rewrite Hrev, Hfl. simpl.
    rewrite bool_decide_eq_false_2 by done. by rewrite flood_nil.
  - by destruct (check_win_scalars (reveal_at b c r)) as (_ & _ & _ & _ & -> & _).
  - rewrite check_win_cases. by destruct (wins (reveal_at b c r)).
Qed.

Lemma reveal_numbered_cell_witness :
  (Reachable opened_3x3 ∧ _mines_placed opened_3x3 = true
   ∧ is_inbounds opened_3x3 2 0 = true
   ∧ cell_at opened_3x3 2 0 = Some (mkCell 2 0 (mkCellState false false false 1))
   ∧ adjacent (state (mkCell 2 0 (mkCellState false false false 1))) ≠ 0)
  ∧ reveal [] 2 0 opened_3x3 = Ok (_check_win (reveal_at opened_3x3 2 0))
  ∧ revealed_count (_check_win (reveal_at opened_3x3 2 0))
    = revealed_count opened_3x3 + 1
  ∧ (win (_check_win (reveal_at opened_3x3 2 0)) = false →
     cells (_check_win (reveal_at opened_3x3 2 0))
     = alter (set_is_revealed true) (Z.to_nat (index opened_3x3 2 0))
         (cells opened_3x3)).
Proof.
  split; [split_and!; [apply examples_Reachable | by vm_compute..]|].
  apply (reveal_numbered_cell [] 2 0 opened_3x3
           (mkCell 2 0 (mkCellState false false false 1)));
    [apply examples_Reachable | by vm_compute..].
Defined.

(** X19: a losing click changes nothing but what a loss shows: [reveal]
    on an unrevealed, unflagged mine sets [game_over], leaves
    [revealed_count], [win] and every other scalar field as they are,
    marks every mine revealed and leaves every cell that is not a mine
    untouched. *)
Theorem reveal_mine_effect g c r b cell :
  Reachable b → is_inbounds b c r = true → cell_at b c r = Some cell →
  is_mine (state cell) = true → is_revealed (state cell) = false →
  is_flagged (state cell) = false →
  ∃ b', reveal g c r b = Ok b'
    ∧ set_cells (cells b) b' = set_game_over true b
    ∧ Forall2 (λ x y, y = if is_mine (state x) then set_is_revealed true x else x)
        (cells b) (cells b').
Proof.
  intros Hb Hin Hat Hm Hrev Hfl. pose proof (Reachable_Inv b Hb) as HI.
  pose proof (inv_wf b HI) as Hwf.
  assert (_mines_placed b = true) as Hp.
  { destruct (_mines_placed b) eqn:Hp; [done|].
    pose proof (no_mines_fresh b HI Hp cell (cell_at_elem _ _ _ _ Hat)).
    congruence. }
  exists (lost b). split_and!.
  - unfold reveal. rewrite Hin, Hp. simpl.
    destruct (getitem_cell b c r Hwf Hin) as (cell' & Hat' & ->).
    rewrite Hat in Hat'. injection Hat' as <-.
    simpl. rewrite Hrev, Hfl, Hm. simpl.
    rewrite mutate_cell_inbounds by done. simpl.
    by rewrite (reveal_all_mines_hit b c r cell).
  - by destruct b.
  - unfold lost. simpl. apply (Forall2_fmap_r sweep_mines).
    apply Forall_Forall2_diag, Forall_forall. by intros x _.
Qed.

Lemma reveal_mine_effect_witness :
  (Reachable opened_3x3 ∧ is_inbounds opened_3x3 2 1 = true
   ∧ cell_at opened_3x3 2 1 = Some (mkCell 2 1 (mkCellState true false false 0)))
  ∧ ∃ b', reveal [] 2 1 opened_3x3 = Ok b'
      ∧ set_cells (cells opened_3x3) b' = set_game_over true opened_3x3
      ∧ Forall2 (λ x y, y = if is_mine (state x) then set_is_revealed true x else x)
          (cells opened_3x3) (cells b').
Proof.
  split; [split_and!; [apply examples_Reachable | by vm_compute..]|].
  apply (reveal_mine_effect [] 2 1 opened_3x3
           (mkCell 2 1 (mkCellState true false false 0)));
    [apply examples_Reachable | by vm_compute..].
Defined.

(** ** The sweeps *)

(** X20: the two sweeps are idempotent: running [_reveal_all_mines] or
    [_check_win] a second time changes nothing, on any board. *)
Theorem sweeps_idempotent b :
  _reveal_all_mines (_reveal_all_mines b) = _reveal_all_mines b
  ∧ _check_win (_check_win b) = _check_win b.
Proof.
  split.
  - unfold _reveal_all_mines. rewrite set_cells_set_cells.
    apply set_cells_ext. change (cells (set_cells ?l b)) with l.
    rewrite <- list_fmap_compose. apply list_fmap_ext.
    intros i x _. simpl. by destruct (is_mine (state x)) eqn:Hm; simpl; rewrite ?Hm.
  - rewrite !check_win_cases. destruct (wins b) eqn:Hw; [|by rewrite Hw].
    assert (wins (won b) = true) as -> by exact Hw.
    unfold won.
    change (set_win true (set_cells ?l (set_win true b))) with
      (set_cells l (set_win true b)).
    rewrite set_cells_set_cells. apply set_cells_ext.
    change (cells (set_cells ?l (set_win true b))) with l.
    change (cells (set_win true b)) with (cells b).
    rewrite <- list_fmap_compose. apply list_fmap_ext.
    intros i x _. simpl. unfold sweep_safe.
    destruct (is_revealed (state x)) eqn:Hr, (is_mine (state x)) eqn:Hm;
      simpl; by rewrite ?Hr, ?Hm.
Qed.

(** ** Adjacency counts *)

(** X21: on every reachable board each [adjacent] field is within 0..8;
    it is still the default 0 in every cell before the mines are placed and
    in every mine afterwards, and in every other cell it is, from the
    placement on and whatever is played, the number of mines in the cell's
    Moore neighbourhood. *)
Theorem adjacency_invariant b cell :
  Reachable b → cell ∈ cells b →
  0 ≤ adjacent (state cell) ≤ 8
  ∧ (is_mine (state cell) = true → adjacent (state cell) = 0)
  ∧ (_mines_placed b = false → adjacent (state cell) = 0)
  ∧ (_mines_placed b = true → is_mine (state cell) = false →
     adjacent (state cell) = moore_mines b (col cell) (row cell)).
Proof.
  intros Hb Hcell. pose proof (Reachable_Inv b Hb) as HI.
  pose proof (Reachable_blank b Hb cell Hcell) as Hblank.
  assert (_mines_placed b = true → is_mine (state cell) = false →
          adjacent (state cell) = moore_mines b (col cell) (row cell)) as Hadj.
  { intros Hp Hm. rewrite <- mine_neighbors_moore. by apply (inv_adj b HI Hp). }
  split_and!; [| | auto | auto | done].
  - destruct (is_mine (state cell)) eqn:Hm; [rewrite Hblank by auto; lia|].
    destruct (_mines_placed b) eqn:Hp; [|rewrite Hblank by auto; lia].
    rewrite (inv_adj b HI Hp cell Hcell Hm).
    apply mine_neighbors_bounds.
  - destruct (is_mine (state cell)) eqn:Hm; [rewrite Hblank by auto; lia|].
    destruct (_mines_placed b) eqn:Hp; [|rewrite Hblank by auto; lia].
    rewrite (inv_adj b HI Hp cell Hcell Hm).
    apply mine_neighbors_bounds.
Qed.

Lemma adjacency_invariant_witness :
  (Reachable opened_3x3
   ∧ mkCell 1 1 (mkCellState false true false 1) ∈ cells opened_3x3)
  ∧ 0 ≤ adjacent (state (mkCell 1 1 (mkCellState false true false 1))) ≤ 8
  ∧ (_mines_placed opened_3x3 = true →
     is_mine (state (mkCell 1 1 (mkCellState false true false 1))) = false →
     adjacent (state (mkCell 1 1 (mkCellState false true false 1)))
     = moore_mines opened_3x3 1 1).
Proof.
  assert (mkCell 1 1 (mkCellState false true false 1) ∈ cells opened_3x3)
    as Hcell by (by apply (list_elem_of_lookup_2 _ 4%nat); vm_compute).
  destruct (adjacency_invariant opened_3x3 _ (proj1 examples_Reachable) Hcell)
    as (Hrange & _ & _ & Hadj).
  split; [split; [apply examples_Reachable | done]|].
  split; [exact Hrange | exact Hadj].
Defined.
